(** * The reactor core of [event_socket_server/base_server.py]

    A shallow embedding of [BaseServer]: the timer-heap scheduler
    ([schedule], [unschedule], [_dispatch_event]), the per-connection output
    queues ([send], [_nonblock_write]) and the connection life cycle
    ([_accept], [_nonblock_read], [_clean_up_client]).

    Python methods become functions in a state-and-exception monad over the
    server object.  Timestamps ([time.time()], delays) are rationals; what the
    outside world answers (the clock, the transport) is an argument of the
    method that asks for it; user code (job functions, completion callbacks,
    the hooks of the pluggable client class) is a value of type [callable]:
    the calls it makes on the server's public interface and how it ends. *)

From Stdlib Require Import QArith Qminmax Lqa.
From stdpp Require Import base option list functions gmap strings.

(** ** Exceptions and the monad of Python methods *)

(** The exception classes the code distinguishes.  The first six derive
    from [Exception]; [SystemExit], [KeyboardInterrupt] and [GeneratorExit]
    derive from [BaseException] only, so [except Exception] lets them
    through. *)
Inductive exn : Type :=
| SocketError                     (* socket.error *)
| TypeError
| IndexError
| KeyError
| AttributeError
| ApplicationError (tag : nat)    (* any other Exception of user code *)
| SystemExit
| KeyboardInterrupt
| GeneratorExit.

Definition is_socket_error (e : exn) : bool :=
  match e with SocketError => true | _ => false end.

Definition is_key_error (e : exn) : bool :=
  match e with KeyError => true | _ => false end.

Inductive outcome (A : Type) : Type :=
| Returns (a : A)
| Raises (e : exn).
Arguments Returns {A} a.
Arguments Raises {A} e.

(** A method of an object of type [S] that returns an [A]: it may mutate the
    object and then either returns or raises; the mutations made before an
    exception stay. *)
Definition py (S A : Type) : Type := S → outcome A * S.

#[global] Instance py_ret {S} : MRet (py S) := λ A a s, (Returns a, s).

#[global] Instance py_bind {S} : MBind (py S) := λ A B f m s,
  match m s with
  | (Returns a, s') => f a s'
  | (Raises e, s') => (Raises e, s')
  end.

Definition raise {S A} (e : exn) : py S A := λ s, (Raises e, s).

(** [try: body / except <classes>: handler]: [catches] says which classes the
    clause names; anything else passes through. *)
Definition try_except {S A} (body : py S A) (catches : exn → bool)
    (handler : py S A) : py S A := λ s,
  match body s with
  | (Returns a, s') => (Returns a, s')
  | (Raises e, s') => if catches e then handler s' else (Raises e, s')
  end.

(** [try: body / except <classes>: handler / else: orelse]: the [else] suite
    runs after a body that did not raise and is not covered by the clause. *)
Definition try_except_else {S A B} (body : py S A) (catches : exn → bool)
    (handler : py S B) (orelse : A → py S B) : py S B := λ s,
  match body s with
  | (Returns a, s') => orelse a s'
  | (Raises e, s') => if catches e then handler s' else (Raises e, s')
  end.

(** [except Exception] *)
Definition Exception (e : exn) : bool :=
  match e with
  | SystemExit | KeyboardInterrupt | GeneratorExit => false
  | _ => true
  end.

Definition bytes : Type := list Byte.byte.

(** [a > b] on timestamps. *)
Definition Qgt_dec (a b : Q) : bool :=
  if Qlt_le_dec b a then true else false.

(** ** heapq

    [heappush] and [heappop] as CPython implements them (the [_heapq]
    accelerator that [from heapq import heappush, heappop] resolves to): the
    sifting loops exchange neighbouring entries, and every comparison is
    [a < b] on the items, which may raise. *)
Section heapq.
Context {A : Type} (lt : A → A → outcome bool).

Definition PyList_GET_SIZE : py (list A) nat := λ heap, (Returns (length heap), heap).

Definition PyList_GET_ITEM (i : nat) : py (list A) A := λ heap,
  match heap !! i with
  | Some x => (Returns x, heap)
  | None => (Raises IndexError, heap)
  end.

Definition PyList_SET_ITEM (i : nat) (x : A) : py (list A) unit := λ heap,
  (Returns tt, <[i := x]> heap).

Definition PyList_Append (x : A) : py (list A) unit := λ heap,
  (Returns tt, heap ++ [x]).

Definition PyObject_RichCompareBool_LT (a b : A) : py (list A) bool := λ heap,
  (lt a b, heap).

(** One round of [siftdown]'s loop per unit of fuel; [pos] rounds are enough
    since [pos] drops at every round. *)
Fixpoint siftdown_loop (fuel startpos pos : nat) : py (list A) unit :=
  match fuel with
  | 0 => mret tt
  | S fuel =>
      if decide (startpos < pos) then
        let parentpos := (pos - 1) / 2 in
        newitem ← PyList_GET_ITEM pos;
        parent ← PyList_GET_ITEM parentpos;
        cmp ← PyObject_RichCompareBool_LT newitem parent;
        if cmp : bool then
          PyList_SET_ITEM parentpos newitem;;
          PyList_SET_ITEM pos parent;;
          siftdown_loop fuel startpos parentpos
        else mret tt
      else mret tt
  end.

Definition siftdown (startpos pos : nat) : py (list A) unit :=
  size ← PyList_GET_SIZE;
  if decide (size ≤ pos) then raise IndexError
  else siftdown_loop pos startpos pos.

(** Bubble the smaller child up until a leaf is hit; returns the leaf's
    position. *)
Fixpoint siftup_loop (fuel endpos pos : nat) : py (list A) nat :=
  match fuel with
  | 0 => mret pos
  | S fuel =>
      let limit := endpos / 2 in
      if decide (pos < limit) then
        let childpos := 2 * pos + 1 in
        childpos ← (if decide (childpos + 1 < endpos) then
                      a ← PyList_GET_ITEM childpos;
                      b ← PyList_GET_ITEM (childpos + 1);
                      cmp ← PyObject_RichCompareBool_LT a b;
                      mret (if cmp : bool then childpos else childpos + 1)
                    else mret childpos);
        tmp1 ← PyList_GET_ITEM childpos;
        tmp2 ← PyList_GET_ITEM pos;
        PyList_SET_ITEM childpos tmp2;;
        PyList_SET_ITEM pos tmp1;;
        siftup_loop fuel endpos childpos
      else mret pos
  end.

Definition siftup (pos : nat) : py (list A) unit :=
  endpos ← PyList_GET_SIZE;
  if decide (endpos ≤ pos) then raise IndexError
  else
    leaf ← siftup_loop endpos endpos pos;
    siftdown pos leaf.

Definition heappush (item : A) : py (list A) unit :=
  PyList_Append item;;
  size ← PyList_GET_SIZE;
  siftdown 0 (size - 1).

(** [del heap[n-1:]] *)
Definition PyList_DropLast : py (list A) unit := λ heap,
  (Returns tt, take (length heap - 1) heap).

Definition heappop : py (list A) A :=
  n ← PyList_GET_SIZE;
  if decide (n = 0) then raise IndexError
  else
    lastelt ← PyList_GET_ITEM (n - 1);
    PyList_DropLast;;
    if decide (n - 1 = 0) then mret lastelt
    else
      returnitem ← PyList_GET_ITEM 0;
      PyList_SET_ITEM 0 lastelt;;
      siftup 0;;
      mret returnitem.
End heapq.

(** ** Data model *)

(** User code called by the server.  What matters of a call is which public
    operations of the server it performs, in order, and whether it then
    returns or raises; a job's [func] applied to its [args] and [kwargs] is
    one such value.  The clock reading of a nested [schedule] is
    recorded with the call. *)
Inductive callable : Type :=
| Callable (calls : list api_call) (raised : option exn)
with api_call : Type :=
| CallSchedule (now delay : Q) (func : callable)
| CallUnschedule (job : nat)
| CallSend (client : Client) (data : bytes) (callback : option callable)
with Client : Type :=
| Build_Client (fileno : Z) (construction : callable) (on_close : callable)
    (_recv_data : bytes → callable).

(** The client class is pluggable; the server uses [fileno()], [on_close()],
    [_recv_data(data)] and the socket behind [_socket], identified here with
    its descriptor.  [construction] is what the class's constructor did when
    the object was made. *)
Definition fileno (client : Client) : Z :=
  match client with Build_Client fd _ _ _ => fd end.
Definition construction (client : Client) : callable :=
  match client with Build_Client _ f _ _ => f end.
Definition on_close (client : Client) : callable :=
  match client with Build_Client _ _ f _ => f end.
Definition _recv_data (client : Client) : bytes → callable :=
  match client with Build_Client _ _ _ f => f end.

Record SendMessage : Type := Build_SendMessage {
  data : bytes;
  callback : option callable
}.

(** [args] and [kwargs] are folded into [func]. *)
Record ScheduledJob : Type := Build_ScheduledJob {
  time : Q;
  func : callable;
  cancel : bool;
  dispatched : bool
}.

(** Modelled from the spec: the interest state of a connection, READ or
    READ+WRITE, which the backend keeps and its [register_for_read] and
    [register_for_write] set (abstract in [BaseServer]).  A connection the
    backend was never told to watch for writing is READ-only. *)
Inductive Interest : Type := READ | READ_WRITE.

(** What the server did to the outside world and to user code, in order.
    [Popleft] records the dequeuing of a finished message and [JobFunc] the
    clock reading of the tick that made the call. *)
Inductive event : Type :=
| SocketSend (fd : Z) (offered : bytes) (result : outcome nat)
| SocketRecv (fd : Z) (result : outcome bytes)
| SocketClose (fd : Z)
| OnClose (fd : Z)
| RecvData (fd : Z) (chunk : bytes)
| WriteCallback (fd : Z)
| Popleft (fd : Z)
| JobFunc (job : nat) (t : Q)
| LogException (msg : string).

(** The server object together with the objects it points to.  A
    [ScheduledJob] is shared between the heap, the caller's handle and the
    ready list of a tick, so jobs live in a store ([jobs]) and are referred to
    by their position in it; the heap holds such references.  Clients are
    identified by their descriptor. *)
Record BaseServer : Type := Build_BaseServer {
  _server : list Z;                       (* listening socket: connections waiting to be accepted *)
  _clients : gset Z;
  _ClientClass : Z → Client;
  _send_queue : gmap Z (list SendMessage); (* defaultdict(deque) *)
  _job_queue : list nat;
  jobs : list ScheduledJob;               (* store of job objects *)
  sockets : gmap Z bool;                  (* open connection sockets, with their blocking flag *)
  interest : Z → Interest;
  trace : list event
}.

Definition set_server (v : list Z) (s : BaseServer) : BaseServer :=
  Build_BaseServer v (_clients s) (_ClientClass s) (_send_queue s) (_job_queue s)
    (jobs s) (sockets s) (interest s) (trace s).
Definition set_clients (v : gset Z) (s : BaseServer) : BaseServer :=
  Build_BaseServer (_server s) v (_ClientClass s) (_send_queue s) (_job_queue s)
    (jobs s) (sockets s) (interest s) (trace s).
Definition set_send_queue (v : gmap Z (list SendMessage)) (s : BaseServer) : BaseServer :=
  Build_BaseServer (_server s) (_clients s) (_ClientClass s) v (_job_queue s)
    (jobs s) (sockets s) (interest s) (trace s).
Definition set_job_queue (v : list nat) (s : BaseServer) : BaseServer :=
  Build_BaseServer (_server s) (_clients s) (_ClientClass s) (_send_queue s) v
    (jobs s) (sockets s) (interest s) (trace s).
Definition set_jobs (v : list ScheduledJob) (s : BaseServer) : BaseServer :=
  Build_BaseServer (_server s) (_clients s) (_ClientClass s) (_send_queue s) (_job_queue s)
    v (sockets s) (interest s) (trace s).
Definition set_sockets (v : gmap Z bool) (s : BaseServer) : BaseServer :=
  Build_BaseServer (_server s) (_clients s) (_ClientClass s) (_send_queue s) (_job_queue s)
    (jobs s) v (interest s) (trace s).
Definition set_interest (v : Z → Interest) (s : BaseServer) : BaseServer :=
  Build_BaseServer (_server s) (_clients s) (_ClientClass s) (_send_queue s) (_job_queue s)
    (jobs s) (sockets s) v (trace s).
Definition set_trace (v : list event) (s : BaseServer) : BaseServer :=
  Build_BaseServer (_server s) (_clients s) (_ClientClass s) (_send_queue s) (_job_queue s)
    (jobs s) (sockets s) (interest s) v.

(** [BaseServer(host, port, client)] with [pending] connections waiting on the
    listening socket. *)
Definition __init__ (client : Z → Client) (pending : list Z) : BaseServer :=
  Build_BaseServer pending ∅ client ∅ [] [] ∅ (λ _, READ) [].

(** ** The server's methods *)

(** [ScheduledJob] defines no [__lt__], so what [a < b] does on two jobs when
    [heapq] compares them is left to the interpreter's default comparison of
    objects; it sees the two objects, here their references. *)
Class JobOrder : Type := job_lt : nat → nat → outcome bool.

Definition getattr {A} (f : BaseServer → A) : py BaseServer A := λ s, (Returns (f s), s).
Definition modify (f : BaseServer → BaseServer) : py BaseServer unit := λ s, (Returns tt, f s).
Definition emit (ev : event) : py BaseServer unit :=
  modify (λ s, set_trace (trace s ++ [ev]) s).

(** A list method run on [self._job_queue]. *)
Definition on_job_queue {A} (m : py (list nat) A) : py BaseServer A := λ s,
  let '(r, q) := m (_job_queue s) in (r, set_job_queue q s).

(** [ScheduledJob(time, func, args, kwargs)]: a new object, not cancelled and
    not dispatched. *)
Definition new_ScheduledJob (time : Q) (func : callable) : py BaseServer nat := λ s,
  (Returns (length (jobs s)),
   set_jobs (jobs s ++ [Build_ScheduledJob time func false false]) s).

(** Attribute access through a reference; a reference to nothing has no
    attributes. *)
Definition job_get (job : nat) : py BaseServer ScheduledJob := λ s,
  match jobs s !! job with
  | Some j => (Returns j, s)
  | None => (Raises AttributeError, s)
  end.

Definition job_set_cancel (job : nat) (v : bool) : py BaseServer unit :=
  modify (λ s, set_jobs
    (alter (λ j, Build_ScheduledJob (time j) (func j) v (dispatched j)) job (jobs s)) s).

Definition job_set_dispatched (job : nat) (v : bool) : py BaseServer unit :=
  modify (λ s, set_jobs
    (alter (λ j, Build_ScheduledJob (time j) (func j) (cancel j) v) job (jobs s)) s).

(** Modelled from the spec: [register_for_write(connection)] of the backend,
    which [BaseServer._register_write] leaves abstract. *)
Definition _register_write (client : Client) : py BaseServer unit :=
  modify (λ s, set_interest (<[fileno client := READ_WRITE]> (interest s)) s).

(** Modelled from the spec: [register_for_read(connection)] of the backend,
    which [BaseServer._register_read] leaves abstract. *)
Definition _register_read (client : Client) : py BaseServer unit :=
  modify (λ s, set_interest (<[fileno client := READ]> (interest s)) s).

(** [self._send_queue[fd]] on the [defaultdict(deque)]: a missing key is
    inserted with an empty deque. *)
Definition send_queue_getitem (fd : Z) : py BaseServer (list SendMessage) := λ s,
  match _send_queue s !! fd with
  | Some queue => (Returns queue, s)
  | None => (Returns [], set_send_queue (<[fd := []]> (_send_queue s)) s)
  end.

(** [del self._send_queue[fd]] *)
Definition send_queue_delitem (fd : Z) : py BaseServer unit := λ s,
  match _send_queue s !! fd with
  | Some _ => (Returns tt, set_send_queue (delete fd (_send_queue s)) s)
  | None => (Raises KeyError, s)
  end.

(** Methods of the deque stored under [fd]. *)
Definition deque_append (fd : Z) (m : SendMessage) : py BaseServer unit :=
  modify (λ s, set_send_queue (alter (λ queue, queue ++ [m]) fd (_send_queue s)) s).

Definition deque_front (fd : Z) : py BaseServer SendMessage := λ s,
  match _send_queue s !! fd with
  | Some (top :: _) => (Returns top, s)
  | _ => (Raises IndexError, s)
  end.

Definition deque_popleft (fd : Z) : py BaseServer unit := λ s,
  match _send_queue s !! fd with
  | Some (_ :: _) =>
      (Returns tt, set_trace (trace s ++ [Popleft fd])
                     (set_send_queue (alter (drop 1) fd (_send_queue s)) s))
  | _ => (Raises IndexError, s)
  end.

Definition deque_items (fd : Z) : py BaseServer (list SendMessage) :=
  getattr (λ s, default [] (_send_queue s !! fd)).

(** [top.data = v] on the message at the front of the deque. *)
Definition front_set_data (fd : Z) (v : bytes) : py BaseServer unit :=
  modify (λ s, set_send_queue
    (alter (λ queue, match queue with
                     | top :: rest => Build_SendMessage v (callback top) :: rest
                     | [] => []
                     end) fd (_send_queue s)) s).

(** The transport.  [sent] and [received] are what the socket answers. *)
Definition socket_send (fd : Z) (buf : bytes) (sent : outcome nat) : py BaseServer nat := λ s,
  (sent, set_trace (trace s ++ [SocketSend fd buf sent]) s).

Definition socket_recv (fd : Z) (received : outcome bytes) : py BaseServer bytes := λ s,
  (received, set_trace (trace s ++ [SocketRecv fd received]) s).

Definition socket_close (fd : Z) : py BaseServer unit :=
  modify (λ s, set_trace (trace s ++ [SocketClose fd]) (set_sockets (delete fd (sockets s)) s)).

Definition socket_setblocking (fd : Z) (flag : bool) : py BaseServer unit :=
  modify (λ s, set_sockets (alter (λ _, flag) fd (sockets s)) s).

(** [self._server.accept()] on the non-blocking listening socket. *)
Definition socket_accept : py BaseServer Z := λ s,
  match _server s with
  | conn :: waiting =>
      (Returns conn, set_sockets (<[conn := true]> (sockets s)) (set_server waiting s))
  | [] => (Raises SocketError, s)
  end.

Definition logger_exception (msg : string) : py BaseServer unit :=
  emit (LogException msg).

Section server.
Context `{JobOrder}.

Definition schedule (now delay : Q) (func : callable) : py BaseServer nat :=
  job ← new_ScheduledJob (now + delay)%Q func;
  on_job_queue (heappush job_lt job);;
  mret job.

Definition unschedule (job : nat) : py BaseServer bool :=
  j ← job_get job;
  if dispatched j || cancel j then mret false
  else
    job_set_cancel job true;;
    mret true.

Definition send (client : Client) (data : bytes) (callback : option callable)
    : py BaseServer unit :=
  send_queue_getitem (fileno client);;
  deque_append (fileno client) (Build_SendMessage data callback);;
  _register_write client.

(** Running user code: its calls on the server are made in order (what it
    does with the result or the exception of each is its own business), then
    it returns or raises. *)
Definition perform (c : api_call) : py BaseServer unit :=
  match c with
  | CallSchedule now delay func => schedule now delay func;; mret tt
  | CallUnschedule job => unschedule job;; mret tt
  | CallSend client data callback => send client data callback
  end.

Definition attempt (m : py BaseServer unit) : py BaseServer unit := λ s,
  (Returns tt, (m s).2).

Definition finish (raised : option exn) : py BaseServer unit :=
  match raised with
  | None => mret tt
  | Some e => raise e
  end.

Definition call (f : callable) : py BaseServer unit :=
  match f with
  | Callable calls raised =>
      foldr (λ c rest, attempt (perform c);; rest) (finish raised) calls
  end.

Definition clients_add (client : Client) : py BaseServer unit :=
  modify (λ s, set_clients ({[fileno client]} ∪ _clients s) s).

(** [self._clients.remove(client)] *)
Definition clients_remove (client : Client) : py BaseServer unit := λ s,
  if decide (fileno client ∈ _clients s)
  then (Returns tt, set_clients (_clients s ∖ {[fileno client]}) s)
  else (Raises KeyError, s).

Definition _accept : py BaseServer Client :=
  conn ← socket_accept;
  socket_setblocking conn false;;
  factory ← getattr _ClientClass;
  let client := factory conn in
  call (construction client);;
  clients_add client;;
  mret client.

Definition _clean_up_client (client : Client) (finalize : bool) : py BaseServer unit :=
  try_except (send_queue_delitem (fileno client)) is_key_error (mret tt);;
  emit (OnClose (fileno client));;
  call (on_close client);;
  socket_close (fileno client);;
  if negb finalize then clients_remove client else mret tt.

(** The [while True] loop of [_dispatch_event], one round per unit of fuel;
    it yields [dt] and the ready list.  A round pops one job, so one unit
    more than the length of the heap is enough. *)
Fixpoint drain (fuel : nat) (t : Q) (tasks : list nat) : py BaseServer (Q * list nat) :=
  match fuel with
  | 0 => mret (1%Q, tasks)
  | S fuel =>
      queue ← getattr _job_queue;
      dt ← match queue with
           | top :: _ => j ← job_get top; mret (time j - t)%Q
           | [] => mret 1%Q
           end;
      if Qgt_dec dt 0 then mret (dt, tasks)
      else
        task ← on_job_queue (heappop job_lt);
        job_set_dispatched task true;;
        j ← job_get task;
        drain fuel t (if negb (cancel j) then tasks ++ [task] else tasks)
  end.

Fixpoint run_tasks (t : Q) (tasks : list nat) : py BaseServer unit :=
  match tasks with
  | [] => mret tt
  | task :: tasks =>
      j ← job_get task;
      emit (JobFunc task t);;
      call (func j);;
      run_tasks t tasks
  end.

(** [t] is the reading of [time.time()]. *)
Definition _dispatch_event (t : Q) : py BaseServer Q :=
  queue ← getattr _job_queue;
  '(dt, tasks) ← drain (S (length queue)) t [];
  run_tasks t tasks;;
  queue ← getattr _job_queue;
  mret (if bool_decide (queue = []) || Qgt_dec dt 1 then 1%Q else dt).

Definition _nonblock_read (client : Client) (received : outcome bytes)
    : py BaseServer unit :=
  try_except_else (socket_recv (fileno client) received) is_socket_error
    (_clean_up_client client false)
    (λ data,
       match data with
       | [] => _clean_up_client client false
       | _ =>
           try_except
             (emit (RecvData (fileno client) data);;
              call (_recv_data client data))
             Exception
             (logger_exception "Client recv_data failure";;
              _clean_up_client client false)
       end).

(** The result of the inner suites says whether the method goes on
    ([true]) or has returned ([false]). *)
Definition _nonblock_write (client : Client) (sent : outcome nat) : py BaseServer unit :=
  let fd := fileno client in
  send_queue_getitem fd;;
  try_except
    (top ← deque_front fd;
     cb ← socket_send fd (data top) sent;
     front_set_data fd (drop cb (data top));;
     match drop cb (data top) with
     | [] =>
         goes_on ← match callback top with
                   | Some f =>
                       try_except
                         (emit (WriteCallback fd);; call f;; mret true)
                         Exception
                         (logger_exception "Client write callback failure";;
                          _clean_up_client client false;;
                          mret false)
                   | None => mret true
                   end;
         if goes_on : bool then
           deque_popleft fd;;
           queue ← deque_items fd;
           match queue with
           | [] => _register_read client;; send_queue_delitem fd
           | _ => mret tt
           end
         else mret tt
     | _ => mret tt
     end)
    is_socket_error
    (_clean_up_client client false).
End server.

(** ** Executions and what is observed of them *)

(** The entry points of the server: what applications call ([schedule],
    [unschedule], [send]) and what the backend's loop calls on a wake-up, each
    with the answers of the outside world. *)
Inductive op : Type :=
| Schedule (now delay : Q) (func : callable)
| Unschedule (job : nat)
| Send (client : Client) (data : bytes) (callback : option callable)
| Accept
| Read (client : Client) (received : outcome bytes)
| Write (client : Client) (sent : outcome nat)
| CleanUp (client : Client) (finalize : bool)
| Tick (t : Q).

(** The server after a method ran, whatever its outcome. *)
Definition after {A} (m : py BaseServer A) (s : BaseServer) : BaseServer := (m s).2.

Definition step `{JobOrder} (o : op) : BaseServer → BaseServer :=
  match o with
  | Schedule now delay func => after (schedule now delay func)
  | Unschedule job => after (unschedule job)
  | Send client data callback => after (send client data callback)
  | Accept => after _accept
  | Read client received => after (_nonblock_read client received)
  | Write client sent => after (_nonblock_write client sent)
  | CleanUp client finalize => after (_clean_up_client client finalize)
  | Tick t => after (_dispatch_event t)
  end.

Definition run `{JobOrder} (ops : list op) (s : BaseServer) : BaseServer :=
  foldl (λ s o, step o s) s ops.

(** The calls of job functions recorded in a trace, oldest first. *)
Definition invocations (tr : list event) : list (nat * Q) :=
  omap (λ ev, match ev with JobFunc job t => Some (job, t) | _ => None end) tr.

(** The bytes a connection's transport took, in order. *)
Definition transmitted (fd : Z) (tr : list event) : bytes :=
  mbind (M := list) (λ ev,
    match ev with
    | SocketSend fd' offered (Returns cb) => if decide (fd' = fd) then take cb offered else []
    | _ => []
    end) tr.

(** The pending output of a connection. *)
Definition pending (fd : Z) (s : BaseServer) : list SendMessage :=
  default [] (_send_queue s !! fd).

(** The state once the due jobs have been popped by a tick reading [t], before
    the ready actions run, and the ready list. *)
Definition drained `{JobOrder} (t : Q) (s : BaseServer) : BaseServer :=
  after (drain (S (length (_job_queue s))) t []) s.

Definition ready `{JobOrder} (t : Q) (s : BaseServer) : list nat :=
  match (drain (S (length (_job_queue s))) t [] s).1 with
  | Returns (_, tasks) => tasks
  | Raises _ => []
  end.

(** What ties the heap, the job objects and the record of calls together. *)
Record sched_inv (s : BaseServer) : Prop := {
  inv_queue_nodup : NoDup (_job_queue s);
  inv_queue_fresh : ∀ job, job ∈ _job_queue s →
    ∃ j, jobs s !! job = Some j ∧ dispatched j = false;
  inv_called : ∀ job t, (job, t) ∈ invocations (trace s) →
    ∃ j, jobs s !! job = Some j ∧ dispatched j = true ∧ cancel j = false ∧ (time j <= t)%Q;
  inv_called_nodup : NoDup (invocations (trace s)).*1
}.

(** How the job objects may change: they stay, their time and function are
    fixed, the two markers are never reset, and a dispatched job is never
    marked cancelled afterwards. *)
Definition evolves (s s' : BaseServer) : Prop :=
  ∀ job j, jobs s !! job = Some j →
    ∃ j', jobs s' !! job = Some j' ∧ time j' = time j ∧ func j' = func j
          ∧ (cancel j = true → cancel j' = true)
          ∧ (dispatched j = true → dispatched j' = true ∧ cancel j' = cancel j).

(** What every method but the tick guarantees on top of that: no job function
    is called, nothing leaves the heap, the invariant is kept. *)
Record calm (s s' : BaseServer) : Prop := {
  calm_evolves : evolves s s';
  calm_invocations : invocations (trace s') = invocations (trace s);
  calm_queue : _job_queue s ⊆ _job_queue s';
  calm_inv : sched_inv s → sched_inv s'
}.

(** A relation that holds between the server before and after a method,
    whatever the method's outcome. *)
Definition steps {A} (R : relation BaseServer) (m : py BaseServer A) : Prop :=
  ∀ s, R s (m s).2.

(** Methods that leave the scheduler alone. *)
Definition same_sched (s s' : BaseServer) : Prop :=
  jobs s' = jobs s ∧ _job_queue s' = _job_queue s
  ∧ invocations (trace s') = invocations (trace s).

(** The jobs a tick has popped and not yet called. *)
Definition pending_calls (t : Q) (tasks : list nat) (s : BaseServer) : Prop :=
  NoDup tasks
  ∧ ∀ job, job ∈ tasks →
      (job ∉ (invocations (trace s)).*1)
      ∧ (∃ j, jobs s !! job = Some j ∧ dispatched j = true ∧ cancel j = false
              ∧ (time j <= t)%Q).

Definition mark_dispatched (j : ScheduledJob) : ScheduledJob :=
  Build_ScheduledJob (time j) (func j) (cancel j) true.

(** The timeout of a tick as the specification words it: 1 when the heap is
    empty after dispatching or the next deadline, the earliest fire time in
    the heap, is more than 1 away from [t]; otherwise the non-negative delay
    to that deadline. *)
Definition deadlines (s : BaseServer) : list Q :=
  omap (λ job, time <$> jobs s !! job) (_job_queue s).

Definition claimed_timeout (t : Q) (s' : BaseServer) (dt : Q) : Prop :=
  match deadlines s' with
  | [] => dt = 1%Q
  | d :: ds =>
      let next := foldr Qmin d ds in
      if Qgt_dec (next - t) 1 then dt = 1%Q else (0 <= dt)%Q ∧ (dt == next - t)%Q
  end.

(** Methods that record nothing. *)
Definition same_trace (s s' : BaseServer) : Prop := trace s' = trace s.

(** What user code can do to connections: append to output queues. *)
Definition conn_grows (s s' : BaseServer) : Prop :=
  _clients s' = _clients s ∧ sockets s' = sockets s
  ∧ ∀ fd, pending fd s `prefix_of` pending fd s'.

(** The other connections are left alone: they stay in the active set, their
    sockets stay as they are and nothing is taken from their output. *)
Definition others_kept (fd : Z) (s s' : BaseServer) : Prop :=
  ∀ fd', fd' ≠ fd →
    (fd' ∈ _clients s' ↔ fd' ∈ _clients s)
    ∧ sockets s' !! fd' = sockets s !! fd'
    ∧ pending fd' s `prefix_of` pending fd' s'.

(** What user code cannot do: take a connection from the listening socket or
    bring a connection back to READ-only interest. *)
Definition registers_no_read (s s' : BaseServer) : Prop :=
  _server s' = _server s
  ∧ ∀ fd, interest s' fd = READ → interest s fd = READ.

(** The message at the front after the transport took [cb] bytes of it. *)
Definition stripped (cb : nat) (m : SendMessage) : SendMessage :=
  Build_SendMessage (drop cb (data m)) (callback m).

(** The state of a write event once the transport has answered and the
    consumed prefix is gone. *)
Definition after_write (client : Client) (cb : nat) (m : SendMessage) (s : BaseServer)
    : BaseServer :=
  set_send_queue
    (alter (λ queue, match queue with
                     | top :: rest => Build_SendMessage (drop cb (data m)) (callback top) :: rest
                     | [] => []
                     end) (fileno client) (_send_queue s))
    (set_trace (trace s ++ [SocketSend (fileno client) (data m) (Returns cb)]) s).

Section write_parts.
Context `{JobOrder}.

(** Dequeuing the finished message and what follows it. *)
Definition finish_front (client : Client) : py BaseServer unit :=
  deque_popleft (fileno client);;
  queue ← deque_items (fileno client);
  match queue with
  | [] => _register_read client;; send_queue_delitem (fileno client)
  | _ => mret tt
  end.

(** The call of a completion callback, with its [except] clause. *)
Definition completion (client : Client) (f : callable) : py BaseServer bool :=
  try_except
    (emit (WriteCallback (fileno client));; call f;; mret true)
    Exception
    (logger_exception "Client write callback failure";;
     _clean_up_client client false;;
     mret false).
End write_parts.

(** The bytes still to be sent on a connection, in order. *)
Definition stream (queue : list SendMessage) : bytes :=
  mbind (M := list) data queue.

(** Write-readiness events on one connection, the transport taking [cb] bytes
    at each. *)
Definition write_events `{JobOrder} (client : Client) (sents : list nat) (s : BaseServer)
    : BaseServer :=
  foldl (λ s cb, after (_nonblock_write client (Returns cb)) s) s sents.

(** ** Interpreters and sample runs *)

(** Python 3: [<] is not supported between instances of [ScheduledJob]. *)
Definition python3 : JobOrder := λ _ _, Raises TypeError.

(** Python 2: objects without comparison methods are ordered by address. *)
Definition python2 (address : nat → Z) : JobOrder := λ a b,
  Returns (bool_decide (address a < address b)%Z).

Definition noop : callable := Callable [] None.
Definition failing (e : exn) : callable := Callable [] (Some e).

Definition plain_client (fd : Z) : Client := Build_Client fd noop noop (λ _, noop).

(** A server with nothing connected and nothing scheduled. *)
Definition idle : BaseServer := __init__ plain_client [].

(** Each new job object lies below the ones made before it in memory. *)
Definition descending (job : nat) : Z := 4096 - 64 * Z.of_nat job.

(** ** Further observations *)

(** The messages a piece of user code queues on connection [fd], in order. *)
Definition queued (fd : Z) (calls : list api_call) : list SendMessage :=
  omap (λ c, match c with
             | CallSend client data callback =>
                 if decide (fileno client = fd) then Some (Build_SendMessage data callback)
                 else None
             | _ => None
             end) calls.

(** Every job not yet dispatched is in the heap. *)
Definition all_queued (s : BaseServer) : Prop :=
  ∀ job j, jobs s !! job = Some j → dispatched j = false → job ∈ _job_queue s.

(** Methods that lose no job. *)
Definition keeps_queued (s s' : BaseServer) : Prop := all_queued s → all_queued s'.

(** Traffic on one connection: sends without completion callback and
    write-readiness events in which the transport takes some bytes. *)
Definition plain_traffic (client : Client) (o : op) : Prop :=
  match o with
  | Send c _ None => c = client
  | Write c (Returns _) => c = client
  | _ => False
  end.

(** The bytes handed to [send] in a run, in order. *)
Definition offered (ops : list op) : bytes :=
  mbind (M := list) (λ o, match o with Send _ payload _ => payload | _ => [] end) ops.

(** * Proofs *)

#[local] Arguments Nat.div : simpl never.
#[local] Arguments Nat.mul : simpl never.
#[local] Arguments Nat.sub : simpl never.
#[local] Arguments Nat.add : simpl never.

Ltac py_unfold :=
  unfold mbind, py_bind, mret, py_ret, raise, try_except, try_except_else in *.

(** Reduce reads of fields that were just written. *)
Ltac state_simpl :=
  cbn [_server _clients _ClientClass _send_queue _job_queue jobs sockets interest trace
       set_server set_clients set_send_queue set_job_queue set_jobs set_sockets
       set_interest set_trace fst snd after] in *.

(** ** Composing facts about methods *)

Section steps.
Context (R : relation BaseServer) `{!PreOrder R}.

Lemma steps_ret {A} (a : A) : steps R (mret a).
Proof. intros s. reflexivity. Qed.

Lemma steps_raise {A} e : steps R (raise (A:=A) e).
Proof. intros s. reflexivity. Qed.

Lemma steps_getattr {A} (f : BaseServer → A) : steps R (getattr f).
Proof. intros s. reflexivity. Qed.

Lemma steps_bind {A B} (m : py BaseServer A) (k : A → py BaseServer B) :
  steps R m → (∀ a, steps R (k a)) → steps R (m ≫= k).
Proof.
  intros Hm Hk s. py_unfold. specialize (Hm s).
  destruct (m s) as [[a|e] s1]; simpl in *; [|done].
  etrans; [done|]. apply Hk.
Qed.

Lemma steps_try_except {A} (body : py BaseServer A) catches handler :
  steps R body → steps R handler → steps R (try_except body catches handler).
Proof.
  intros Hb Hh s. py_unfold. specialize (Hb s).
  destruct (body s) as [[a|e] s1]; simpl in *; [done|].
  destruct (catches e); [|done]. etrans; [done|]. apply Hh.
Qed.

Lemma steps_try_except_else {A B} (body : py BaseServer A) catches
    (handler : py BaseServer B) orelse :
  steps R body → steps R handler → (∀ a, steps R (orelse a)) →
  steps R (try_except_else body catches handler orelse).
Proof.
  intros Hb Hh Ho s. py_unfold. specialize (Hb s).
  destruct (body s) as [[a|e] s1]; simpl in *.
  - etrans; [done|]. apply Ho.
  - destruct (catches e); [|done]. etrans; [done|]. apply Hh.
Qed.
End steps.

Lemma steps_weaken {A} (R R' : relation BaseServer) (m : py BaseServer A) :
  (∀ s s', R s s' → R' s s') → steps R m → steps R' m.
Proof. intros HR Hm s. apply HR, Hm. Qed.

#[local] Instance same_sched_preorder : PreOrder same_sched.
Proof.
  split.
  - by intros s.
  - intros s1 s2 s3 (? & ? & ?) (? & ? & ?). repeat split; congruence.
Qed.

Lemma invocations_app tr tr' : invocations (tr ++ tr') = invocations tr ++ invocations tr'.
Proof. apply omap_app. Qed.

Ltac frame_solve :=
  intros ?;
  unfold send_queue_getitem, send_queue_delitem, deque_front, deque_popleft,
    socket_accept, clients_remove, job_get;
  repeat split; simpl; repeat case_match; simpl;
  rewrite ?invocations_app, ?app_nil_r; done.

Lemma emit_frame ev :
  (∀ job t, ev ≠ JobFunc job t) → steps same_sched (emit ev).
Proof.
  intros Hev s. repeat split. simpl. rewrite invocations_app.
  destruct ev; simpl; rewrite ?app_nil_r; try done. by destruct (Hev job t).
Qed.

Lemma _register_write_frame client : steps same_sched (_register_write client).
Proof. frame_solve. Qed.
Lemma _register_read_frame client : steps same_sched (_register_read client).
Proof. frame_solve. Qed.
Lemma send_queue_getitem_frame fd : steps same_sched (send_queue_getitem fd).
Proof. frame_solve. Qed.
Lemma send_queue_delitem_frame fd : steps same_sched (send_queue_delitem fd).
Proof. frame_solve. Qed.
Lemma deque_append_frame fd m : steps same_sched (deque_append fd m).
Proof. frame_solve. Qed.
Lemma deque_front_frame fd : steps same_sched (deque_front fd).
Proof. frame_solve. Qed.
Lemma deque_popleft_frame fd : steps same_sched (deque_popleft fd).
Proof. frame_solve. Qed.
Lemma deque_items_frame fd : steps same_sched (deque_items fd).
Proof. frame_solve. Qed.
Lemma front_set_data_frame fd v : steps same_sched (front_set_data fd v).
Proof. frame_solve. Qed.
Lemma socket_send_frame fd buf sent : steps same_sched (socket_send fd buf sent).
Proof. frame_solve. Qed.
Lemma socket_recv_frame fd received : steps same_sched (socket_recv fd received).
Proof. frame_solve. Qed.
Lemma socket_close_frame fd : steps same_sched (socket_close fd).
Proof. frame_solve. Qed.
Lemma socket_setblocking_frame fd flag : steps same_sched (socket_setblocking fd flag).
Proof. frame_solve. Qed.
Lemma socket_accept_frame : steps same_sched socket_accept.
Proof. frame_solve. Qed.
Lemma logger_exception_frame msg : steps same_sched (logger_exception msg).
Proof. by apply emit_frame. Qed.
Lemma clients_add_frame client : steps same_sched (clients_add client).
Proof. frame_solve. Qed.
Lemma clients_remove_frame client : steps same_sched (clients_remove client).
Proof. frame_solve. Qed.
Lemma job_get_frame job : steps same_sched (job_get job).
Proof. frame_solve. Qed.

(** ** heapq keeps the items *)

Ltac heap_unfold :=
  unfold PyList_GET_SIZE, PyList_GET_ITEM, PyList_SET_ITEM, PyList_Append,
    PyList_DropLast, PyObject_RichCompareBool_LT; py_unfold.

Section heapq_facts.
Context {A : Type} (lt : A → A → outcome bool).
Implicit Types heap : list A.

Lemma siftdown_loop_Permutation fuel startpos pos heap :
  (siftdown_loop lt fuel startpos pos heap).2 ≡ₚ heap.
Proof.
  revert pos heap. induction fuel as [|fuel IH]; intros pos heap; [done|].
  cbn [siftdown_loop]. case_decide; [|done]. heap_unfold.
  destruct (heap !! pos) as [newitem|] eqn:Hpos; simpl; [|done].
  destruct (heap !! ((pos - 1) / 2)) as [parent|] eqn:Hparent; simpl; [|done].
  destruct (lt newitem parent) as [[|]|e]; simpl; [|done|done].
  rewrite IH. by apply Permutation_insert_swap.
Qed.

Lemma siftdown_loop_fuel n startpos pos heap :
  pos ≤ n → siftdown_loop lt n startpos pos heap = siftdown_loop lt pos startpos pos heap.
Proof.
  revert n heap. induction (lt_wf pos) as [pos _ IH]. intros n heap Hn.
  destruct pos as [|pos'].
  { destruct n; [done|]. cbn [siftdown_loop]. case_decide; [lia|done]. }
  destruct n as [|n]; [lia|]. cbn [siftdown_loop].
  case_decide; [|done].
  assert (Hlt : (S pos' - 1) / 2 < S pos').
  { replace (S pos' - 1) with pos' by lia.
    pose proof (Nat.Div0.div_le_upper_bound pos' 2 pos'). lia. }
  heap_unfold.
  destruct (heap !! S pos'); simpl; [|done].
  destruct (heap !! ((S pos' - 1) / 2)); simpl; [|done].
  destruct (lt _ _) as [[|]|]; simpl; [|done|done].
  rewrite (IH _ Hlt n) by lia. by rewrite (IH _ Hlt pos') by lia.
Qed.

Lemma siftdown_Permutation startpos pos heap :
  (siftdown lt startpos pos heap).2 ≡ₚ heap.
Proof.
  unfold siftdown. heap_unfold. simpl. case_decide; [done|].
  apply siftdown_loop_Permutation.
Qed.

Lemma siftup_loop_Permutation fuel endpos pos heap :
  (siftup_loop lt fuel endpos pos heap).2 ≡ₚ heap.
Proof.
  revert pos heap. induction fuel as [|fuel IH]; intros pos heap; [done|].
  cbn [siftup_loop]. case_decide; [|done]. heap_unfold.
  assert (Hswap : ∀ childpos,
    (let (o, s') := match heap !! childpos with
                    | Some x => (Returns x, heap)
                    | None => (Raises IndexError, heap)
                    end in
     match o with
     | Returns a =>
         let (o0, s'0) := match s' !! pos with
                          | Some x => (Returns x, s')
                          | None => (Raises IndexError, s')
                          end in
         match o0 with
         | Returns a0 => siftup_loop lt fuel endpos childpos (<[pos:=a]> (<[childpos:=a0]> s'0))
         | Raises e => (Raises e, s'0)
         end
     | Raises e => (Raises e, s')
     end).2 ≡ₚ heap).
  { intros childpos. destruct (heap !! childpos) eqn:?; simpl; [|done].
    destruct (heap !! pos) eqn:?; simpl; [|done].
    rewrite IH. by apply Permutation_insert_swap. }
  case_decide; simpl; [|apply Hswap].
  destruct (heap !! (2 * pos + 1)) eqn:?; simpl; [|done].
  destruct (heap !! (2 * pos + 1 + 1)) eqn:?; simpl; [|done].
  destruct (lt _ _) as [[|]|]; simpl; [apply Hswap|apply Hswap|done].
Qed.

Lemma siftup_loop_fuel n endpos pos heap :
  endpos - pos ≤ n →
  siftup_loop lt n endpos pos heap = siftup_loop lt (endpos - pos) endpos pos heap.
Proof.
  remember (endpos - pos) as d eqn:Hd.
  revert n pos heap Hd. induction (lt_wf d) as [d _ IH]; intros n pos heap Hd Hn.
  destruct d as [|d].
  { assert (¬ pos < endpos / 2).
    { pose proof (Nat.Div0.div_le_upper_bound endpos 2 endpos). lia. }
    destruct n; [done|]. cbn [siftup_loop]. by case_decide. }
  destruct n as [|n]; [lia|]. cbn [siftup_loop].
  case_decide; [|done]. heap_unfold.
  assert (Hswap : ∀ childpos, pos < childpos →
    (let (o, s') := match heap !! childpos with
                    | Some x => (Returns x, heap)
                    | None => (Raises IndexError, heap)
                    end in
     match o with
     | Returns a =>
         let (o0, s'0) := match s' !! pos with
                          | Some x => (Returns x, s')
                          | None => (Raises IndexError, s')
                          end in
         match o0 with
         | Returns a0 => siftup_loop lt n endpos childpos (<[pos:=a]> (<[childpos:=a0]> s'0))
         | Raises e => (Raises e, s'0)
         end
     | Raises e => (Raises e, s')
     end) =
    (let (o, s') := match heap !! childpos with
                    | Some x => (Returns x, heap)
                    | None => (Raises IndexError, heap)
                    end in
     match o with
     | Returns a =>
         let (o0, s'0) := match s' !! pos with
                          | Some x => (Returns x, s')
                          | None => (Raises IndexError, s')
                          end in
         match o0 with
         | Returns a0 => siftup_loop lt d endpos childpos (<[pos:=a]> (<[childpos:=a0]> s'0))
         | Raises e => (Raises e, s'0)
         end
     | Raises e => (Raises e, s')
     end)).
  { intros childpos Hc. destruct (heap !! childpos) eqn:?; simpl; [|done].
    destruct (heap !! pos) eqn:?; simpl; [|done].
    rewrite (IH (endpos - childpos) ltac:(lia) n) by lia.
    by rewrite (IH (endpos - childpos) ltac:(lia) d) by lia. }
  case_decide; simpl; [|apply Hswap; lia].
  destruct (heap !! (2 * pos + 1)) eqn:?; simpl; [|done].
  destruct (heap !! (2 * pos + 1 + 1)) eqn:?; simpl; [|done].
  destruct (lt _ _) as [[|]|]; simpl; [apply Hswap; lia|apply Hswap; lia|done].
Qed.

Lemma siftup_Permutation pos heap : (siftup lt pos heap).2 ≡ₚ heap.
Proof.
  unfold siftup. heap_unfold. simpl. case_decide; [done|].
  destruct (siftup_loop _ _ _ _ _) as [[leaf|e] heap1] eqn:E; simpl.
  - pose proof (siftdown_Permutation pos leaf heap1) as Hd.
    unfold siftdown in Hd. revert Hd. heap_unfold. simpl. intros ->.
    change heap1 with (Returns leaf, heap1).2. rewrite <-E. apply siftup_loop_Permutation.
  - change heap1 with (Raises (A:=nat) e, heap1).2. rewrite <-E. apply siftup_loop_Permutation.
Qed.

(** [heappush] adds the item and loses nothing, whether or not a comparison
    raises. *)
Lemma heappush_Permutation item heap :
  (heappush lt item heap).2 ≡ₚ item :: heap.
Proof.
  unfold heappush. heap_unfold. simpl.
  pose proof (siftdown_Permutation 0 (length (heap ++ [item]) - 1) (heap ++ [item])) as Hd.
  unfold siftdown in Hd. revert Hd. heap_unfold. simpl. intros ->.
  by rewrite Permutation_app_comm.
Qed.

(** [heappop] takes the entry at index 0 out of the list; it is the value
    returned unless a comparison raises while the rest is re-arranged. *)
Lemma heappop_snoc front lastelt :
  heappop lt (front ++ [lastelt]) =
  match front with
  | [] => (Returns lastelt, [])
  | returnitem :: rest =>
      match siftup lt 0 (lastelt :: rest) with
      | (Returns _, heap) => (Returns returnitem, heap)
      | (Raises e, heap) => (Raises e, heap)
      end
  end.
Proof.
  assert (Hlen : length (front ++ [lastelt]) - 1 = length front).
  { rewrite length_app. simpl. lia. }
  unfold heappop. heap_unfold. cbv beta iota. rewrite !Hlen.
  destruct (decide (length (front ++ [lastelt]) = 0)) as [Hz|_].
  { rewrite length_app in Hz. simpl in Hz. lia. }
  rewrite list_lookup_middle by done. cbv beta iota. rewrite !Hlen, take_app_length.
  destruct front as [|returnitem rest]; [done|].
  destruct (decide (length (returnitem :: rest) = 0)); [done|]. by simpl.
Qed.

Lemma heappop_cons top rest :
  let r := heappop lt (top :: rest) in
  r.2 ≡ₚ rest ∧ (r.1 = Returns top ∨ ∃ e, r.1 = Raises e).
Proof.
  destruct rest as [|x rest _] using rev_ind; [by auto|].
  rewrite app_comm_cons, heappop_snoc.
  pose proof (siftup_Permutation 0 (x :: rest)) as Hs.
  destruct (siftup lt 0 (x :: rest)) as [[[]|e] heap1]; simpl in *;
    (split; [by rewrite Hs, Permutation_app_comm|eauto]).
Qed.

Lemma heappop_nil : heappop lt [] = (Raises IndexError, []).
Proof. reflexivity. Qed.
End heapq_facts.

(** ** heapq returns when the comparison does *)

Section heapq_returns.
Context {A : Type} (lt : A → A → outcome bool).
Context (lt_returns : ∀ a b, ∃ c, lt a b = Returns c).
Implicit Types heap : list A.

Lemma siftdown_loop_returns fuel startpos pos heap :
  pos < length heap →
  ∃ heap', siftdown_loop lt fuel startpos pos heap = (Returns tt, heap').
Proof.
  revert pos heap. induction fuel as [|fuel IH]; intros pos heap Hpos; [by eexists|].
  cbn [siftdown_loop]. case_decide; [|by eexists]. heap_unfold.
  assert (Hparent : (pos - 1) / 2 < length heap).
  { pose proof (Nat.Div0.div_le_upper_bound (pos - 1) 2 (pos - 1)). lia. }
  destruct (lookup_lt_is_Some_2 heap pos Hpos) as [newitem ->].
  destruct (lookup_lt_is_Some_2 heap _ Hparent) as [parent ->]. cbv beta iota.
  destruct (lt_returns newitem parent) as [[|] ->]; cbv beta iota; [|by eexists].
  apply IH. by rewrite !length_insert.
Qed.

Lemma siftdown_returns startpos pos heap :
  pos < length heap → ∃ heap', siftdown lt startpos pos heap = (Returns tt, heap').
Proof.
  intros Hpos. unfold siftdown. heap_unfold. cbv beta iota.
  rewrite decide_False by lia. by apply siftdown_loop_returns.
Qed.

Lemma siftup_loop_returns fuel pos heap :
  pos < length heap →
  ∃ leaf heap', siftup_loop lt fuel (length heap) pos heap = (Returns leaf, heap')
                ∧ length heap' = length heap ∧ leaf < length heap.
Proof.
  revert pos heap. induction fuel as [|fuel IH]; intros pos heap Hpos; [by eauto|].
  cbn [siftup_loop]. case_decide as Hlim; [|by eauto]. heap_unfold.
  assert (Hchild : 2 * pos + 1 < length heap).
  { pose proof (Nat.Div0.mul_div_le (length heap) 2). lia. }
  assert (Hswap : ∀ childpos, childpos < length heap →
    ∃ leaf heap',
      (let (o, s') := match heap !! childpos with
                      | Some x => (Returns x, heap)
                      | None => (Raises IndexError, heap)
                      end in
       match o with
       | Returns a =>
           let (o0, s'0) := match s' !! pos with
                            | Some x => (Returns x, s')
                            | None => (Raises IndexError, s')
                            end in
           match o0 with
           | Returns a0 =>
               siftup_loop lt fuel (length heap) childpos (<[pos:=a]> (<[childpos:=a0]> s'0))
           | Raises e => (Raises e, s'0)
           end
       | Raises e => (Raises e, s')
       end) = (Returns leaf, heap')
      ∧ length heap' = length heap ∧ leaf < length heap).
  { intros childpos Hc.
    destruct (lookup_lt_is_Some_2 heap childpos Hc) as [a ->].
    destruct (lookup_lt_is_Some_2 heap pos Hpos) as [a0 ->]. cbv beta iota.
    destruct (IH childpos (<[pos:=a]> (<[childpos:=a0]> heap))) as (leaf & heap' & Heq & Hlen & Hleaf).
    { by rewrite !length_insert. }
    rewrite !length_insert in Heq, Hlen, Hleaf. eauto. }
  case_decide as Hright; cbv beta iota; [|by apply Hswap].
  destruct (lookup_lt_is_Some_2 heap _ Hchild) as [a ->].
  destruct (lookup_lt_is_Some_2 heap _ Hright) as [b ->]. cbv beta iota.
  destruct (lt_returns a b) as [[|] ->]; cbv beta iota; by apply Hswap.
Qed.

Lemma siftup_returns pos heap :
  pos < length heap → ∃ heap', siftup lt pos heap = (Returns tt, heap').
Proof.
  intros Hpos. unfold siftup. heap_unfold. cbv beta iota.
  rewrite decide_False by lia.
  destruct (siftup_loop_returns (length heap) pos heap Hpos) as (leaf & heap1 & -> & Hlen & Hleaf).
  cbv beta iota. apply siftdown_returns. by rewrite Hlen.
Qed.

Lemma heappush_returns item heap : ∃ heap', heappush lt item heap = (Returns tt, heap').
Proof.
  unfold heappush. heap_unfold. cbv beta iota.
  apply siftdown_returns. rewrite length_app. simpl. lia.
Qed.

Lemma heappop_returns top rest : ∃ heap', heappop lt (top :: rest) = (Returns top, heap').
Proof.
  destruct rest as [|x rest _] using rev_ind; [by eexists|].
  rewrite app_comm_cons, heappop_snoc.
  destruct (siftup_returns 0 (x :: rest)) as [heap' ->]; [simpl; lia|]. by eexists.
Qed.
End heapq_returns.

(** ** The scheduler's relations *)

#[local] Instance evolves_preorder : PreOrder evolves.
Proof.
  split.
  - intros s job j Hj. exists j. by repeat split.
  - intros s1 s2 s3 H12 H23 job j Hj.
    destruct (H12 _ _ Hj) as (j2 & Hj2 & Ht2 & Hf2 & Hc2 & Hd2).
    destruct (H23 _ _ Hj2) as (j3 & Hj3 & Ht3 & Hf3 & Hc3 & Hd3).
    exists j3. split; [done|]. split; [congruence|]. split; [congruence|].
    split; [tauto|]. intros Hd. destruct (Hd2 Hd) as [Hd2' Hc2'].
    destruct (Hd3 Hd2'). split; congruence.
Qed.

Lemma evolves_same_jobs s s' : jobs s' = jobs s → evolves s s'.
Proof. intros Heq job j Hj. exists j. rewrite Heq. by repeat split. Qed.

Lemma sched_inv_same_sched s s' : same_sched s s' → sched_inv s → sched_inv s'.
Proof.
  intros (Hj & Hq & Hi) [].
  split; rewrite ?Hj, ?Hq, ?Hi; done.
Qed.

#[local] Instance calm_preorder : PreOrder calm.
Proof.
  split.
  - intros s. by split.
  - intros s1 s2 s3 [] []. split.
    + by etrans.
    + congruence.
    + by etrans.
    + auto.
Qed.

Lemma calm_same_sched s s' : same_sched s s' → calm s s'.
Proof.
  intros Hs. pose proof Hs as (Hj & Hq & Hi). split.
  - by apply evolves_same_jobs.
  - done.
  - by rewrite Hq.
  - by apply sched_inv_same_sched.
Qed.

Lemma steps_frame {A} (m : py BaseServer A) : steps same_sched m → steps calm m.
Proof. apply steps_weaken, calm_same_sched. Qed.

Section scheduler_facts.
Context `{JobOrder}.

(** What one call of [schedule] does to the server. *)
Lemma schedule_after now delay func s :
  let s' := after (schedule now delay func) s in
  jobs s' = jobs s ++ [Build_ScheduledJob (now + delay) func false false]
  ∧ _job_queue s' ≡ₚ length (jobs s) :: _job_queue s
  ∧ trace s' = trace s.
Proof.
  unfold after, schedule, new_ScheduledJob, on_job_queue. py_unfold. cbv beta iota.
  pose proof (heappush_Permutation job_lt (length (jobs s)) (_job_queue s)) as Hp.
  cbn [_job_queue set_jobs].
  destruct (heappush job_lt (length (jobs s)) (_job_queue s)) as [[[]|e] q]; done.
Qed.

Lemma schedule_calm now delay func : steps calm (schedule now delay func).
Proof.
  intros s. destruct (schedule_after now delay func s) as (Hj & Hq & Ht).
  unfold after in *. set (s' := (schedule now delay func s).2) in *. split.
  - intros job j Hj0. exists j. rewrite Hj. split; [by apply lookup_app_l_Some|done].
  - by rewrite Ht.
  - intros job Hjob. rewrite Hq. by right.
  - intros [Hnd Hfresh Hcalled Hcnd]. split.
    + rewrite Hq. constructor; [|done]. intros Hin.
      destruct (Hfresh _ Hin) as (j & Hl & _). apply lookup_lt_Some in Hl. lia.
    + intros job. rewrite Hq, Hj. intros [->|Hin]%elem_of_cons.
      * eexists. by rewrite list_lookup_middle.
      * destruct (Hfresh _ Hin) as (j & Hl & ?). exists j. split; [by apply lookup_app_l_Some|done].
    + rewrite Ht, Hj. intros job t Hin.
      destruct (Hcalled _ _ Hin) as (j & Hl & ?). exists j. split; [by apply lookup_app_l_Some|done].
    + by rewrite Ht.
Qed.

(** What one call of [unschedule] does. *)
Lemma unschedule_eq job s :
  unschedule job s =
  match jobs s !! job with
  | None => (Raises AttributeError, s)
  | Some j =>
      if dispatched j || cancel j then (Returns false, s)
      else (Returns true,
            set_jobs (<[job := Build_ScheduledJob (time j) (func j) true (dispatched j)]> (jobs s)) s)
  end.
Proof.
  unfold unschedule, job_get, job_set_cancel, modify. py_unfold.
  destruct (jobs s !! job) as [j|] eqn:Hj; [|done].
  destruct (dispatched j || cancel j); [done|]. cbv beta iota.
  do 2 f_equal. apply list_eq. intros i. rewrite list_lookup_alter, list_lookup_insert.
  destruct (decide (i = job)) as [->|].
  - rewrite Hj. simpl. rewrite decide_True by done.
    by rewrite decide_True by eauto using lookup_lt_Some.
  - rewrite decide_False by done. by rewrite decide_False by (intros [? ?]; congruence).
Qed.

Lemma unschedule_calm job : steps calm (unschedule job).
Proof.
  intros s. rewrite unschedule_eq.
  destruct (jobs s !! job) as [j|] eqn:Hj; [|done].
  destruct (dispatched j) eqn:Hd; [done|]. destruct (cancel j) eqn:Hc; [done|].
  simpl. split; simpl.
  - intros job' j' Hj'. simpl. destruct (decide (job' = job)) as [->|].
    + eexists. rewrite list_lookup_insert_eq by eauto using lookup_lt_Some.
      split; [done|]. simplify_eq. simpl. split; [done|]. split; [done|].
      split; [done|]. congruence.
    + exists j'. by rewrite list_lookup_insert_ne.
  - done.
  - done.
  - intros [Hnd Hfresh Hcalled Hcnd]. split; simpl; [done| | |done].
    + intros job' Hin. destruct (Hfresh _ Hin) as (j' & Hl & ?).
      destruct (decide (job' = job)) as [->|].
      * eexists. rewrite list_lookup_insert_eq by eauto using lookup_lt_Some. done.
      * exists j'. by rewrite list_lookup_insert_ne.
    + intros job' t Hin. destruct (Hcalled _ _ Hin) as (j' & Hl & ? & ?).
      destruct (decide (job' = job)) as [->|]; [congruence|].
      exists j'. by rewrite list_lookup_insert_ne.
Qed.
End scheduler_facts.

Create HintDb frame.
#[local] Hint Resolve _register_write_frame _register_read_frame send_queue_getitem_frame
  send_queue_delitem_frame deque_append_frame deque_front_frame deque_popleft_frame
  deque_items_frame front_set_data_frame socket_send_frame socket_recv_frame
  socket_close_frame socket_setblocking_frame socket_accept_frame logger_exception_frame
  clients_add_frame clients_remove_frame job_get_frame : frame.

(** Break a method into its statements. *)
Ltac steps_split :=
  repeat match goal with
    | |- steps ?R (mret _) => apply (steps_ret R)
    | |- steps ?R (raise _) => apply (steps_raise R)
    | |- steps ?R (getattr _) => apply (steps_getattr R)
    | |- steps ?R (_ ≫= _) => apply (steps_bind R); [|intros ?]
    | |- steps ?R (try_except _ _ _) => apply (steps_try_except R)
    | |- steps ?R (try_except_else _ _ _ _) => apply (steps_try_except_else R); [| |intros ?]
    | |- steps _ (match ?x with _ => _ end) => destruct x
    | |- steps _ (let _ := _ in _) => cbv zeta
    end.

Section calm_methods.
Context `{JobOrder}.

Ltac calm_solve :=
  steps_split;
  try first
    [ assumption
    | apply steps_frame; solve [auto with frame | apply emit_frame; done] ].

Lemma send_calm client data callback : steps calm (send client data callback).
Proof. unfold send. calm_solve. Qed.

Lemma attempt_calm m : steps calm m → steps calm (attempt m).
Proof. intros Hm s. apply Hm. Qed.

Lemma perform_calm c : steps calm (perform c).
Proof.
  destruct c; simpl; calm_solve;
    auto using schedule_calm, unschedule_calm, send_calm.
Qed.

Lemma call_calm f : steps calm (call f).
Proof.
  destruct f as [calls raised]. simpl.
  induction calls as [|c calls IH]; simpl.
  - destruct raised; simpl; calm_solve.
  - calm_solve. apply attempt_calm, perform_calm.
Qed.

Lemma _clean_up_client_calm client finalize : steps calm (_clean_up_client client finalize).
Proof. unfold _clean_up_client. calm_solve. apply call_calm. Qed.

Lemma _accept_calm : steps calm _accept.
Proof. unfold _accept. calm_solve. apply call_calm. Qed.

Lemma _nonblock_read_calm client received : steps calm (_nonblock_read client received).
Proof.
  unfold _nonblock_read. calm_solve; auto using _clean_up_client_calm, call_calm.
Qed.

Lemma _nonblock_write_calm client sent : steps calm (_nonblock_write client sent).
Proof.
  unfold _nonblock_write. calm_solve; auto using _clean_up_client_calm, call_calm.
Qed.
End calm_methods.

(** ** The tick *)

Lemma Qgt_dec_true a b : Qgt_dec a b = true ↔ (b < a)%Q.
Proof.
  unfold Qgt_dec. destruct (Qlt_le_dec b a) as [Hlt|Hle]; split; try done.
  intros Hlt. by apply Qle_not_lt in Hle.
Qed.

Lemma Qgt_dec_false a b : Qgt_dec a b = false ↔ (a <= b)%Q.
Proof.
  unfold Qgt_dec. destruct (Qlt_le_dec b a) as [Hlt|Hle]; split; try done.
  intros Hle. by apply Qle_not_lt in Hle.
Qed.

Section tick_facts.
Context `{JobOrder}.

(** One round of the loop. *)
Lemma drain_S fuel t tasks s :
  drain (S fuel) t tasks s =
  match _job_queue s with
  | [] => (Returns (1%Q, tasks), s)
  | top :: _ =>
      match jobs s !! top with
      | None => (Raises AttributeError, s)
      | Some j =>
          if Qgt_dec (time j - t) 0 then (Returns ((time j - t)%Q, tasks), s)
          else
            match heappop job_lt (_job_queue s) with
            | (Raises e, queue) => (Raises e, set_job_queue queue s)
            | (Returns task, queue) =>
                let s1 := set_jobs (alter mark_dispatched task (jobs s))
                            (set_job_queue queue s) in
                match jobs s1 !! task with
                | None => (Raises AttributeError, s1)
                | Some j1 =>
                    drain fuel t (if negb (cancel j1) then tasks ++ [task] else tasks) s1
                end
            end
      end
  end.
Proof.
  cbn [drain]. unfold getattr, job_get, on_job_queue, job_set_dispatched, modify.
  py_unfold. cbv beta iota.
  destruct (_job_queue s) as [|top rest] eqn:Hq.
  { by change (Qgt_dec 1 0) with true. }
  destruct (jobs s !! top) as [j|]; [|done]. cbv beta iota.
  destruct (Qgt_dec (time j - t) 0); [done|].
  rewrite Hq.
  destruct (heappop job_lt (top :: rest)) as [[task|e] queue]; [|done].
  cbv beta iota. state_simpl. fold mark_dispatched.
  by destruct (alter mark_dispatched task (jobs s) !! task).
Qed.

Lemma drain_0 t tasks s : drain 0 t tasks s = (Returns (1%Q, tasks), s).
Proof. done. Qed.

Lemma heappop_length (queue : list nat) :
  queue ≠ [] → length (heappop job_lt queue).2 < length queue.
Proof.
  destruct queue as [|top rest]; [done|]. intros _.
  destruct (heappop_cons job_lt top rest) as [-> _]. simpl. lia.
Qed.

(** Fuel beyond the length of the heap changes nothing. *)
Lemma drain_fuel n m t tasks s :
  length (_job_queue s) < n → length (_job_queue s) < m →
  drain n t tasks s = drain m t tasks s.
Proof.
  revert m tasks s. induction n as [|n IH]; intros m tasks s Hn Hm; [lia|].
  destruct m as [|m]; [lia|]. rewrite !drain_S.
  destruct (_job_queue s) as [|top rest] eqn:Hq; [done|].
  destruct (jobs s !! top) as [j|]; [|done].
  destruct (Qgt_dec (time j - t) 0); [done|].
  pose proof (heappop_length (top :: rest) ltac:(done)) as Hlen.
  destruct (heappop job_lt (top :: rest)) as [[task|e] queue]; [|done].
  cbv zeta. destruct (_ !! task) as [j1|]; [|done].
  simpl in *. apply IH; simpl; lia.
Qed.

(** Where the loop stops. *)
Lemma drain_exit fuel t tasks s dt tasks' s1 :
  length (_job_queue s) < fuel →
  drain fuel t tasks s = (Returns (dt, tasks'), s1) →
  (0 < dt)%Q
  ∧ match _job_queue s1 with
    | [] => dt = 1%Q
    | top :: _ => ∃ j, jobs s1 !! top = Some j ∧ dt = (time j - t)%Q
    end.
Proof.
  revert tasks s. induction fuel as [|fuel IH]; intros tasks s Hfuel; [lia|].
  rewrite drain_S.
  destruct (_job_queue s) as [|top rest] eqn:Hq.
  { intros [= <- <- <-]. by rewrite Hq. }
  destruct (jobs s !! top) as [j|] eqn:Hj; [|done].
  destruct (Qgt_dec (time j - t) 0) eqn:Hdt.
  { intros [= <- <- <-]. rewrite Hq. apply Qgt_dec_true in Hdt. eauto. }
  pose proof (heappop_length (top :: rest) ltac:(done)) as Hlen.
  destruct (heappop job_lt (top :: rest)) as [[task|e] queue]; [|done].
  cbv zeta. destruct (_ !! task) as [j1|]; [|done].
  apply IH. simpl in *. lia.
Qed.
End tick_facts.

Section tick_invariant.
Context `{JobOrder}.

Lemma run_tasks_cons t task tasks s :
  run_tasks t (task :: tasks) s =
  match jobs s !! task with
  | None => (Raises AttributeError, s)
  | Some j =>
      match call (func j) (set_trace (trace s ++ [JobFunc task t]) s) with
      | (Returns _, s2) => run_tasks t tasks s2
      | (Raises e, s2) => (Raises e, s2)
      end
  end.
Proof.
  cbn [run_tasks]. unfold job_get, emit, modify. py_unfold.
  destruct (jobs s !! task); [|done]. cbv beta iota.
  by destruct (call _ _) as [[[]|e] s2].
Qed.

Lemma _dispatch_event_eq t s :
  _dispatch_event t s =
  match drain (S (length (_job_queue s))) t [] s with
  | (Raises e, s1) => (Raises e, s1)
  | (Returns (dt, tasks), s1) =>
      match run_tasks t tasks s1 with
      | (Raises e, s2) => (Raises e, s2)
      | (Returns _, s2) =>
          (Returns (if bool_decide (_job_queue s2 = []) || Qgt_dec dt 1 then 1%Q else dt), s2)
      end
  end.
Proof.
  unfold _dispatch_event, getattr. py_unfold. cbv beta iota.
  destruct (drain _ _ _ _) as [[[dt tasks]|e] s1]; [|done].
  by destruct (run_tasks _ _ _) as [[[]|e] s2].
Qed.

Lemma mark_dispatched_evolves task queue s :
  evolves s (set_jobs (alter mark_dispatched task (jobs s)) (set_job_queue queue s)).
Proof.
  intros job j Hj. state_simpl. rewrite list_lookup_alter.
  case_decide as Hdec; [|by exists j]. subst job. rewrite Hj. simpl.
  eexists. split; [done|]. by repeat split.
Qed.

Lemma drain_evolves fuel t tasks : steps evolves (drain fuel t tasks).
Proof.
  revert tasks. induction fuel as [|fuel IH]; intros tasks s; [simpl; reflexivity|].
  rewrite drain_S.
  destruct (_job_queue s) as [|top rest]; [simpl; reflexivity|].
  destruct (jobs s !! top) as [j|]; [|simpl; reflexivity].
  destruct (Qgt_dec (time j - t) 0); [simpl; reflexivity|].
  destruct (heappop job_lt (top :: rest)) as [[task|e] queue];
    [|by apply evolves_same_jobs].
  cbv zeta. destruct (_ !! task); [|apply mark_dispatched_evolves].
  etrans; [|apply IH]. apply mark_dispatched_evolves.
Qed.

Lemma calm_evolves' {A} (m : py BaseServer A) : steps calm m → steps evolves m.
Proof. apply steps_weaken. by intros s s' []. Qed.

Lemma run_tasks_evolves t tasks : steps evolves (run_tasks t tasks).
Proof.
  induction tasks as [|task tasks IH]; intros s; [simpl; reflexivity|].
  rewrite run_tasks_cons. destruct (jobs s !! task) as [j|]; [|simpl; reflexivity].
  pose proof (calm_evolves' _ (call_calm (func j))
                (set_trace (trace s ++ [JobFunc task t]) s)) as Hc.
  destruct (call _ _) as [[[]|e] s2]; simpl in *.
  - etrans; [|apply IH]. etrans; [|exact Hc]. by apply evolves_same_jobs.
  - etrans; [|exact Hc]. by apply evolves_same_jobs.
Qed.

Lemma _dispatch_event_evolves t : steps evolves (_dispatch_event t).
Proof.
  intros s. rewrite _dispatch_event_eq.
  pose proof (drain_evolves (S (length (_job_queue s))) t [] s) as Hd.
  destruct (drain _ _ _ _) as [[[dt tasks]|e] s1]; [|done].
  pose proof (run_tasks_evolves t tasks s1) as Hr.
  destruct (run_tasks _ _ _) as [[[]|e] s2]; simpl in *; by etrans.
Qed.

Lemma pending_calls_calm t tasks s s' :
  calm s s' → pending_calls t tasks s → pending_calls t tasks s'.
Proof.
  intros [Hev Hinv _ _] [Hnd Hjobs]. split; [done|].
  intros job Hin. destruct (Hjobs _ Hin) as (Hnot & j & Hj & Hd & Hc & Ht).
  rewrite Hinv. split; [done|].
  destruct (Hev _ _ Hj) as (j' & Hj' & Ht' & _ & _ & Hd').
  destruct (Hd' Hd) as [? ?]. exists j'. repeat split; congruence.
Qed.

Lemma drain_inv fuel t tasks s :
  length (_job_queue s) < fuel → sched_inv s → pending_calls t tasks s →
  let r := drain fuel t tasks s in
  sched_inv r.2
  ∧ invocations (trace r.2) = invocations (trace s)
  ∧ ∀ dt tasks', r.1 = Returns (dt, tasks') → pending_calls t tasks' r.2.
Proof.
  revert tasks s. induction fuel as [|fuel IH]; intros tasks s Hfuel Hinv Hpend; [lia|].
  cbv zeta. rewrite drain_S.
  destruct (_job_queue s) as [|top rest] eqn:Hq.
  { simpl. split_and!; [done..|]. by intros ?? [= <- <-]. }
  destruct (jobs s !! top) as [j|] eqn:Hj; [|by simpl].
  destruct (Qgt_dec (time j - t) 0) eqn:Hdt.
  { simpl. split_and!; [done..|]. by intros ?? [= <- <-]. }
  destruct Hinv as [Hnd Hfresh Hcalled Hcnd]. rewrite Hq in Hnd, Hfresh.
  apply NoDup_cons in Hnd as [Htop Hnd].
  destruct (Hfresh top ltac:(by left)) as (j0 & Hj0 & Hundisp).
  rewrite Hj in Hj0. injection Hj0 as <-.
  destruct (heappop_cons job_lt top rest) as [Hperm Hout]. cbv zeta in *.
  destruct (heappop job_lt (top :: rest)) as [[task|e] queue]; simpl in *; last first.
  { split_and!; [|done..]. split; simpl; try done.
    - by rewrite Hperm.
    - intros job Hin. apply Hfresh. right. by rewrite <-Hperm. }
  destruct Hout as [[= ->]|[e [=]]].
  assert (Hlook : alter mark_dispatched top (jobs s) !! top = Some (mark_dispatched j)).
  { by rewrite list_lookup_alter_eq, Hj. }
  rewrite Hlook. simpl.
  assert (Huncalled : top ∉ (invocations (trace s)).*1).
  { intros ([job' t'] & -> & Hin)%list_elem_of_fmap.
    destruct (Hcalled _ _ Hin) as (j' & Hj' & ? & _). simpl in *. congruence. }
  apply (IH _ (set_jobs (alter mark_dispatched top (jobs s)) (set_job_queue queue s)));
    simpl.
  - rewrite Hperm. lia.
  - split; simpl.
    + by rewrite Hperm.
    + intros job Hin. rewrite Hperm in Hin.
      destruct (Hfresh job ltac:(by right)) as (j' & Hj' & ?).
      exists j'. rewrite list_lookup_alter_ne; [done|]. by intros ->.
    + intros job t' Hin. destruct (Hcalled _ _ Hin) as (j' & Hj' & ? & ?).
      exists j'. rewrite list_lookup_alter_ne; [done|]. intros ->. congruence.
    + done.
  - destruct Hpend as [Hpnd Hpjobs].
    assert (Hold : ∀ job, job ∈ tasks →
      (job ∉ (invocations (trace s)).*1)
      ∧ (∃ j, alter mark_dispatched top (jobs s) !! job = Some j
             ∧ dispatched j = true ∧ cancel j = false ∧ (time j <= t)%Q)).
    { intros job Hin. destruct (Hpjobs _ Hin) as (? & j' & Hj' & ? & ?).
      split; [done|]. exists j'. rewrite list_lookup_alter_ne; [done|].
      intros ->. congruence. }
    destruct (cancel j) eqn:Hc; simpl; [by split|].
    split.
    + apply NoDup_app. split; [done|]. split; [|apply NoDup_singleton].
      intros job Hin ->%list_elem_of_singleton.
      destruct (Hpjobs _ Hin) as (_ & j' & Hj' & ? & _). congruence.
    + intros job [Hin| ->%list_elem_of_singleton]%elem_of_app; [by apply Hold|].
      split; [done|]. exists (mark_dispatched j).
      split_and!; try done. simpl.
      apply Qgt_dec_false in Hdt. lra.
Qed.

Lemma run_tasks_inv t tasks s :
  sched_inv s → pending_calls t tasks s → sched_inv (run_tasks t tasks s).2.
Proof.
  revert s. induction tasks as [|task tasks IH]; intros s Hinv Hpend; [done|].
  rewrite run_tasks_cons.
  destruct Hpend as [[Hnew Hnd]%NoDup_cons Hjobs].
  destruct (Hjobs task ltac:(by left)) as (Huncalled & j & Hj & Hd & Hc & Ht).
  rewrite Hj.
  set (s1 := set_trace (trace s ++ [JobFunc task t]) s).
  assert (Hinv1 : sched_inv s1).
  { destruct Hinv as [Hqnd Hfresh Hcalled Hcnd].
    split; subst s1; simpl; rewrite ?invocations_app; simpl; try done.
    - intros job t' [Hin|[= -> ->]%list_elem_of_singleton]%elem_of_app; eauto.
    - rewrite fmap_app. apply NoDup_app. split; [done|]. split; [|apply NoDup_singleton].
      by intros job Hin ->%list_elem_of_singleton. }
  assert (Hpend1 : pending_calls t tasks s1).
  { split; [done|]. intros job Hin.
    destruct (Hjobs job ltac:(by right)) as (? & Hjob).
    split; [|done]. subst s1. simpl. rewrite invocations_app, fmap_app. simpl.
    intros [?| ->%list_elem_of_singleton]%elem_of_app; done. }
  pose proof (call_calm (func j) s1) as Hcalm.
  destruct (call (func j) s1) as [[[]|e] s2]; simpl in *.
  - apply IH; [by apply Hcalm|by eapply pending_calls_calm].
  - by apply Hcalm.
Qed.

Lemma _dispatch_event_inv t s : sched_inv s → sched_inv (_dispatch_event t s).2.
Proof.
  intros Hinv. rewrite _dispatch_event_eq.
  assert (Hnil : pending_calls t [] s).
  { split; [constructor|]. by intros job ?%elem_of_nil. }
  destruct (drain_inv (S (length (_job_queue s))) t [] s ltac:(lia) Hinv Hnil)
    as (Hinv1 & _ & Hpend).
  destruct (drain _ _ _ _) as [[[dt tasks]|e] s1]; [|done]. simpl in *.
  pose proof (run_tasks_inv t tasks s1 Hinv1 (Hpend _ _ eq_refl)) as Hinv2.
  by destruct (run_tasks _ _ _) as [[[]|e] s2].
Qed.
End tick_invariant.

(** ** Runs of the server *)

Section runs.
Context `{JobOrder}.

Lemma step_evolves o s : evolves s (step o s).
Proof.
  destruct o; simpl; unfold after;
    first [ apply _dispatch_event_evolves | apply calm_evolves' ];
    auto using schedule_calm, unschedule_calm, send_calm, _accept_calm,
      _nonblock_read_calm, _nonblock_write_calm, _clean_up_client_calm.
Qed.

Lemma steps_calm_inv {A} (m : py BaseServer A) s :
  steps calm m → sched_inv s → sched_inv (m s).2.
Proof. intros Hm. apply calm_inv, Hm. Qed.

Lemma step_inv o s : sched_inv s → sched_inv (step o s).
Proof.
  destruct o; simpl; unfold after;
    first [ apply _dispatch_event_inv | apply steps_calm_inv ];
    auto using schedule_calm, unschedule_calm, send_calm, _accept_calm,
      _nonblock_read_calm, _nonblock_write_calm, _clean_up_client_calm.
Qed.

Lemma run_app ops ops' s : run (ops ++ ops') s = run ops' (run ops s).
Proof. apply foldl_app. Qed.

Lemma run_evolves ops s : evolves s (run ops s).
Proof.
  revert s. induction ops as [|o ops IH]; intros s; simpl; [reflexivity|].
  etrans; [apply (step_evolves o)|apply IH].
Qed.

Lemma run_inv ops s : sched_inv s → sched_inv (run ops s).
Proof.
  revert s. induction ops as [|o ops IH]; intros s Hs; simpl; [done|].
  by apply IH, step_inv.
Qed.

Lemma init_inv factory waiting : sched_inv (__init__ factory waiting).
Proof.
  split; simpl.
  - constructor.
  - by intros job ?%elem_of_nil.
  - by intros job t ?%elem_of_nil.
  - constructor.
Qed.
End runs.

Lemma filter_fst_absent (l : list (nat * Q)) (job : nat) :
  job ∉ l.*1 → filter (λ c, c.1 = job) l = [].
Proof.
  induction l as [|[job' t] l IH]; simpl; [done|].
  intros [Hne Hnot]%not_elem_of_cons. rewrite filter_cons. simpl.
  rewrite decide_False by done. by apply IH.
Qed.

Lemma count_NoDup_fst (l : list (nat * Q)) (job : nat) :
  NoDup l.*1 → length (filter (λ c, c.1 = job) l) ≤ 1.
Proof.
  induction l as [|[job' t] l IH]; simpl; [lia|].
  intros [Hnew Hnd]%NoDup_cons. rewrite filter_cons. simpl.
  case_decide as Heq; [|by apply IH]. subst job'. simpl.
  rewrite filter_fst_absent by done. simpl. lia.
Qed.

(** ** What user code leaves behind *)

#[local] Instance same_trace_preorder : PreOrder same_trace.
Proof. split; [done|]. intros s1 s2 s3. unfold same_trace. congruence. Qed.

Section call_facts.
Context `{JobOrder}.

Lemma call_result calls raised s :
  (call (Callable calls raised) s).1
  = match raised with None => Returns tt | Some e => Raises e end.
Proof.
  revert s. induction calls as [|c calls IH]; intros s; simpl.
  - by destruct raised.
  - unfold attempt at 1. py_unfold. apply IH.
Qed.

Lemma perform_same_trace c : steps same_trace (perform c).
Proof.
  intros s. unfold same_trace.
  destruct c as [now delay func|job|client data callback]; simpl.
  - py_unfold. destruct (schedule_after now delay func s) as (_ & _ & Ht).
    unfold after in Ht. by destruct (schedule now delay func s) as [[?|?] ?].
  - py_unfold. rewrite unschedule_eq. repeat case_match; simplify_eq; done.
  - unfold send, send_queue_getitem, deque_append, _register_write, modify. py_unfold.
    repeat case_match; simplify_eq; done.
Qed.

Lemma call_same_trace f : steps same_trace (call f).
Proof.
  destruct f as [calls raised]. simpl.
  induction calls as [|c calls IH]; simpl.
  - by destruct raised.
  - apply (steps_bind same_trace); [|done]. intros s. apply perform_same_trace.
Qed.
End call_facts.

(** ** The scheduler returns when user code and comparisons do *)

Section tick_returns.
Context `{JobOrder}.
Context (job_lt_returns : ∀ a b, ∃ c, job_lt a b = Returns c).

Lemma schedule_returns now delay func s :
  (schedule now delay func s).1 = Returns (length (jobs s)).
Proof.
  unfold schedule, new_ScheduledJob, on_job_queue. py_unfold. cbv beta iota.
  state_simpl.
  by destruct (heappush_returns job_lt job_lt_returns (length (jobs s)) (_job_queue s))
    as [queue ->].
Qed.

Lemma drain_returns fuel t tasks s :
  (∀ job, job ∈ _job_queue s → is_Some (jobs s !! job)) →
  ∃ dt tasks' s', drain fuel t tasks s = (Returns (dt, tasks'), s').
Proof.
  revert tasks s. induction fuel as [|fuel IH]; intros tasks s Hbound; [by eauto|].
  rewrite drain_S.
  destruct (_job_queue s) as [|top rest] eqn:Hq; [by eauto|].
  destruct (Hbound top ltac:(by left)) as [j ->].
  destruct (Qgt_dec (time j - t) 0); [by eauto|].
  destruct (heappop_cons job_lt top rest) as [Hperm _].
  destruct (heappop_returns job_lt job_lt_returns top rest) as [queue Hpop].
  rewrite Hpop in Hperm |- *. cbv zeta. state_simpl.
  rewrite list_lookup_alter_eq. destruct (Hbound top ltac:(by left)) as [j0 ->].
  cbn [fmap option_fmap option_map]. apply IH. state_simpl.
  intros job Hin. rewrite Hperm in Hin.
  apply lookup_lt_is_Some. rewrite length_alter. apply lookup_lt_is_Some.
  apply Hbound. by right.
Qed.

Lemma run_tasks_returns t tasks s :
  (∀ job, job ∈ tasks → ∃ j calls, jobs s !! job = Some j ∧ func j = Callable calls None) →
  ∃ s', run_tasks t tasks s = (Returns tt, s').
Proof.
  revert s. induction tasks as [|task tasks IH]; intros s Hfuncs; [by eexists|].
  rewrite run_tasks_cons.
  destruct (Hfuncs task ltac:(by left)) as (j & calls & -> & ->).
  set (s1 := set_trace _ s).
  pose proof (call_result calls None s1) as Hr.
  pose proof (calm_evolves' _ (call_calm (Callable calls None)) s1) as Hev.
  destruct (call _ s1) as [[[]|e] s2]; cbn [fst snd] in *; [|done].
  apply IH. intros job Hin.
  destruct (Hfuncs job ltac:(by right)) as (j1 & calls1 & Hj1 & Hf1).
  destruct (Hev job j1 Hj1) as (j2 & Hj2 & _ & Hf2 & _).
  exists j2, calls1. split; [done|congruence].
Qed.

Lemma _dispatch_event_returns t s :
  (∀ job, job ∈ _job_queue s → is_Some (jobs s !! job)) →
  (∀ job, job ∈ ready t s → ∃ j calls, jobs s !! job = Some j ∧ func j = Callable calls None) →
  ∃ dt s', _dispatch_event t s = (Returns dt, s').
Proof.
  intros Hbound Hfuncs. rewrite _dispatch_event_eq. unfold ready in Hfuncs.
  pose proof (drain_evolves (S (length (_job_queue s))) t [] s) as Hev.
  destruct (drain_returns (S (length (_job_queue s))) t [] s Hbound)
    as (dt & tasks & s1 & Hdrain).
  rewrite Hdrain in Hev, Hfuncs |- *. cbn [fst snd] in *.
  destruct (run_tasks_returns t tasks s1) as [s2 ->]; [|by eauto].
  intros job Hin. destruct (Hfuncs job Hin) as (j & calls & Hj & Hf).
  destruct (Hev job j Hj) as (j1 & Hj1 & _ & Hf1 & _).
  exists j1, calls. split; [done|congruence].
Qed.
End tick_returns.

(** ** The scheduler's contract *)

(** C8. [unschedule] on a handle returns [False] if the job is already
    dispatched or already cancelled, and otherwise marks it cancelled and
    returns [True].  Hence a call that returned [True] found the job neither
    dispatched nor cancelled, every later call on the handle returns [False]
    whatever happened in between, and so does every call after the job was
    dispatched. *)
Theorem unschedule_once `{JobOrder} (s : BaseServer) (job : nat) (j : ScheduledJob) :
  jobs s !! job = Some j →
  (dispatched j || cancel j = true → unschedule job s = (Returns false, s))
  ∧ (dispatched j || cancel j = false →
       (unschedule job s).1 = Returns true
       ∧ jobs (after (unschedule job) s) !! job
         = Some (Build_ScheduledJob (time j) (func j) true (dispatched j)))
  ∧ ((unschedule job s).1 = Returns true →
       dispatched j = false
       ∧ ∀ ops, (unschedule job (run ops (after (unschedule job) s))).1 = Returns false)
  ∧ (dispatched j = true → ∀ ops, (unschedule job (run ops s)).1 = Returns false).
Proof.
  intros Hj.
  assert (Hlater : ∀ s1 j1 ops, jobs s1 !! job = Some j1 →
    dispatched j1 || cancel j1 = true →
    (unschedule job (run ops s1)).1 = Returns false).
  { intros s1 j1 ops Hj1 Hflag.
    destruct (run_evolves ops s1 _ _ Hj1) as (j2 & Hj2 & _ & _ & Hc & Hd).
    rewrite unschedule_eq, Hj2.
    destruct (dispatched j1) eqn:Hd1.
    - destruct (Hd eq_refl) as [-> _]. done.
    - simpl in Hflag. rewrite (Hc Hflag), orb_true_r. done. }
  unfold after. rewrite !unschedule_eq, Hj.
  destruct (dispatched j || cancel j) eqn:Hflag; simpl.
  - split_and!; try done. intros Hd ops. eapply Hlater; [done|]. by rewrite Hd.
  - apply orb_false_iff in Hflag as [Hd Hc]. split_and!; try done.
    + split; [done|]. by rewrite list_lookup_insert_eq by eauto using lookup_lt_Some.
    + intros _. split; [done|]. intros ops. eapply Hlater.
      * simpl. by rewrite list_lookup_insert_eq by eauto using lookup_lt_Some.
      * simpl. by rewrite orb_true_r.
    + congruence.
Qed.

Lemma unschedule_once_witness :
  let H := python3 in
  let s := after (schedule 0 (1 # 2) noop) idle in
  (unschedule 0 s).1 = Returns true
  ∧ (unschedule 0 (run [Tick 1; Unschedule 0] (after (unschedule 0) s))).1 = Returns false.
Proof.
  intros H s.
  destruct (unschedule_once s 0 (Build_ScheduledJob (0 + (1 # 2)) noop false false) eq_refl)
    as (_ & Hfresh & Honce & _).
  split; [by apply Hfresh|]. apply Honce. by apply Hfresh.
Defined.

(** C1.  [ScheduledJob] defines no comparison, so [heappush] orders the heap
    by what the interpreter makes of [a < b] on two job objects and not by
    fire time.  Python 2 compares addresses: with each new job object below
    the earlier ones, a job due at 1 sits behind a job due at 5 and a tick
    at 2 calls nothing, and two jobs with the same fire time are called in
    the reverse of the order they were scheduled in.  Python 3 raises
    [TypeError] out of the second [schedule] and leaves the heap in the
    order of the calls: a job due at 1 scheduled after a job due at 5 sits
    behind it, and a tick at 2 calls nothing. *)
Theorem jobs_not_ordered_by_fire_time :
  (let H := python2 descending in
   let s := run [Schedule 0 1 noop; Schedule 0 5 noop] idle in
   _job_queue s = [1; 0]
   ∧ time <$> jobs s !! 1 = Some (0 + 5)%Q
   ∧ time <$> jobs s !! 0 = Some (0 + 1)%Q
   ∧ invocations (trace (step (Tick 2) s)) = [])
  ∧ (let H := python2 descending in
     let s := run [Schedule 0 0 noop; Schedule 0 0 noop; Tick 0] idle in
     time <$> jobs s !! 0 = time <$> jobs s !! 1
     ∧ invocations (trace s) = [(1, 0%Q); (0, 0%Q)])
  ∧ (let H := python3 in
     let s := run [Schedule 0 5 noop; Schedule 0 1 noop] idle in
     (schedule 0 1 noop (after (schedule 0 5 noop) idle)).1 = Raises TypeError
     ∧ _job_queue s = [0; 1]
     ∧ time <$> jobs s !! 0 = Some (0 + 5)%Q
     ∧ time <$> jobs s !! 1 = Some (0 + 1)%Q
     ∧ invocations (trace (step (Tick 2) s)) = []).
Proof. vm_compute. done. Qed.

(** What [schedule] does whatever the comparison of jobs: it creates a job
    with fire time [now + delay], not cancelled and not dispatched, and
    appends it to the heap, which then holds the jobs it held plus the new
    one; nothing else changes.  The call returns the new job unless a
    comparison of [heappush] raised; it does return it when the heap was
    empty and whenever comparing jobs does not raise. *)
Theorem schedule_pushes_job `{JobOrder} (now delay : Q) (func : callable) (s : BaseServer) :
  let r := schedule now delay func s in
  jobs r.2 = jobs s ++ [Build_ScheduledJob (now + delay) func false false]
  ∧ _job_queue r.2 ≡ₚ length (jobs s) :: _job_queue s
  ∧ trace r.2 = trace s
  ∧ (r.1 = Returns (length (jobs s)) ∨ ∃ e, r.1 = Raises e)
  ∧ (_job_queue s = [] → r = (Returns (length (jobs s)), r.2) ∧ _job_queue r.2 = [length (jobs s)])
  ∧ ((∀ a b, ∃ c, job_lt a b = Returns c) → r.1 = Returns (length (jobs s))).
Proof.
  destruct (schedule_after now delay func s) as (Hj & Hq & Ht).
  cbv zeta. split_and!; try done.
  - unfold schedule, new_ScheduledJob, on_job_queue. py_unfold. cbv beta iota.
    destruct (heappush _ _ _) as [[[]|e] queue]; eauto.
  - intros Hempty. unfold schedule, new_ScheduledJob, on_job_queue. py_unfold.
    cbv beta iota. state_simpl. by rewrite Hempty.
  - intros Hlt. by apply schedule_returns.
Qed.

Lemma schedule_pushes_job_witness :
  let H := python2 descending in
  let s := step (Schedule 0 1 noop) idle in
  let r := schedule 0 (1 # 2) noop s in
  r.1 = Returns 1
  ∧ _job_queue r.2 ≡ₚ [1; 0]
  ∧ jobs r.2 !! 1 = Some (Build_ScheduledJob (0 + (1 # 2)) noop false false).
Proof.
  intros H s r.
  destruct (schedule_pushes_job 0 (1 # 2) noop s) as (Hjobs & Hqueue & _ & _ & _ & Hreturns).
  split_and!.
  - apply Hreturns. intros a b. by eexists.
  - exact Hqueue.
  - fold r in Hjobs. rewrite Hjobs. reflexivity.
Defined.

Section timeout.
Context `{JobOrder}.

Lemma run_tasks_queue t tasks s : _job_queue s ⊆ _job_queue (run_tasks t tasks s).2.
Proof.
  revert s. induction tasks as [|task tasks IH]; intros s; [done|].
  rewrite run_tasks_cons. destruct (jobs s !! task) as [j|]; [|done].
  pose proof (calm_queue _ _ (call_calm (func j)
                (set_trace (trace s ++ [JobFunc task t]) s))) as Hq.
  destruct (call _ _) as [[[]|e] s2]; simpl in *; [|done].
  etrans; [exact Hq|apply IH].
Qed.

(** C3, as amended.  A tick that returns gives back 1 whenever the heap is
    empty at that moment, and otherwise what the heap looked like when the
    loop stopped popping, before the ready actions ran, decides: 1 if it was
    empty or its front job lay more than 1 ahead of [t], else the front
    job's positive [time - t].  And the tick does return when comparing jobs
    does not raise and the functions of the ready jobs return. *)
Theorem tick_timeout (t : Q) (s : BaseServer) :
  (∀ dt s', _dispatch_event t s = (Returns dt, s') →
     (_job_queue s' = [] → dt = 1%Q)
     ∧ match _job_queue (drained t s) with
       | [] => dt = 1%Q
       | top :: _ =>
           ∃ j, jobs (drained t s) !! top = Some j
                ∧ (0 < time j - t)%Q
                ∧ dt = if Qgt_dec (time j - t) 1 then 1%Q else (time j - t)%Q
       end)
  ∧ ((∀ a b, ∃ c, job_lt a b = Returns c) → sched_inv s →
     (∀ job, job ∈ ready t s →
        ∃ j calls, jobs s !! job = Some j ∧ func j = Callable calls None) →
     ∃ dt s', _dispatch_event t s = (Returns dt, s')).
Proof.
  split.
  2: { intros Hlt Hinv Hfuncs. apply _dispatch_event_returns; [done| |done].
       intros job Hin. destruct (inv_queue_fresh _ Hinv _ Hin) as (j & -> & _). by eexists. }
  intros dt s'. rewrite _dispatch_event_eq. unfold drained, after.
  pose proof (drain_exit (S (length (_job_queue s))) t [] s) as Hexit.
  destruct (drain _ _ _ _) as [[[dt0 tasks]|e] s1]; [|done].
  destruct (Hexit _ _ _ ltac:(lia) eq_refl) as [Hpos Hfront]. clear Hexit.
  pose proof (run_tasks_queue t tasks s1) as Hq.
  destruct (run_tasks _ _ _) as [[[]|e] s2]; [|done].
  intros [= <- <-]. simpl in *. split.
  { intros ->. done. }
  destruct (_job_queue s1) as [|top rest].
  { subst dt0. by destruct (bool_decide _). }
  destruct Hfront as (j & Hj & ->). exists j. split_and!; [done..|].
  rewrite bool_decide_eq_false_2; [done|].
  intros Hnil. specialize (Hq top ltac:(by left)). rewrite Hnil in Hq.
  by apply elem_of_nil in Hq.
Qed.
End timeout.

Lemma tick_timeout_witness :
  let H := python2 descending in
  let s := step (Schedule 0 (1 # 2) noop) idle in
  ∃ dt s',
    _dispatch_event 0 s = (Returns dt, s')
    ∧ (_job_queue s' = [] → dt = 1%Q)
    ∧ match _job_queue (drained 0 s) with
      | [] => dt = 1%Q
      | top :: _ =>
          ∃ j, jobs (drained 0 s) !! top = Some j
               ∧ (0 < time j - 0)%Q
               ∧ dt = if Qgt_dec (time j - 0) 1 then 1%Q else (time j - 0)%Q
      end.
Proof.
  intros H s. destruct (tick_timeout 0 s) as [Hvalue Hreturns].
  destruct Hreturns as (dt & s' & Htick).
  - intros a b. by eexists.
  - apply step_inv, init_inv.
  - intros job Hin. vm_compute in Hin. by apply elem_of_nil in Hin.
  - exists dt, s'. split; [exact Htick|]. exact (Hvalue dt s' Htick).
Defined.

(** C3, counterexample.  A job due at once whose function schedules another
    one a fifth of a time unit ahead: after the tick the heap holds that job,
    its deadline is not more than 1 away, and the tick returned 1. *)
Lemma tick_timeout_stale :
  let H := python3 in
  let s := after (schedule 0 0 (Callable [CallSchedule 0 (1 # 5) noop] None)) idle in
  let r := _dispatch_event 0 s in
  r.1 = Returns 1%Q
  ∧ _job_queue r.2 = [1]
  ∧ ¬ claimed_timeout 0 r.2 1.
Proof.
  vm_compute. split_and!; try done. intros [_ [=]].
Qed.

Section job_exceptions.
Context `{JobOrder}.

Lemma run_tasks_raises t before job rest j calls e s0 s :
  evolves s0 s →
  (∀ r, r ∈ before →
     ∃ jr calls_r, jobs s0 !! r = Some jr ∧ func jr = Callable calls_r None) →
  jobs s0 !! job = Some j →
  func j = Callable calls (Some e) →
  (run_tasks t (before ++ job :: rest) s).1 = Raises e
  ∧ last (invocations (trace (run_tasks t (before ++ job :: rest) s).2)) = Some (job, t).
Proof.
  intros Hev Hbefore Hj Hf. revert s Hev.
  induction before as [|r before IH]; intros s Hev; simpl app; rewrite run_tasks_cons.
  - destruct (Hev _ _ Hj) as (j' & -> & _ & Hf' & _).
    rewrite Hf', Hf.
    pose proof (call_result calls (Some e) (set_trace (trace s ++ [JobFunc job t]) s)) as Hr.
    pose proof (call_same_trace (Callable calls (Some e))
                  (set_trace (trace s ++ [JobFunc job t]) s)) as Ht.
    destruct (call _ _) as [[[]|e'] s2]; simpl in *; [done|].
    split; [done|]. unfold same_trace in Ht. simpl in Ht.
    rewrite Ht, invocations_app. simpl. by rewrite last_snoc.
  - destruct (Hbefore r ltac:(by left)) as (jr & calls_r & Hjr & Hfr).
    destruct (Hev _ _ Hjr) as (jr' & -> & _ & Hfr' & _).
    rewrite Hfr', Hfr.
    pose proof (call_result calls_r None (set_trace (trace s ++ [JobFunc r t]) s)) as Hr.
    pose proof (calm_evolves' _ (call_calm (Callable calls_r None))
                  (set_trace (trace s ++ [JobFunc r t]) s)) as Hc.
    destruct (call _ _) as [[[]|e'] s2]; simpl in *; [|done].
    apply IH.
    + intros r' Hin. apply Hbefore. by right.
    + etrans; [exact Hev|]. etrans; [|exact Hc]. by apply evolves_same_jobs.
Qed.

(** C7.  When the ready list of a tick reaches a job whose function raises,
    the jobs before it having returned, the exception comes out of
    [_dispatch_event]; that call is the last one the tick makes. *)
Theorem job_exception_propagates (t : Q) (s : BaseServer) (before rest : list nat)
    (job : nat) (j : ScheduledJob) (calls : list api_call) (e : exn) :
  ready t s = before ++ job :: rest →
  (∀ r, r ∈ before →
     ∃ jr calls_r, jobs (drained t s) !! r = Some jr ∧ func jr = Callable calls_r None) →
  jobs (drained t s) !! job = Some j →
  func j = Callable calls (Some e) →
  (_dispatch_event t s).1 = Raises e
  ∧ last (invocations (trace (after (_dispatch_event t) s))) = Some (job, t).
Proof.
  unfold ready, drained, after. rewrite _dispatch_event_eq.
  destruct (drain _ _ _ _) as [[[dt tasks]|e'] s1]; simpl.
  2: { intros Hnil. by destruct before. }
  intros -> Hbefore Hj Hf.
  destruct (run_tasks_raises t before job rest j calls e s1 s1
              ltac:(reflexivity) Hbefore Hj Hf) as [Hr Hl].
  destruct (run_tasks _ _ _) as [[[]|e'] s2]; cbn [fst snd] in *; [done|].
  injection Hr as ->. by split.
Qed.
End job_exceptions.

Lemma job_exception_propagates_witness :
  let H := python3 in
  let s := after (schedule 0 0 (failing (ApplicationError 7))) idle in
  (_dispatch_event 0 s).1 = Raises (ApplicationError 7)
  ∧ last (invocations (trace (after (_dispatch_event 0) s))) = Some (0, 0%Q).
Proof.
  intros H s.
  apply (job_exception_propagates 0 s [] [] 0
           (Build_ScheduledJob (0 + 0) (failing (ApplicationError 7)) false true) []
           (ApplicationError 7)).
  - reflexivity.
  - by intros r ?%elem_of_nil.
  - reflexivity.
  - reflexivity.
Defined.

Section new_calls.
Context `{JobOrder}.

(** The ready list is made of jobs that were in the heap. *)
Lemma drain_tasks fuel t tasks s dt tasks' :
  (drain fuel t tasks s).1 = Returns (dt, tasks') →
  tasks' ⊆ tasks ++ _job_queue s.
Proof.
  revert tasks s. induction fuel as [|fuel IH]; intros tasks s.
  { intros [= <- <-]. by apply list_subseteq_app_l. }
  rewrite drain_S.
  destruct (_job_queue s) as [|top rest] eqn:Hq.
  { intros [= <- <-]. by apply list_subseteq_app_l. }
  destruct (jobs s !! top) as [j|]; [|done].
  destruct (Qgt_dec (time j - t) 0).
  { intros [= <- <-]. by apply list_subseteq_app_l. }
  destruct (heappop_cons job_lt top rest) as [Hperm Hout]. cbv zeta in *.
  destruct (heappop job_lt (top :: rest)) as [[task|e] queue]; cbn [fst snd] in *; [|done].
  destruct Hout as [[= ->]|[e [=]]].
  destruct (_ !! top) as [j1|]; [|done].
  intros Hr%IH. state_simpl. rewrite Hperm in Hr.
  intros job Hin%Hr. rewrite elem_of_app, elem_of_cons.
  rewrite elem_of_app in Hin. destruct Hin as [Hin|Hin]; [|tauto].
  destruct (negb (cancel j1)); [|tauto].
  rewrite elem_of_app, list_elem_of_singleton in Hin. tauto.
Qed.

Lemma drain_same_trace fuel t tasks s : trace (drain fuel t tasks s).2 = trace s.
Proof.
  revert tasks s. induction fuel as [|fuel IH]; intros tasks s; [done|].
  rewrite drain_S.
  destruct (_job_queue s) as [|top rest]; [done|].
  destruct (jobs s !! top) as [j|]; [|done].
  destruct (Qgt_dec (time j - t) 0); [done|].
  destruct (heappop job_lt (top :: rest)) as [[task|e] queue]; [|done].
  cbv zeta. destruct (_ !! task) as [j1|]; [|done]. by rewrite IH.
Qed.

(** The calls a ready list adds are calls of its jobs. *)
Lemma run_tasks_calls t tasks s c :
  c ∈ invocations (trace (run_tasks t tasks s).2) →
  c ∈ invocations (trace s) ∨ c.1 ∈ tasks.
Proof.
  revert s. induction tasks as [|task tasks IH]; intros s; [by left|].
  rewrite run_tasks_cons. destruct (jobs s !! task) as [j|]; [|by left].
  set (s1 := set_trace (trace s ++ [JobFunc task t]) s).
  pose proof (calm_invocations _ _ (call_calm (func j) s1)) as Hcall.
  assert (Hs1 : c ∈ invocations (trace s1) → c ∈ invocations (trace s) ∨ c.1 ∈ task :: tasks).
  { subst s1. simpl. rewrite invocations_app. simpl.
    intros [?| ->%list_elem_of_singleton]%elem_of_app; [by left|right; by left]. }
  destruct (call (func j) s1) as [[[]|e] s2]; cbn [fst snd] in *.
  - intros [Hin|Hin]%IH.
    + rewrite Hcall in Hin. auto.
    + right. by right.
  - rewrite Hcall. auto.
Qed.

(** A tick only calls jobs that were in the heap when it started. *)
Lemma _dispatch_event_calls t s c :
  c ∈ invocations (trace (after (_dispatch_event t) s)) →
  c ∈ invocations (trace s) ∨ c.1 ∈ _job_queue s.
Proof.
  unfold after. rewrite _dispatch_event_eq.
  pose proof (drain_tasks (S (length (_job_queue s))) t [] s) as Htasks.
  pose proof (drain_same_trace (S (length (_job_queue s))) t [] s) as Htrace.
  destruct (drain _ _ _ _) as [[[dt tasks]|e] s1]; cbn [fst snd] in *.
  2: { rewrite Htrace. auto. }
  specialize (Htasks _ _ eq_refl).
  pose proof (run_tasks_calls t tasks s1 c) as Hcalls.
  assert (Hin : c ∈ invocations (trace (run_tasks t tasks s1).2) →
                c ∈ invocations (trace s) ∨ c.1 ∈ _job_queue s).
  { intros [Hin|Hin]%Hcalls; [rewrite Htrace in Hin; auto|]. right. by apply Htasks in Hin. }
  by destruct (run_tasks _ _ _) as [[[]|e] s2].
Qed.

(** Outside ticks nothing is called. *)
Lemma step_calls o s c :
  sched_inv s → c ∈ invocations (trace (step o s)) →
  c ∈ invocations (trace s) ∨ c.1 ∈ _job_queue s.
Proof.
  intros _.
  destruct o as [now delay f|job|client payload cb| |client received|client sent
                |client finalize|t]; simpl; try apply _dispatch_event_calls;
    unfold after; intros Hin; left; revert Hin.
  - by rewrite (calm_invocations _ _ (schedule_calm now delay f s)).
  - by rewrite (calm_invocations _ _ (unschedule_calm job s)).
  - by rewrite (calm_invocations _ _ (send_calm client payload cb s)).
  - by rewrite (calm_invocations _ _ (_accept_calm s)).
  - by rewrite (calm_invocations _ _ (_nonblock_read_calm client received s)).
  - by rewrite (calm_invocations _ _ (_nonblock_write_calm client sent s)).
  - by rewrite (calm_invocations _ _ (_clean_up_client_calm client finalize s)).
Qed.

(** A dispatched job is not called again. *)
Lemma dispatched_not_called ops s job j c :
  sched_inv s → jobs s !! job = Some j → dispatched j = true → c.1 = job →
  c ∈ invocations (trace (run ops s)) → c ∈ invocations (trace s).
Proof.
  revert s j. induction ops as [|o ops IH]; intros s j Hinv Hj Hd Hc; [done|].
  simpl. intros Hin.
  destruct (step_evolves o s _ _ Hj) as (j' & Hj' & _ & _ & _ & Hd').
  destruct (Hd' Hd) as [Hd'' _].
  apply (IH _ _ (step_inv o s Hinv) Hj' Hd'' Hc) in Hin.
  destruct (step_calls o s c Hinv Hin) as [Hin'|Hin']; [done|].
  rewrite Hc in Hin'. destruct (inv_queue_fresh _ Hinv _ Hin') as (j0 & Hj0 & ?). congruence.
Qed.
End new_calls.

Section fires_once.
Context `{JobOrder}.

Lemma called_not_cancelled s job j :
  sched_inv s → jobs s !! job = Some j → cancel j = true →
  job ∉ (invocations (trace s)).*1.
Proof.
  intros Hinv Hj Hc ([job' t] & -> & Hin)%list_elem_of_fmap.
  destruct (inv_called _ Hinv _ _ Hin) as (j' & Hj' & _ & Hc' & _).
  simpl in *. congruence.
Qed.

(** A cancelled job that is due and at the front of the heap is taken out
    of the heap by the tick. *)
Lemma cancelled_front_popped t s job rest j :
  sched_inv s → _job_queue s = job :: rest → jobs s !! job = Some j →
  cancel j = true → (time j <= t)%Q →
  job ∉ _job_queue (after (_dispatch_event t) s).
Proof.
  intros Hinv Hq Hj Hc Ht.
  pose proof (_dispatch_event_inv t s Hinv) as Hinv'.
  unfold after. revert Hinv'. rewrite _dispatch_event_eq, drain_S, Hq, Hj.
  assert (Qgt_dec (time j - t) 0 = false) as ->.
  { apply Qgt_dec_false. lra. }
  destruct (heappop_cons job_lt job rest) as [Hperm Hout]. cbv zeta in *.
  pose proof (inv_queue_nodup _ Hinv) as Hnd. rewrite Hq in Hnd.
  apply NoDup_cons in Hnd as [Hnot _].
  destruct (heappop job_lt (job :: rest)) as [[task|e] queue]; cbn [fst snd] in *.
  2: { intros _. state_simpl. by rewrite Hperm. }
  destruct Hout as [[= ->]|[e [=]]].
  state_simpl. rewrite list_lookup_alter_eq, Hj. cbn [fmap option_fmap option_map].
  set (s1 := set_jobs _ _).
  assert (Hj1 : jobs s1 !! job = Some (mark_dispatched j)).
  { subst s1. state_simpl. by rewrite list_lookup_alter_eq, Hj. }
  assert (Hgone : ∀ s3, evolves s1 s3 → sched_inv s3 → job ∉ _job_queue s3).
  { intros s3 Hev3 Hinv3 Hin.
    destruct (Hev3 _ _ Hj1) as (j3 & Hj3 & _ & _ & _ & Hd3).
    destruct (Hd3 eq_refl) as [Hd3' _].
    destruct (inv_queue_fresh _ Hinv3 _ Hin) as (j3' & Hj3' & ?). congruence. }
  match goal with |- context [drain ?n t ?tasks s1] =>
    pose proof (drain_evolves n t tasks s1) as Hev1;
    destruct (drain n t tasks s1) as [[[dt tasks']|e] s2] end;
    cbn [fst snd] in *; [|by apply Hgone].
  pose proof (run_tasks_evolves t tasks' s2) as Hev2.
  destruct (run_tasks _ _ _) as [[[]|e] s3]; cbn [fst snd] in *;
    apply Hgone; by etrans.
Qed.

End fires_once.

(** ** Connections *)

#[local] Instance conn_grows_preorder : PreOrder conn_grows.
Proof.
  split.
  - by intros s.
  - intros s1 s2 s3 (Hc & Hs & Hp) (Hc' & Hs' & Hp').
    split_and!; [congruence..|]. intros fd. etrans; [apply Hp|apply Hp'].
Qed.

#[local] Instance others_kept_preorder fd : PreOrder (others_kept fd).
Proof.
  split.
  - by intros s fd' _.
  - intros s1 s2 s3 H12 H23 fd' Hne.
    destruct (H12 _ Hne) as (Hc & Hs & Hp). destruct (H23 _ Hne) as (Hc' & Hs' & Hp').
    split_and!; [by rewrite Hc'|congruence|by etrans].
Qed.

Lemma conn_grows_others fd s s' : conn_grows s s' → others_kept fd s s'.
Proof. intros (Hc & Hs & Hp) fd' _. by rewrite Hc, Hs. Qed.

Lemma conn_grows_same s s' :
  _clients s' = _clients s → sockets s' = sockets s → _send_queue s' = _send_queue s →
  conn_grows s s'.
Proof. intros Hc Hs Hq. split_and!; [done..|]. intros fd. unfold pending. by rewrite Hq. Qed.

Section isolation.
Context `{JobOrder}.

Lemma schedule_conn now delay func : steps conn_grows (schedule now delay func).
Proof.
  intros s. unfold schedule, new_ScheduledJob, on_job_queue. py_unfold. cbv beta iota.
  destruct (heappush _ _ _) as [[[]|e] queue]; by apply conn_grows_same.
Qed.

Lemma unschedule_conn job : steps conn_grows (unschedule job).
Proof.
  intros s. rewrite unschedule_eq.
  destruct (jobs s !! job) as [j|]; [|reflexivity].
  destruct (dispatched j || cancel j); [reflexivity|]. by apply conn_grows_same.
Qed.

Lemma send_conn client data callback : steps conn_grows (send client data callback).
Proof.
  intros s. unfold send, send_queue_getitem, deque_append, _register_write, modify.
  py_unfold. cbv beta iota.
  destruct (_send_queue s !! fileno client) as [queue|] eqn:Hq; simpl;
    (split_and!; [done..|]); intros fd; unfold pending; simpl.
  - rewrite lookup_alter. case_decide as Hfd; [|done]. subst fd. rewrite Hq. simpl.
    by apply prefix_app_r.
  - rewrite lookup_alter. case_decide as Hfd.
    + subst fd. rewrite Hq. apply prefix_nil.
    + by rewrite lookup_insert_ne.
Qed.

Lemma perform_conn c : steps conn_grows (perform c).
Proof.
  destruct c; simpl.
  - apply (steps_bind conn_grows); [apply schedule_conn|done].
  - apply (steps_bind conn_grows); [apply unschedule_conn|done].
  - apply send_conn.
Qed.

Lemma call_conn f : steps conn_grows (call f).
Proof.
  destruct f as [calls raised]. simpl.
  induction calls as [|c calls IH]; simpl.
  - by destruct raised.
  - apply (steps_bind conn_grows); [|done]. intros s. apply perform_conn.
Qed.

Lemma _clean_up_client_others client finalize :
  steps (others_kept (fileno client)) (_clean_up_client client finalize).
Proof.
  unfold _clean_up_client. steps_split.
  - intros s fd' Hne. unfold send_queue_delitem, pending.
    destruct (_send_queue s !! fileno client); simpl; [|done].
    by rewrite lookup_delete_ne.
  - by intros s fd' Hne.
  - intros s. apply conn_grows_others, call_conn.
  - intros s fd' Hne. simpl. by rewrite lookup_delete_ne.
  - intros s fd' Hne. unfold clients_remove. case_decide; simpl; [|done].
    split_and!; [|done..]. rewrite elem_of_difference, elem_of_singleton. tauto.
Qed.

Lemma _nonblock_read_others client received :
  steps (others_kept (fileno client)) (_nonblock_read client received).
Proof.
  unfold _nonblock_read. steps_split;
    try apply _clean_up_client_others;
    try (by intros s fd' Hne).
  intros s. apply conn_grows_others, call_conn.
Qed.

Lemma _clean_up_client_returns client calls s :
  fileno client ∈ _clients s → on_close client = Callable calls None →
  (_clean_up_client client false s).1 = Returns tt.
Proof.
  intros Hin Hclose.
  assert (Hrest : ∀ s1, _clients s1 = _clients s →
    ((emit (OnClose (fileno client));;
      call (on_close client);;
      socket_close (fileno client);;
      if negb false then clients_remove client else mret tt) s1).1 = Returns tt).
  { intros s1 Hc1. unfold emit, modify. py_unfold. cbv beta iota. rewrite Hclose.
    set (s2 := set_trace _ s1).
    pose proof (call_result calls None s2) as Hr.
    destruct (call_conn (Callable calls None) s2) as (Hc2 & _).
    destruct (call _ s2) as [[[]|e] s3]; simpl in *; [|done].
    unfold clients_remove. simpl. rewrite decide_True; [done|]. by rewrite Hc2, Hc1. }
  unfold _clean_up_client, send_queue_delitem. py_unfold.
  destruct (_send_queue s !! fileno client); cbv beta iota.
  - by apply (Hrest (set_send_queue (delete (fileno client) (_send_queue s)) s)).
  - by apply (Hrest s).
Qed.

End isolation.

Section connections.
Context `{JobOrder}.

Lemma _nonblock_write_idle client sent s :
  pending (fileno client) s = [] →
  _nonblock_write client sent s
  = (Raises IndexError, set_send_queue (<[fileno client := []]> (_send_queue s)) s).
Proof.
  unfold pending. intros Hempty.
  unfold _nonblock_write, send_queue_getitem, deque_front. py_unfold. cbv zeta beta.
  destruct (_send_queue s !! fileno client) as [queue|] eqn:Hq; simpl in *.
  - subst queue. rewrite Hq. simpl. rewrite insert_id by done. by destruct s.
  - by rewrite lookup_insert_eq.
Qed.

#[local] Instance registers_no_read_preorder : PreOrder registers_no_read.
Proof.
  split.
  - by intros s.
  - intros s1 s2 s3 [Hl Hi] [Hl' Hi']. split; [congruence|auto].
Qed.

Lemma perform_registers_no_read c : steps registers_no_read (perform c).
Proof.
  intros s. destruct c as [now delay func|job|client payload callback]; simpl.
  - py_unfold. unfold schedule, new_ScheduledJob, on_job_queue. py_unfold. cbv beta iota.
    destruct (heappush _ _ _) as [[[]|e] queue]; by split.
  - py_unfold. rewrite unschedule_eq. repeat case_match; simplify_eq; by split.
  - unfold send, send_queue_getitem, deque_append, _register_write, modify. py_unfold.
    destruct (_send_queue s !! fileno client); simpl;
      (split; [done|]); intros fd; simpl; unfold insert, fn_insert; by case_decide.
Qed.

Lemma call_registers_no_read f : steps registers_no_read (call f).
Proof.
  destruct f as [calls raised]. simpl.
  induction calls as [|c calls IH]; simpl.
  - by destruct raised.
  - apply (steps_bind registers_no_read); [|done]. intros s. apply perform_registers_no_read.
Qed.

(** C10.  A write-readiness event on a connection with no pending output,
    whether its key is missing from the queue mapping or bound to an empty
    deque: looking the key up leaves it bound to an empty deque, [queue[0]]
    raises [IndexError], which is not a [socket.error] and comes out of
    [_nonblock_write]; nothing else happens.  A key that was missing is
    bound afterwards although the connection has no output. *)
Theorem write_without_output (client : Client) (sent : outcome nat) (s : BaseServer) :
  pending (fileno client) s = [] →
  _nonblock_write client sent s
  = (Raises IndexError,
     set_send_queue (<[fileno client := []]> (_send_queue s)) s)
  ∧ (_send_queue s !! fileno client = None →
     _send_queue (after (_nonblock_write client sent) s) !! fileno client = Some []
     ∧ pending (fileno client) (after (_nonblock_write client sent) s) = []).
Proof.
  intros Hempty. pose proof (_nonblock_write_idle client sent s Hempty) as Heq.
  split; [done|]. intros _. unfold after, pending. rewrite Heq. simpl.
  by rewrite lookup_insert_eq.
Qed.

End connections.

Lemma write_without_output_witness :
  let H := python3 in
  _nonblock_write (plain_client 5) (Returns 0) idle
  = (Raises IndexError, set_send_queue (<[5%Z := []]> (_send_queue idle)) idle)
  ∧ (_send_queue idle !! 5%Z = None →
     _send_queue (after (_nonblock_write (plain_client 5) (Returns 0)) idle) !! 5%Z = Some []
     ∧ pending 5 (after (_nonblock_write (plain_client 5) (Returns 0)) idle) = []).
Proof. intros H. apply (write_without_output (plain_client 5) (Returns 0) idle). reflexivity. Defined.

Lemma bind_eq {S A B} (m : py S A) (k : A → py S B) (s : S) :
  (m ≫= k) s =
  match m s with
  | (Returns a, s') => k a s'
  | (Raises e, s') => (Raises e, s')
  end.
Proof. done. Qed.

Lemma ret_eq {S A} (a : A) (s : S) : mret (M := py S) a s = (Returns a, s).
Proof. done. Qed.

Section write_events.
Context `{JobOrder}.

Lemma after_write_front client cb m rest s :
  _send_queue s !! fileno client = Some (m :: rest) →
  _send_queue (after_write client cb m s) !! fileno client = Some (stripped cb m :: rest).
Proof. intros Hq. unfold after_write. simpl. by rewrite lookup_alter_eq, Hq. Qed.

Lemma finish_front_spec client top rest s :
  _send_queue s !! fileno client = Some (top :: rest) →
  let r := finish_front client s in
  r.1 = Returns tt
  ∧ trace r.2 = trace s ++ [Popleft (fileno client)]
  ∧ pending (fileno client) r.2 = rest
  ∧ _clients r.2 = _clients s ∧ sockets r.2 = sockets s
  ∧ (∀ fd, fd ≠ fileno client → _send_queue r.2 !! fd = _send_queue s !! fd).
Proof.
  intros Hq. unfold finish_front, deque_popleft, deque_items, getattr, _register_read,
    send_queue_delitem, modify, pending. py_unfold. rewrite Hq. cbv beta iota. simpl.
  rewrite lookup_alter_eq, Hq. simpl. rewrite drop_0.
  destruct rest as [|m rest]; simpl.
  - rewrite lookup_alter_eq, Hq. simpl. rewrite lookup_delete_eq.
    split_and!; try done. intros fd Hne. by rewrite lookup_delete_ne, lookup_alter_ne.
  - rewrite lookup_alter_eq, Hq. simpl.
    split_and!; try done. intros fd Hne. by rewrite lookup_alter_ne.
Qed.

Lemma completion_eq client f s :
  completion client f s =
  match call f (set_trace (trace s ++ [WriteCallback (fileno client)]) s) with
  | (Returns _, s1) => (Returns true, s1)
  | (Raises e, s1) =>
      if Exception e then
        match _clean_up_client client false
                (set_trace (trace s1 ++ [LogException "Client write callback failure"]) s1)
        with
        | (Returns _, s2) => (Returns false, s2)
        | (Raises e', s2) => (Raises e', s2)
        end
      else (Raises e, s1)
  end.
Proof.
  unfold completion, logger_exception, emit, modify. py_unfold. cbv beta iota.
  destruct (call f _) as [[[]|e] s1]; [done|]. cbv beta iota.
  destruct (Exception e); [|done].
  by destruct (_clean_up_client _ _ _) as [[[]|e'] s2].
Qed.

(** The write event up to the point where the message is known finished or
    not. *)
Lemma _nonblock_write_sent client cb m rest s :
  _send_queue s !! fileno client = Some (m :: rest) →
  _nonblock_write client (Returns cb) s =
  match drop cb (data m) with
  | [] =>
      try_except
        (goes_on ← match callback m with
                   | Some f => completion client f
                   | None => mret true
                   end;
         if goes_on : bool then finish_front client else mret tt)
        is_socket_error
        (_clean_up_client client false)
        (after_write client cb m s)
  | _ :: _ => (Returns tt, after_write client cb m s)
  end.
Proof.
  intros Hq. unfold _nonblock_write, send_queue_getitem, deque_front, socket_send,
    front_set_data, modify. py_unfold. cbv zeta. rewrite Hq. cbv beta iota.
  state_simpl. rewrite Hq. cbv beta iota. fold (after_write client cb m s).
  destruct (drop cb (data m)); [|done]. done.
Qed.
End write_events.

Section completion.
Context `{JobOrder}.

(** What a teardown records and how it ends, by the outcome of the close
    hook. *)
Lemma _clean_up_client_trace client calls raised s :
  on_close client = Callable calls raised →
  let fd := fileno client in
  let r := _clean_up_client client false s in
  match raised with
  | None =>
      trace r.2 = trace s ++ [OnClose fd; SocketClose fd]
      ∧ (fd ∉ _clients r.2) ∧ sockets r.2 !! fd = None
      ∧ (r.1 = Returns tt ∨ r.1 = Raises KeyError)
      ∧ (fd ∈ _clients s → r.1 = Returns tt)
  | Some e => trace r.2 = trace s ++ [OnClose fd] ∧ r.1 = Raises e
  end.
Proof.
  intros Hclose fd r. subst r.
  assert (Hrest : ∀ s1, trace s1 = trace s → _clients s1 = _clients s →
    let r := (emit (OnClose fd);; call (on_close client);; socket_close fd;;
              if negb false then clients_remove client else mret tt) s1 in
    match raised with
    | None =>
        trace r.2 = trace s ++ [OnClose fd; SocketClose fd]
        ∧ (fd ∉ _clients r.2) ∧ sockets r.2 !! fd = None
        ∧ (r.1 = Returns tt ∨ r.1 = Raises KeyError)
        ∧ (fd ∈ _clients s → r.1 = Returns tt)
    | Some e => trace r.2 = trace s ++ [OnClose fd] ∧ r.1 = Raises e
    end).
  { intros s1 Ht1 Hc1. unfold emit, modify. py_unfold. cbv beta iota zeta. rewrite Hclose.
    set (s2 := set_trace _ s1).
    pose proof (call_result calls raised s2) as Hr.
    pose proof (call_same_trace (Callable calls raised) s2) as Ht2.
    destruct (call_conn (Callable calls raised) s2) as (Hc2 & _).
    unfold same_trace in Ht2.
    destruct (call _ s2) as [[[]|e] s3]; destruct raised as [e'|]; simplify_eq/=.
    - unfold clients_remove. simpl. rewrite Ht2, Ht1, Hc2, Hc1.
      case_decide as Hin; simpl.
      + rewrite <-app_assoc. simpl. split_and!; try done; [|by apply lookup_delete_eq|by left].
        rewrite elem_of_difference, elem_of_singleton. tauto.
      + rewrite <-app_assoc, lookup_delete_eq, Hc2, Hc1. simpl.
        split_and!; try done. by right.
    - by rewrite Ht2, Ht1. }
  unfold _clean_up_client, send_queue_delitem. py_unfold.
  destruct (_send_queue s !! fileno client); cbv beta iota.
  - by apply (Hrest (set_send_queue (delete (fileno client) (_send_queue s)) s)).
  - by apply (Hrest s).
Qed.

End completion.

Lemma transmitted_app fd tr tr' :
  transmitted fd (tr ++ tr') = transmitted fd tr ++ transmitted fd tr'.
Proof. apply bind_app. Qed.

Lemma pending_lookup fd s m rest :
  pending fd s = m :: rest → _send_queue s !! fd = Some (m :: rest).
Proof. unfold pending. destruct (_send_queue s !! fd); simpl; intros ?; by simplify_eq. Qed.

Section fifo.
Context `{JobOrder}.

Lemma send_pending client payload callback s :
  let s' := after (send client payload callback) s in
  pending (fileno client) s'
  = pending (fileno client) s ++ [Build_SendMessage payload callback]
  ∧ trace s' = trace s.
Proof.
  unfold after, send, send_queue_getitem, deque_append, _register_write, modify, pending.
  py_unfold. cbv beta iota.
  destruct (_send_queue s !! fileno client) as [queue|] eqn:Hq; simpl.
  - by rewrite lookup_alter_eq, Hq.
  - by rewrite lookup_alter_eq, lookup_insert_eq.
Qed.

(** One write event on a message without callback. *)
Lemma write_plain client cb m rest s :
  pending (fileno client) s = m :: rest → callback m = None →
  let s' := after (_nonblock_write client (Returns cb)) s in
  (_nonblock_write client (Returns cb) s).1 = Returns tt
  ∧ trace s' = trace s ++ SocketSend (fileno client) (data m) (Returns cb)
                 :: match drop cb (data m) with
                    | [] => [Popleft (fileno client)]
                    | _ => []
                    end
  ∧ pending (fileno client) s'
    = match drop cb (data m) with
      | [] => rest
      | _ => stripped cb m :: rest
      end.
Proof.
  intros Hq%pending_lookup Hcb. cbv zeta. unfold after.
  rewrite (_nonblock_write_sent client cb m rest s Hq).
  pose proof (after_write_front client cb m rest s Hq) as Hfront.
  destruct (drop cb (data m)) as [|b left] eqn:Hdrop.
  - unfold try_except. rewrite bind_eq, Hcb, ret_eq.
    destruct (finish_front_spec client _ _ _ Hfront) as (Hr & Ht & Hp & _).
    destruct (finish_front client _) as [[[]|e] s2]; cbn [fst snd] in *; simplify_eq.
    split_and!; [done| |done]. rewrite Ht. simpl. by rewrite <-app_assoc.
  - cbn [fst snd]. split_and!; [done..|]. unfold pending. by rewrite Hfront.
Qed.

Lemma write_idle client cb s :
  pending (fileno client) s = [] →
  let s' := after (_nonblock_write client (Returns cb)) s in
  trace s' = trace s ∧ pending (fileno client) s' = [].
Proof.
  intros Hp. pose proof (_nonblock_write_idle client (Returns cb) s Hp) as Heq.
  cbv zeta. unfold after. rewrite Heq. simpl. split; [done|].
  unfold pending. simpl. by rewrite lookup_insert_eq.
Qed.

Lemma write_events_stream client sents s :
  Forall (λ m, callback m = None) (pending (fileno client) s) →
  let s' := write_events client sents s in
  transmitted (fileno client) (trace s') ++ stream (pending (fileno client) s')
  = transmitted (fileno client) (trace s) ++ stream (pending (fileno client) s).
Proof.
  revert s. induction sents as [|cb sents IH]; intros s Hplain; [done|].
  cbv zeta. simpl. destruct (pending (fileno client) s) as [|m rest] eqn:Hp.
  - destruct (write_idle client cb s Hp) as [Ht Hp'].
    rewrite IH by (rewrite Hp'; constructor). by rewrite Ht, Hp'.
  - apply Forall_cons in Hplain as [Hm Hrest].
    destruct (write_plain client cb m rest s Hp Hm) as (_ & Ht & Hp').
    rewrite IH.
    + rewrite Ht, Hp', transmitted_app, <-app_assoc. f_equal. simpl.
      rewrite decide_True by done.
      pose proof (take_drop cb (data m)) as Htd.
      destruct (drop cb (data m)) eqn:Hdrop; simpl; rewrite !app_nil_r.
      * rewrite app_nil_r in Htd. by rewrite Htd.
      * by rewrite Hdrop, app_assoc, Htd.
    + rewrite Hp'. destruct (drop cb (data m)); [done|]. by constructor.
Qed.

Lemma write_events_drains client sents s :
  Forall (λ m, callback m = None) (pending (fileno client) s) →
  Forall (λ cb, 1 ≤ cb) sents →
  length (stream (pending (fileno client) s)) + length (pending (fileno client) s)
    ≤ length sents →
  pending (fileno client) (write_events client sents s) = [].
Proof.
  revert s. induction sents as [|cb sents IH]; intros s Hplain Hcb Hlen.
  { simpl in *. destruct (pending (fileno client) s); simpl in *; [done|lia]. }
  apply Forall_cons in Hcb as [Hcb Hsents]. simpl.
  destruct (pending (fileno client) s) as [|m rest] eqn:Hp.
  - destruct (write_idle client cb s Hp) as [_ Hp'].
    apply IH; rewrite ?Hp'; [constructor|done|simpl; lia].
  - apply Forall_cons in Hplain as [Hm Hrest].
    destruct (write_plain client cb m rest s Hp Hm) as (_ & _ & Hp').
    simpl in Hlen. rewrite length_app in Hlen.
    apply IH; rewrite ?Hp'; [|done|].
    + destruct (drop cb (data m)); [done|]. by constructor.
    + destruct (drop cb (data m)) eqn:Hdrop; [lia|].
      simpl. rewrite length_app, Hdrop.
      assert (length (drop cb (data m)) = length (data m) - cb) as Hd by apply length_drop.
      rewrite Hdrop in Hd. simpl in *. lia.
Qed.

(** C5.  [send(client, A)] then [send(client, B)] on an idle connection,
    followed by any number of write-readiness events in which the transport
    takes some of what it is offered.  Each event with output pending makes
    one write, of what is left of the front message, and strips what the
    transport took.  What the transport has taken so far followed by what
    is still queued is always [A ++ B], so once the queue is empty exactly
    [A ++ B] went out, in that order; and the queue is empty after enough
    events that each take at least a byte. *)
Theorem send_fifo (client : Client) (A B : bytes) (sents : list nat) (s : BaseServer) :
  pending (fileno client) s = [] →
  let fd := fileno client in
  let s2 := after (send client B None) (after (send client A None) s) in
  let s3 := write_events client sents s2 in
  transmitted fd (trace s3) ++ stream (pending fd s3) = transmitted fd (trace s) ++ A ++ B
  ∧ (pending fd s3 = [] → transmitted fd (trace s3) = transmitted fd (trace s) ++ A ++ B)
  ∧ (Forall (λ cb, 1 ≤ cb) sents → length A + length B + 2 ≤ length sents →
     pending fd s3 = [])
  ∧ (∀ earlier cb later m rest, sents = earlier ++ cb :: later →
     let s' := write_events client earlier s2 in
     pending fd s' = m :: rest →
     let s'' := after (_nonblock_write client (Returns cb)) s' in
     trace s'' = trace s' ++ SocketSend fd (data m) (Returns cb)
                   :: match drop cb (data m) with [] => [Popleft fd] | _ => [] end
     ∧ pending fd s'' = match drop cb (data m) with
                        | [] => rest
                        | _ => stripped cb m :: rest
                        end).
Proof.
  intros Hidle fd s2 s3. subst fd.
  destruct (send_pending client A None s) as [HpA HtA].
  destruct (send_pending client B None (after (send client A None) s)) as [HpB HtB].
  fold s2 in HpB, HtB. rewrite HpA, Hidle in HpB. rewrite HtA in HtB. simpl in HpB.
  assert (Hplain : ∀ events,
    Forall (λ m, callback m = None) (pending (fileno client) (write_events client events s2))).
  { assert (Hgen : ∀ events s', Forall (λ m, callback m = None) (pending (fileno client) s') →
      Forall (λ m, callback m = None) (pending (fileno client) (write_events client events s'))).
    { induction events as [|cb events IH]; intros s' Hs'; [done|]. simpl. apply IH.
      destruct (pending (fileno client) s') as [|m rest] eqn:Hp.
      - destruct (write_idle client cb s' Hp) as [_ ->]. constructor.
      - apply Forall_cons in Hs' as [Hm Hrest].
        destruct (write_plain client cb m rest s' Hp Hm) as (_ & _ & ->).
        destruct (drop cb (data m)); [done|]. by constructor. }
    intros events. apply Hgen. rewrite HpB. by repeat constructor. }
  assert (Hstream : transmitted (fileno client) (trace s3) ++ stream (pending (fileno client) s3)
                    = transmitted (fileno client) (trace s) ++ A ++ B).
  { subst s3. rewrite write_events_stream by apply (Hplain []).
    rewrite HpB, HtB. simpl. by rewrite app_nil_r. }
  split_and!.
  - done.
  - intros Hempty. rewrite Hempty in Hstream. simpl in Hstream.
    by rewrite app_nil_r in Hstream.
  - intros Hcb Hlen. apply write_events_drains; [apply (Hplain [])|done|].
    rewrite HpB. simpl. rewrite app_nil_r, length_app. lia.
  - intros earlier cb later m rest -> s' Hp s''.
    pose proof (Hplain earlier) as Hm. fold s' in Hm. rewrite Hp in Hm.
    apply Forall_cons in Hm as [Hm _].
    by destruct (write_plain client cb m rest s' Hp Hm) as (_ & Ht & Hp').
Qed.
End fifo.

Lemma send_fifo_witness :
  let H := python3 in
  let client := plain_client 5 in
  let A := [Byte.x61; Byte.x62] in
  let B := [Byte.x63] in
  let s3 := write_events client [1; 5; 1]
              (after (send client B None) (after (send client A None) idle)) in
  pending 5 idle = []
  ∧ transmitted 5 (trace s3) ++ stream (pending 5 s3) = transmitted 5 (trace idle) ++ A ++ B
  ∧ (pending 5 s3 = [] → transmitted 5 (trace s3) = transmitted 5 (trace idle) ++ A ++ B).
Proof.
  intros H client A B s3.
  assert (Hidle : pending (fileno client) idle = []) by reflexivity.
  split; [exact Hidle|].
  destruct (send_fifo client A B [1; 5; 1] idle Hidle) as (Hstream & Hdone & _).
  split; [exact Hstream|exact Hdone].
Defined.

(** * Further properties of the code *)

(** ** User code and the output queues *)

Section user_code.
Context `{JobOrder}.

Lemma queued_cons fd c calls : queued fd (c :: calls) = queued fd [c] ++ queued fd calls.
Proof. unfold queued. simpl. by destruct (match c with CallSend _ _ _ => _ | _ => _ end). Qed.

Lemma call_cons c calls raised s :
  call (Callable (c :: calls) raised) s = call (Callable calls raised) (perform c s).2.
Proof. simpl. unfold attempt. py_unfold. done. Qed.

(** One call on the server's interface: only a [send] on [fd] touches the
    queue of [fd]. *)
Lemma perform_send_queue fd c s :
  _send_queue (perform c s).2 !! fd =
  match queued fd [c] with
  | [] => _send_queue s !! fd
  | m :: _ => Some (pending fd s ++ [m])
  end.
Proof.
  destruct c as [now delay f|job|client payload cb]; simpl.
  - py_unfold. unfold schedule, new_ScheduledJob, on_job_queue. py_unfold. cbv beta iota.
    by destruct (heappush _ _ _) as [[[]|e] queue].
  - py_unfold. rewrite unschedule_eq. repeat case_match; simplify_eq; done.
  - unfold send, send_queue_getitem, deque_append, _register_write, modify, pending.
    py_unfold. cbv beta iota.
    destruct (_send_queue s !! fileno client) as [queue|] eqn:Hq; simpl;
      case_decide as Hfd; simpl; subst;
      rewrite ?lookup_alter_eq, ?lookup_alter_ne, ?lookup_insert_eq, ?lookup_insert_ne, ?Hq
        by done; done.
Qed.

Lemma call_send_queue fd calls raised s :
  let s' := (call (Callable calls raised) s).2 in
  pending fd s' = pending fd s ++ queued fd calls
  ∧ (queued fd calls = [] → _send_queue s' !! fd = _send_queue s !! fd)
  ∧ (queued fd calls ≠ [] → is_Some (_send_queue s' !! fd)).
Proof.
  revert s. induction calls as [|c calls IH]; intros s.
  { cbv zeta. assert ((call (Callable [] raised) s).2 = s) as ->.
    { simpl. by destruct raised. }
    simpl. by rewrite app_nil_r. }
  cbv zeta. rewrite call_cons.
  destruct (IH (perform c s).2) as (Hp & Hnone & Hsome).
  pose proof (perform_send_queue fd c s) as Hc.
  rewrite queued_cons.
  destruct (queued fd [c]) as [|m ms] eqn:Hone.
  - cbn [app]. split_and!.
    + rewrite Hp. unfold pending. by rewrite Hc.
    + intros Hnil. by rewrite Hnone, Hc.
    + done.
  - assert (ms = []) as ->.
    { destruct c; simpl in Hone; try done. by case_decide; simplify_eq. }
    split_and!.
    + rewrite Hp. unfold pending at 1. rewrite Hc. simpl. by rewrite <-app_assoc.
    + done.
    + intros _. destruct (queued fd calls) as [|m' ms'] eqn:Hrest.
      * rewrite Hnone, Hc; done.
      * by apply Hsome.
Qed.

Lemma call_interest fd calls raised s :
  queued fd calls = [] →
  interest (call (Callable calls raised) s).2 fd = interest s fd.
Proof.
  revert s. induction calls as [|c calls IH]; intros s Hq.
  { simpl. by destruct raised. }
  rewrite call_cons.
  rewrite queued_cons in Hq. apply app_eq_nil in Hq as [Hc Hcalls].
  rewrite IH by done.
  destruct c as [now delay f|job|client payload cb]; simpl.
  - py_unfold. unfold schedule, new_ScheduledJob, on_job_queue. py_unfold. cbv beta iota.
    by destruct (heappush _ _ _) as [[[]|e] queue].
  - py_unfold. rewrite unschedule_eq. repeat case_match; simplify_eq; done.
  - simpl in Hc. case_decide as Hfd; [done|].
    unfold send, send_queue_getitem, deque_append, _register_write, modify.
    py_unfold. cbv beta iota.
    destruct (_send_queue s !! fileno client); simpl; by rewrite fn_lookup_insert_ne.
Qed.

(** The teardown, statement by statement. *)
Lemma _clean_up_client_eq client finalize s :
  let fd := fileno client in
  let s0 := set_send_queue (delete fd (_send_queue s)) s in
  _clean_up_client client finalize s =
  match call (on_close client) (set_trace (trace s0 ++ [OnClose fd]) s0) with
  | (Raises e, s1) => (Raises e, s1)
  | (Returns _, s1) =>
      let s2 := set_trace (trace s1 ++ [SocketClose fd])
                  (set_sockets (delete fd (sockets s1)) s1) in
      if finalize then (Returns tt, s2)
      else if decide (fd ∈ _clients s1)
           then (Returns tt, set_clients (_clients s1 ∖ {[fd]}) s2)
           else (Raises KeyError, s2)
  end.
Proof.
  cbv zeta.
  assert (Hdel : (try_except (send_queue_delitem (fileno client)) is_key_error (mret tt)) s
                 = (Returns tt, set_send_queue (delete (fileno client) (_send_queue s)) s)).
  { unfold send_queue_delitem. py_unfold.
    destruct (_send_queue s !! fileno client) eqn:Hq; simpl; [done|].
    rewrite delete_id by done. by destruct s. }
  unfold _clean_up_client. rewrite bind_eq, Hdel.
  unfold emit, socket_close, clients_remove, modify. py_unfold. cbv beta iota.
  destruct (call _ _) as [[[]|e] s1]; [|done]. cbv beta iota.
  destruct finalize; simpl; [done|]. by case_decide.
Qed.
End user_code.

(** ** The teardown *)

Section teardown.
Context `{JobOrder}.

(** X1.  [_clean_up_client] throws away the output still queued for the
    connection: afterwards its queue holds only what the close hook itself
    sent on it and the key is gone if that is nothing.  The completion
    callbacks of the dropped messages are not called and nothing is written:
    the teardown records the close hook and, if that returns, the closing of
    the socket. *)
Theorem teardown_discards_output (client : Client) (finalize : bool)
    (calls : list api_call) (raised : option exn) (s : BaseServer) :
  on_close client = Callable calls raised →
  let fd := fileno client in
  let r := _clean_up_client client finalize s in
  pending fd r.2 = queued fd calls
  ∧ (queued fd calls = [] → _send_queue r.2 !! fd = None)
  ∧ trace r.2 = trace s ++ OnClose fd :: match raised with
                                          | None => [SocketClose fd]
                                          | Some _ => []
                                          end.
Proof.
  intros Hclose. cbv zeta. rewrite _clean_up_client_eq. cbv zeta. rewrite Hclose.
  set (s1 := set_trace _ _).
  destruct (call_send_queue (fileno client) calls raised s1) as (Hp & Hnone & _).
  pose proof (call_result calls raised s1) as Hr.
  pose proof (call_same_trace (Callable calls raised) s1) as Ht. unfold same_trace in Ht.
  assert (Hgone : _send_queue s1 !! fileno client = None).
  { subst s1. simpl. apply lookup_delete_eq. }
  assert (Hp1 : pending (fileno client) s1 = []).
  { unfold pending. by rewrite Hgone. }
  rewrite Hp1, app_nil_l in Hp. rewrite Hgone in Hnone.
  destruct (call _ s1) as [[[]|e] s2]; destruct raised as [e'|]; simplify_eq/=.
  - unfold pending in *.
    destruct finalize; [|case_decide]; simpl;
      (split_and!; [done|done|]); by rewrite Ht, <-app_assoc.
  - unfold pending in *. by rewrite Ht.
Qed.

(** X2.  When the close hook returns, the teardown closes the socket.  With
    [finalize] it leaves the active set alone and returns; without, it takes
    the client out of the active set, and a client that is not in it makes
    [set.remove] raise [KeyError], after the hook ran and the socket was
    closed. *)
Theorem teardown_active_set (client : Client) (finalize : bool)
    (calls : list api_call) (s : BaseServer) :
  on_close client = Callable calls None →
  let fd := fileno client in
  let r := _clean_up_client client finalize s in
  sockets r.2 = delete fd (sockets s)
  ∧ (if finalize then r.1 = Returns tt ∧ _clients r.2 = _clients s
     else if decide (fd ∈ _clients s)
          then r.1 = Returns tt ∧ _clients r.2 = _clients s ∖ {[fd]}
          else r.1 = Raises KeyError ∧ _clients r.2 = _clients s).
Proof.
  intros Hclose. cbv zeta. rewrite _clean_up_client_eq. cbv zeta. rewrite Hclose.
  set (s1 := set_trace _ _).
  pose proof (call_result calls None s1) as Hr.
  destruct (call_conn (Callable calls None) s1) as (Hc & Hs & _).
  destruct (call _ s1) as [[[]|e] s2]; simplify_eq/=.
  rewrite Hc, Hs.
  destruct finalize; [done|]. case_decide; simpl; by rewrite ?Hc, ?Hs.
Qed.

(** X3.  When the close hook raises, the teardown stops there: the exception
    comes out, the socket is not closed and the client stays in the active
    set, while the output that was queued for it is already gone. *)
Theorem teardown_close_hook_raises (client : Client) (finalize : bool)
    (calls : list api_call) (e : exn) (s : BaseServer) :
  on_close client = Callable calls (Some e) →
  let fd := fileno client in
  let r := _clean_up_client client finalize s in
  r.1 = Raises e
  ∧ sockets r.2 = sockets s
  ∧ _clients r.2 = _clients s
  ∧ pending fd r.2 = queued fd calls.
Proof.
  intros Hclose. cbv zeta. rewrite _clean_up_client_eq. cbv zeta. rewrite Hclose.
  set (s1 := set_trace _ _).
  pose proof (call_result calls (Some e) s1) as Hr.
  destruct (call_conn (Callable calls (Some e)) s1) as (Hc & Hs & _).
  destruct (call_send_queue (fileno client) calls (Some e) s1) as (Hp & _).
  assert (Hp1 : pending (fileno client) s1 = []).
  { unfold pending. subst s1. simpl. by rewrite lookup_delete_eq. }
  rewrite Hp1, app_nil_l in Hp.
  destruct (call _ s1) as [[[]|e'] s2]; simplify_eq/=.
  done.
Qed.
End teardown.

Lemma teardown_discards_output_witness :
  let H := python3 in
  let client := plain_client 5 in
  let m := Build_SendMessage [Byte.x61] (Some noop) in
  let s := set_send_queue {[5%Z := [m]]} (set_clients {[5%Z]} idle) in
  let r := _clean_up_client client false s in
  pending 5 s = [m] ∧ pending 5 r.2 = [] ∧ _send_queue r.2 !! 5%Z = None
  ∧ trace r.2 = [OnClose 5; SocketClose 5].
Proof.
  intros H client m s r.
  destruct (teardown_discards_output client false [] None s eq_refl) as (Hp & Hnone & Ht).
  split_and!; [reflexivity|exact Hp|by apply Hnone|exact Ht].
Defined.

Lemma teardown_active_set_witness :
  let H := python3 in
  let s := set_sockets {[5%Z := false]} idle in
  let r := _clean_up_client (plain_client 5) false s in
  sockets r.2 = delete 5%Z (sockets s) ∧ r.1 = Raises KeyError.
Proof.
  intros H s r.
  destruct (teardown_active_set (plain_client 5) false [] s eq_refl) as (Hs & Hr).
  split; [exact Hs|]. rewrite decide_False in Hr by (vm_compute; set_solver).
  apply Hr.
Defined.

Lemma teardown_close_hook_raises_witness :
  let H := python3 in
  let client := Build_Client 5 noop (failing (ApplicationError 3)) (λ _, noop) in
  let s := set_sockets {[5%Z := false]} (set_clients {[5%Z]} idle) in
  let r := _clean_up_client client false s in
  r.1 = Raises (ApplicationError 3) ∧ sockets r.2 = sockets s ∧ _clients r.2 = _clients s.
Proof.
  intros H client s r.
  destruct (teardown_close_hook_raises client false [] (ApplicationError 3) s eq_refl)
    as (Hr & Hs & Hc & _).
  by split_and!.
Defined.

(** ** Write events *)

Section writes.
Context `{JobOrder}.

Lemma call_interest_sent fd calls raised s :
  queued fd calls ≠ [] →
  interest (call (Callable calls raised) s).2 fd = READ_WRITE.
Proof.
  revert s. induction calls as [|c calls IH]; intros s Hq; [done|].
  rewrite call_cons.
  destruct (decide (queued fd calls = [])) as [Hnil|Hsome]; [|by apply IH].
  rewrite call_interest by done.
  rewrite queued_cons, Hnil, app_nil_r in Hq.
  destruct c as [now delay f|job|client payload cb]; simpl in Hq; try done.
  case_decide as Hfd; [|done]. subst fd. simpl.
  unfold send, send_queue_getitem, deque_append, _register_write, modify.
  py_unfold. cbv beta iota.
  destruct (_send_queue s !! fileno client); simpl; by rewrite fn_lookup_insert.
Qed.

(** What dequeuing the finished message leaves behind. *)
Lemma finish_front_state client top rest s :
  _send_queue s !! fileno client = Some (top :: rest) →
  let r := finish_front client s in
  match rest with
  | [] => _send_queue r.2 !! fileno client = None
          ∧ interest r.2 = <[fileno client := READ]> (interest s)
  | _ :: _ => _send_queue r.2 !! fileno client = Some rest ∧ interest r.2 = interest s
  end.
Proof.
  intros Hq. unfold finish_front, deque_popleft, deque_items, getattr, _register_read,
    send_queue_delitem, modify. py_unfold. rewrite Hq. cbv beta iota. simpl.
  rewrite lookup_alter_eq, Hq. simpl. rewrite drop_0.
  destruct rest as [|m rest]; simpl.
  - rewrite lookup_alter_eq, Hq. simpl. by rewrite lookup_delete_eq.
  - by rewrite lookup_alter_eq, Hq.
Qed.

(** X4.  A write-readiness event in which the transport takes less than is
    left of the front message: the message keeps what was not taken, its
    callback is not called, nothing is dequeued and nothing else changes. *)
Theorem write_partial (client : Client) (cb : nat) (m : SendMessage)
    (rest : list SendMessage) (s : BaseServer) :
  _send_queue s !! fileno client = Some (m :: rest) →
  cb < length (data m) →
  let fd := fileno client in
  _nonblock_write client (Returns cb) s
  = (Returns tt,
     set_send_queue
       (<[fd := Build_SendMessage (drop cb (data m)) (callback m) :: rest]> (_send_queue s))
       (set_trace (trace s ++ [SocketSend fd (data m) (Returns cb)]) s)).
Proof.
  intros Hq Hcb. cbv zeta. rewrite (_nonblock_write_sent client cb m rest s Hq).
  destruct (drop cb (data m)) as [|b remaining] eqn:Hdrop.
  { apply (f_equal length) in Hdrop. rewrite length_drop in Hdrop. simpl in Hdrop. lia. }
  rewrite <-Hdrop. unfold after_write. do 2 f_equal.
  apply map_eq. intros fd. rewrite lookup_alter, lookup_insert.
  case_decide as Hfd; [|done]. subst fd. by rewrite Hq.
Qed.

(** X5.  A write-readiness event that finishes the front message, its
    callback (if any) returning: the rest of the queue stays, followed by
    what the callback sent on this connection.  If that leaves nothing, the
    key is deleted from the queue mapping and the connection registered for
    reading; otherwise the key stays bound, and the registration of the
    connection is as the callback left it. *)
Theorem write_finishes_message (client : Client) (cb : nat) (m : SendMessage)
    (rest : list SendMessage) (calls : list api_call) (s : BaseServer) :
  _send_queue s !! fileno client = Some (m :: rest) →
  length (data m) ≤ cb →
  (callback m = None ∧ calls = []) ∨ callback m = Some (Callable calls None) →
  let fd := fileno client in
  let r := _nonblock_write client (Returns cb) s in
  r.1 = Returns tt
  ∧ pending fd r.2 = rest ++ queued fd calls
  ∧ match rest ++ queued fd calls with
    | [] => _send_queue r.2 !! fd = None ∧ interest r.2 fd = READ
    | remaining =>
        _send_queue r.2 !! fd = Some remaining
        ∧ interest r.2 fd = match queued fd calls with
                            | [] => interest s fd
                            | _ => READ_WRITE
                            end
    end.
Proof.
  intros Hq Hcb Hcallback. cbv zeta.
  rewrite (_nonblock_write_sent client cb m rest s Hq), drop_ge by done.
  pose proof (after_write_front client cb m rest s Hq) as Hfront.
  assert (Hinterest : interest (after_write client cb m s) = interest s) by done.
  set (s1 := after_write client cb m s) in *. clearbody s1.
  assert (Hcall : ∃ s3,
    (match callback m with
     | Some f => completion client f
     | None => mret true
     end) s1 = (Returns true, s3)
    ∧ _send_queue s3 !! fileno client
      = Some (stripped cb m :: rest ++ queued (fileno client) calls)
    ∧ interest s3 (fileno client)
      = match queued (fileno client) calls with
        | [] => interest s (fileno client)
        | _ => READ_WRITE
        end).
  { destruct Hcallback as [[-> ->]| ->].
    { exists s1. rewrite ret_eq, app_nil_r, Hinterest. by simpl. }
    rewrite completion_eq.
    set (s2 := set_trace (trace s1 ++ [WriteCallback (fileno client)]) s1).
    pose proof (call_result calls None s2) as Hr.
    destruct (call_send_queue (fileno client) calls None s2) as (Hp & Hnone & Hsome).
    pose proof (call_interest (fileno client) calls None s2) as Hi.
    pose proof (call_interest_sent (fileno client) calls None s2) as Hi'.
    destruct (call (Callable calls None) s2) as [[[]|e] s3]; cbn [fst snd] in *; [|done].
    exists s3. split; [done|].
    assert (Hp2 : pending (fileno client) s2 = stripped cb m :: rest).
    { unfold pending. subst s2. simpl. by rewrite Hfront. }
    rewrite Hp2 in Hp. split.
    - destruct (queued (fileno client) calls) as [|m' ms] eqn:Hqd.
      + rewrite Hnone by done. subst s2. simpl. by rewrite Hfront, app_nil_r.
      + destruct (Hsome ltac:(done)) as [queue Hqueue].
        unfold pending in Hp. rewrite Hqueue in Hp. simpl in Hp. by rewrite Hqueue, Hp.
    - destruct (queued (fileno client) calls) as [|m' ms] eqn:Hqd.
      + rewrite Hi by done. subst s2. simpl. by rewrite Hinterest.
      + by rewrite Hi'. }
  destruct Hcall as (s3 & Hrun & Hq3 & Hi3).
  unfold try_except. rewrite bind_eq, Hrun.
  destruct (finish_front_spec client _ _ s3 Hq3) as (Hr & _ & Hp & _).
  pose proof (finish_front_state client _ _ s3 Hq3) as Hstate. cbv zeta in Hstate.
  destruct (finish_front client s3) as [[[]|e] s4]; cbn [fst snd] in *; [|done].
  split_and!; [done..|].
  destruct (rest ++ queued (fileno client) calls) as [|m' remaining] eqn:Hleft.
  - destruct Hstate as [-> ->]. by rewrite fn_lookup_insert.
  - destruct Hstate as [-> ->]. by rewrite Hi3.
Qed.
End writes.

Lemma write_partial_witness :
  let H := python3 in
  let client := plain_client 5 in
  let m := Build_SendMessage [Byte.x61; Byte.x62; Byte.x63] (Some noop) in
  let s := set_send_queue {[5%Z := [m]]} (set_clients {[5%Z]} idle) in
  _nonblock_write client (Returns 2) s
  = (Returns tt,
     set_send_queue (<[5%Z := [Build_SendMessage [Byte.x63] (Some noop)]]> (_send_queue s))
       (set_trace [SocketSend 5 [Byte.x61; Byte.x62; Byte.x63] (Returns 2)] s)).
Proof.
  intros H client m s.
  assert (Hq : _send_queue s !! fileno client = Some [m]) by reflexivity.
  assert (Hcb : 2 < length (data m)) by (simpl; lia).
  exact (write_partial client 2 m [] s Hq Hcb).
Defined.

Lemma write_finishes_message_witness :
  let H := python3 in
  let client := plain_client 5 in
  let again := CallSend client [Byte.x62] None in
  let m := Build_SendMessage [Byte.x61] (Some (Callable [again] None)) in
  let s := set_send_queue {[5%Z := [m]]} (set_clients {[5%Z]} idle) in
  let r := _nonblock_write client (Returns 1) s in
  r.1 = Returns tt
  ∧ pending 5 r.2 = [Build_SendMessage [Byte.x62] None]
  ∧ interest r.2 5%Z = READ_WRITE.
Proof.
  intros H client again m s r.
  assert (Hq : _send_queue s !! fileno client = Some [m]) by reflexivity.
  assert (Hcb : length (data m) ≤ 1) by (simpl; lia).
  destruct (write_finishes_message client 1 m [] [again] s Hq Hcb (or_intror eq_refl))
    as (Hr & Hp & Hstate).
  split_and!; [exact Hr|exact Hp|apply Hstate].
Defined.

Section write_errors.
Context `{JobOrder}.

(** The write event when [send] raises. *)
Lemma _nonblock_write_raised client e m rest s :
  _send_queue s !! fileno client = Some (m :: rest) →
  let s1 := set_trace (trace s ++ [SocketSend (fileno client) (data m) (Raises e)]) s in
  _nonblock_write client (Raises e) s =
  if is_socket_error e then _clean_up_client client false s1 else (Raises e, s1).
Proof.
  intros Hq. unfold _nonblock_write, send_queue_getitem, deque_front, socket_send.
  py_unfold. cbv zeta. rewrite Hq. cbv beta iota. state_simpl. rewrite Hq. cbv beta iota.
  done.
Qed.

(** X6.  A write-readiness event whose [send] raises [socket.error] tears
    the connection down: the message is left as it was up to then, its
    callback is not called, and with the client in the active set and a
    close hook that returns the event returns normally, the client leaves
    the active set and its socket is closed.  Any other exception of [send]
    comes out of the event and changes nothing. *)
Theorem write_socket_error (client : Client) (e : exn) (m : SendMessage)
    (rest : list SendMessage) (calls : list api_call) (s : BaseServer) :
  _send_queue s !! fileno client = Some (m :: rest) →
  on_close client = Callable calls None →
  let fd := fileno client in
  let r := _nonblock_write client (Raises e) s in
  let wrote := SocketSend fd (data m) (Raises e) in
  match e with
  | SocketError =>
      trace r.2 = trace s ++ [wrote; OnClose fd; SocketClose fd]
      ∧ pending fd r.2 = queued fd calls
      ∧ (fd ∉ _clients r.2) ∧ sockets r.2 !! fd = None
      ∧ (fd ∈ _clients s → r.1 = Returns tt)
  | _ => r = (Raises e, set_trace (trace s ++ [wrote]) s)
  end.
Proof.
  intros Hq Hclose. cbv zeta. rewrite (_nonblock_write_raised client e m rest s Hq).
  cbv zeta. destruct e; try done. cbn [is_socket_error].
  set (s1 := set_trace _ s).
  destruct (_clean_up_client_trace client calls None s1 Hclose) as (Ht & Hnot & Hsock & _ & Hin).
  rewrite _clean_up_client_eq in *. cbv zeta in *. rewrite Hclose in *.
  set (s2 := set_trace _ (set_send_queue _ s1)) in *.
  destruct (call_send_queue (fileno client) calls None s2) as (Hp & _).
  assert (Hp2 : pending (fileno client) s2 = []).
  { unfold pending. subst s2. simpl. by rewrite lookup_delete_eq. }
  rewrite Hp2, app_nil_l in Hp.
  destruct (call _ s2) as [[[]|e] s3]; cbn [fst snd] in *.
  - split_and!; try done.
    + rewrite Ht. subst s1. simpl. by rewrite <-app_assoc.
    + by case_decide.
  - split_and!; try done. rewrite Ht. subst s1. simpl. by rewrite <-app_assoc.
Qed.

(** X7.  Whatever a write-readiness event does to its own connection, every
    other connection keeps its place in the active set, its socket and the
    output queued for it. *)
Theorem write_event_isolated (client : Client) (sent : outcome nat) (s : BaseServer) :
  others_kept (fileno client) s (after (_nonblock_write client sent) s).
Proof.
  revert s. change (steps (others_kept (fileno client)) (_nonblock_write client sent)).
  assert (Hcall : ∀ f, steps (others_kept (fileno client)) (call f)).
  { intros f s. apply conn_grows_others, call_conn. }
  unfold _nonblock_write. cbv zeta. steps_split;
    try apply _clean_up_client_others; try apply Hcall;
    try (by intros s fd' Hne).
  - intros s fd' Hne. unfold send_queue_getitem, pending.
    destruct (_send_queue s !! fileno client); simpl; [done|].
    by rewrite lookup_insert_ne.
  - intros s fd' Hne. unfold deque_front. repeat case_match; simpl; done.
  - intros s fd' Hne. unfold pending. simpl. by rewrite lookup_alter_ne.
  - intros s fd' Hne. unfold deque_popleft, pending.
    destruct (_send_queue s !! fileno client) as [[|top rest]|]; simpl; try done.
    by rewrite lookup_alter_ne.
  - intros s fd' Hne. unfold send_queue_delitem, pending.
    destruct (_send_queue s !! fileno client); simpl; [|done].
    by rewrite lookup_delete_ne.
Qed.
End write_errors.

Lemma write_socket_error_witness :
  let H := python3 in
  let client := plain_client 5 in
  let m := Build_SendMessage [Byte.x61] (Some noop) in
  let s := set_send_queue {[5%Z := [m]]} (set_clients {[5%Z]} idle) in
  let r := _nonblock_write client (Raises SocketError) s in
  r.1 = Returns tt
  ∧ trace r.2 = [SocketSend 5 [Byte.x61] (Raises SocketError); OnClose 5; SocketClose 5]
  ∧ pending 5 r.2 = [].
Proof.
  intros H client m s r.
  assert (Hq : _send_queue s !! fileno client = Some [m]) by reflexivity.
  destruct (write_socket_error client SocketError m [] [] s Hq eq_refl)
    as (Ht & Hp & _ & _ & Hr).
  split_and!; [|exact Ht|exact Hp].
  apply Hr. change (5%Z ∈ ({[5%Z]} : gset Z)). by apply elem_of_singleton.
Defined.

(** ** Python 3: jobs cannot be compared *)

Section python3_facts.
#[local] Existing Instance python3.

(** Pushing on a heap that is not empty compares the new item with its
    parent. *)
Lemma heappush_python3 (item : nat) (heap : list nat) :
  heap ≠ [] → heappush job_lt item heap = (Raises TypeError, heap ++ [item]).
Proof.
  intros Hne. unfold heappush, siftdown. heap_unfold. cbv beta iota.
  assert (Hlen : length (heap ++ [item]) - 1 = length heap).
  { rewrite length_app. simpl. lia. }
  rewrite Hlen. rewrite decide_False by (rewrite length_app; simpl; lia).
  destruct (length heap) as [|n] eqn:Hn.
  { by destruct heap. }
  cbn [siftdown_loop]. rewrite decide_True by lia. heap_unfold.
  rewrite (list_lookup_middle heap [] item (S n)) by done. cbv beta iota.
  assert (Hparent : (S n - 1) / 2 < length (heap ++ [item])).
  { rewrite length_app. simpl.
    pose proof (Nat.Div0.div_le_upper_bound (S n - 1) 2 (S n - 1)). lia. }
  destruct (lookup_lt_is_Some_2 _ _ Hparent) as [parent ->]. done.
Qed.

(** Re-arranging a heap of two or more entries compares two of them. *)
Lemma siftup_python3 (heap : list nat) :
  2 ≤ length heap → ∃ heap', siftup job_lt 0 heap = (Raises TypeError, heap') .
Proof.
  intros Hlen. destruct heap as [|a [|b [|c heap]]]; simpl in Hlen; try lia.
  { eexists. vm_compute. reflexivity. }
  unfold siftup. heap_unfold. cbv beta iota.
  rewrite decide_False by (simpl; lia).
  cbn [length siftup_loop].
  assert (Hhalf : 0 < S (S (S (length heap))) / 2).
  { pose proof (Nat.Div0.mul_div_le (S (S (S (length heap)))) 2).
    pose proof (Nat.mod_upper_bound (S (S (S (length heap)))) 2).
    pose proof (Nat.div_mod_eq (S (S (S (length heap)))) 2). lia. }
  rewrite decide_True by done.
  change (2 * 0 + 1) with 1. change (1 + 1) with 2.
  rewrite decide_True by lia. heap_unfold. simpl. by eexists.
Qed.

Lemma heappop_python3 (top second third : nat) (rest : list nat) :
  (heappop job_lt (top :: second :: third :: rest)).1 = Raises TypeError.
Proof.
  destruct (exists_last (l := second :: third :: rest) ltac:(done)) as (front & lastelt & Heq).
  rewrite Heq, app_comm_cons, heappop_snoc.
  destruct (siftup_python3 (lastelt :: front)) as [heap' ->]; [|done].
  apply (f_equal length) in Heq. rewrite length_app in Heq. simpl in *. lia.
Qed.

(** X8.  Under Python 3 every [schedule] on a heap that is not empty raises
    [TypeError] out of [heappush], after the job was made and appended to
    the heap: the caller gets no handle, and the job stays scheduled. *)
Theorem python3_schedule_raises (now delay : Q) (func : callable) (s : BaseServer) :
  _job_queue s ≠ [] →
  let r := schedule now delay func s in
  r.1 = Raises TypeError
  ∧ jobs r.2 = jobs s ++ [Build_ScheduledJob (now + delay) func false false]
  ∧ _job_queue r.2 = _job_queue s ++ [length (jobs s)].
Proof.
  intros Hne. unfold schedule, new_ScheduledJob, on_job_queue. py_unfold. cbv beta iota.
  state_simpl. by rewrite heappush_python3.
Qed.

(** X9.  Under Python 3 a tick that finds the front job due in a heap of
    three or more raises [TypeError] out of [heappop]: no function is
    called, no job is marked dispatched, and the front job is gone from the
    heap, which keeps the others. *)
Theorem python3_tick_loses_job (t : Q) (s : BaseServer) (top second third : nat)
    (rest : list nat) (j : ScheduledJob) :
  _job_queue s = top :: second :: third :: rest →
  jobs s !! top = Some j →
  (time j <= t)%Q →
  let r := _dispatch_event t s in
  r.1 = Raises TypeError
  ∧ jobs r.2 = jobs s
  ∧ trace r.2 = trace s
  ∧ _job_queue r.2 ≡ₚ second :: third :: rest.
Proof.
  intros Hq Hj Ht. cbv zeta. rewrite _dispatch_event_eq, drain_S, Hq, Hj.
  assert (Qgt_dec (time j - t) 0 = false) as ->.
  { apply Qgt_dec_false. lra. }
  pose proof (heappop_python3 top second third rest) as Hpop.
  destruct (heappop_cons job_lt top (second :: third :: rest)) as [Hperm _].
  cbv zeta in Hperm.
  destruct (heappop job_lt (top :: second :: third :: rest)) as [[task|e] queue];
    cbn [fst snd] in *; [done|].
  by injection Hpop as ->.
Qed.
End python3_facts.

Lemma python3_schedule_raises_witness :
  let H := python3 in
  let s := step (Schedule 0 1 noop) idle in
  let r := schedule 0 2 noop s in
  r.1 = Raises TypeError ∧ _job_queue r.2 = [0; 1].
Proof.
  intros H s r.
  destruct (python3_schedule_raises 0 2 noop s) as (Hr & _ & Hq); [done|].
  by split.
Defined.

Lemma python3_tick_loses_job_witness :
  let H := python3 in
  let s := run [Schedule 0 1 noop; Schedule 0 2 noop; Schedule 0 3 noop] idle in
  let r := _dispatch_event 5 s in
  r.1 = Raises TypeError ∧ jobs r.2 = jobs s ∧ _job_queue r.2 ≡ₚ [1; 2].
Proof.
  intros H s r.
  destruct (python3_tick_loses_job 5 s 0 1 2 []
              (Build_ScheduledJob (0 + 1) noop false false))
    as (Hr & Hj & _ & Hq); [reflexivity|reflexivity|done|].
  by split_and!.
Defined.

(** ** What a tick calls *)

Section tick_calls.
Context `{JobOrder}.

(** The ready list is called from the front, up to the first call that
    raises. *)
Lemma run_tasks_called t tasks s :
  let r := run_tasks t tasks s in
  ∃ called, called `prefix_of` tasks
    ∧ invocations (trace r.2) = invocations (trace s) ++ ((λ job, (job, t)) <$> called)
    ∧ (r.1 = Returns tt → called = tasks).
Proof.
  revert s. induction tasks as [|task tasks IH]; intros s; cbv zeta.
  { exists []. simpl. by rewrite app_nil_r. }
  rewrite run_tasks_cons. destruct (jobs s !! task) as [j|].
  2: { exists []. simpl. rewrite app_nil_r. split_and!; [apply prefix_nil|done..]. }
  set (s1 := set_trace (trace s ++ [JobFunc task t]) s).
  pose proof (calm_invocations _ _ (call_calm (func j) s1)) as Hcall.
  assert (Hs1 : invocations (trace s1) = invocations (trace s) ++ [(task, t)]).
  { subst s1. simpl. by rewrite invocations_app. }
  destruct (call (func j) s1) as [[[]|e] s2]; cbn [fst snd] in *.
  - destruct (IH s2) as (called & Hpre & Htrace & Hall). exists (task :: called).
    split_and!.
    + by apply prefix_cons.
    + rewrite Htrace, Hcall, Hs1, <-app_assoc. done.
    + intros Hr. by rewrite Hall.
  - exists [task]. split_and!; [|by rewrite Hcall, Hs1|done].
    apply prefix_cons, prefix_nil.
Qed.

(** X10.  A tick calls jobs of its ready list and nothing else: the list is
    fixed when the loop stops popping, it is made of jobs that were in the
    heap when the tick began, and the functions are called in the order of
    the list, each with the tick's clock reading, up to the first that
    raises; a tick that returns has called them all.  So a job that one of
    these functions schedules is not called by this tick, however early its
    fire time, and nothing these functions do takes a ready job off the
    list. *)
Theorem tick_calls_ready (t : Q) (s : BaseServer) :
  let r := _dispatch_event t s in
  ready t s ⊆ _job_queue s
  ∧ ∃ called, called `prefix_of` ready t s
      ∧ invocations (trace r.2) = invocations (trace s) ++ ((λ job, (job, t)) <$> called)
      ∧ (∀ dt, r.1 = Returns dt → called = ready t s).
Proof.
  cbv zeta. unfold ready. rewrite _dispatch_event_eq.
  pose proof (drain_tasks (S (length (_job_queue s))) t [] s) as Htasks.
  pose proof (drain_same_trace (S (length (_job_queue s))) t [] s) as Htrace.
  destruct (drain _ _ _ _) as [[[dt tasks]|e] s1]; cbn [fst snd] in *.
  2: { split; [by intros job ?%elem_of_nil|]. exists []. rewrite Htrace. simpl.
       by rewrite app_nil_r. }
  split; [by apply (Htasks dt tasks)|].
  destruct (run_tasks_called t tasks s1) as (called & Hpre & Hcalled & Hall).
  exists called. rewrite <-Htrace.
  destruct (run_tasks t tasks s1) as [[[]|e] s2]; cbn [fst snd] in *; [|done].
  split_and!; [done..|]. intros _ _. by apply Hall.
Qed.

Lemma run_tasks_raises_called t before job rest j calls e s0 s :
  evolves s0 s →
  (∀ r, r ∈ before →
     ∃ jr calls_r, jobs s0 !! r = Some jr ∧ func jr = Callable calls_r None) →
  jobs s0 !! job = Some j →
  func j = Callable calls (Some e) →
  invocations (trace (run_tasks t (before ++ job :: rest) s).2)
  = invocations (trace s) ++ ((λ job, (job, t)) <$> before ++ [job]).
Proof.
  intros Hev Hbefore Hj Hf. revert s Hev.
  induction before as [|b before IH]; intros s Hev; simpl app; rewrite run_tasks_cons.
  - destruct (Hev _ _ Hj) as (j' & -> & _ & Hf' & _). rewrite Hf', Hf.
    set (s1 := set_trace _ s).
    pose proof (call_result calls (Some e) s1) as Hres.
    pose proof (calm_invocations _ _ (call_calm (Callable calls (Some e)) s1)) as Hcall.
    destruct (call _ s1) as [[[]|e'] s2]; cbn [fst snd] in *; [done|].
    rewrite Hcall. subst s1. simpl. by rewrite invocations_app.
  - destruct (Hbefore b ltac:(by left)) as (jb & calls_b & Hjb & Hfb).
    destruct (Hev _ _ Hjb) as (jb' & -> & _ & Hfb' & _). rewrite Hfb', Hfb.
    set (s1 := set_trace _ s).
    pose proof (call_result calls_b None s1) as Hres.
    pose proof (calm_invocations _ _ (call_calm (Callable calls_b None) s1)) as Hcall.
    pose proof (calm_evolves' _ (call_calm (Callable calls_b None)) s1) as Hev1.
    destruct (call _ s1) as [[[]|e'] s2]; cbn [fst snd] in *; [|done].
    rewrite IH.
    + rewrite Hcall. subst s1. simpl. by rewrite invocations_app, <-app_assoc.
    + intros r Hin. apply Hbefore. by right.
    + etrans; [exact Hev|]. etrans; [|exact Hev1]. by apply evolves_same_jobs.
Qed.

(** X11.  When a job function raises, the jobs behind it in the ready list
    are lost: they were popped and marked dispatched before any function
    ran, so they are not in the heap, the tick did not call them, and no
    later event ever will. *)
Theorem raising_action_loses_rest (t : Q) (s : BaseServer) (before rest : list nat)
    (job : nat) (j : ScheduledJob) (calls : list api_call) (e : exn) :
  sched_inv s →
  ready t s = before ++ job :: rest →
  (∀ r, r ∈ before →
     ∃ jr calls_r, jobs (drained t s) !! r = Some jr ∧ func jr = Callable calls_r None) →
  jobs (drained t s) !! job = Some j →
  func j = Callable calls (Some e) →
  let s' := after (_dispatch_event t) s in
  ∀ lost, lost ∈ rest →
    (∃ jl, jobs s' !! lost = Some jl ∧ dispatched jl = true)
    ∧ (lost ∉ _job_queue s')
    ∧ ∀ more, lost ∉ (invocations (trace (run more s'))).*1.
Proof.
  intros Hinv Hready Hbefore Hj Hf s' lost Hlost.
  assert (Hinv' : sched_inv s') by by apply _dispatch_event_inv.
  assert (Hnil : pending_calls t [] s).
  { split; [constructor|]. by intros ? ?%elem_of_nil. }
  destruct (drain_inv (S (length (_job_queue s))) t [] s ltac:(lia) Hinv Hnil)
    as (_ & Hsame & Hpend).
  revert s' Hinv'. unfold after, ready, drained, after in *. rewrite _dispatch_event_eq.
  destruct (drain _ _ _ _) as [[[dt tasks]|e'] s1]; cbn [fst snd] in *.
  2: { by destruct before. }
  subst tasks. destruct (Hpend _ _ eq_refl) as [Hnd Hjobs].
  pose proof (run_tasks_raises_called t before job rest j calls e s1 s1
                ltac:(reflexivity) Hbefore Hj Hf) as Hcalled.
  pose proof (run_tasks_evolves t (before ++ job :: rest) s1) as Hev.
  destruct (Hjobs lost) as (Huncalled & jl & Hjl & Hd & _).
  { apply elem_of_app. right. by right. }
  destruct (Hev _ _ Hjl) as (jl' & Hjl' & _ & _ & _ & Hd').
  destruct (Hd' Hd) as [Hd'' _].
  assert (Hnot : lost ∉ (invocations (trace (run_tasks t (before ++ job :: rest) s1).2)).*1).
  { rewrite Hcalled, fmap_app, <-list_fmap_compose.
    intros [Hin|Hin]%elem_of_app; [done|].
    change ((λ job0, (job0, t).1) <$> before ++ [job]) with (id <$> before ++ [job]) in Hin.
    rewrite list_fmap_id in Hin.
    apply NoDup_app in Hnd as (_ & Hdisj & [Hjob _]%NoDup_cons).
    apply elem_of_app in Hin as [Hin| ->%list_elem_of_singleton].
    - apply (Hdisj _ Hin). by right.
    - done. }
  assert (Hgoal : ∀ s2, s2 = (run_tasks t (before ++ job :: rest) s1).2 → sched_inv s2 →
    (∃ jl0, jobs s2 !! lost = Some jl0 ∧ dispatched jl0 = true)
    ∧ (lost ∉ _job_queue s2)
    ∧ ∀ more, lost ∉ (invocations (trace (run more s2))).*1).
  { intros s2 -> Hinv2. split_and!.
    - eauto.
    - intros Hin. destruct (inv_queue_fresh _ Hinv2 _ Hin) as (j0 & Hj0 & ?). congruence.
    - intros more ([job' t'] & -> & Hin)%list_elem_of_fmap.
      apply (dispatched_not_called more _ job' jl') in Hin; [|done..].
      apply Hnot. apply list_elem_of_fmap. by exists (job', t'). }
  destruct (run_tasks _ _ _) as [[[]|e'] s2]; cbn [fst snd] in *;
    intros Hinv2; by apply Hgoal.
Qed.
End tick_calls.

Lemma raising_action_loses_rest_witness :
  let H := python2 descending in
  let s := run [Schedule 0 0 noop; Schedule 0 0 (failing (ApplicationError 1))] idle in
  let s' := after (_dispatch_event 0) s in
  ready 0 s = [1; 0]
  ∧ (0 ∉ _job_queue s')
  ∧ invocations (trace (run [Tick 1] s')) = [(1, 0%Q)].
Proof.
  intros H s s'.
  assert (Hinv : sched_inv s) by apply run_inv, init_inv.
  assert (Hready : ready 0 s = [] ++ 1 :: [0]) by reflexivity.
  assert (Hbefore : ∀ r, r ∈ [] →
    ∃ jr calls_r, jobs (drained 0 s) !! r = Some jr ∧ func jr = Callable calls_r None).
  { by intros r ?%elem_of_nil. }
  assert (Hlost : 0 ∈ [0]) by by left.
  destruct (raising_action_loses_rest 0 s [] [0] 1
              (Build_ScheduledJob (0 + 0) (failing (ApplicationError 1)) false true)
              [] (ApplicationError 1) Hinv Hready Hbefore eq_refl eq_refl 0 Hlost)
    as (_ & Hgone & _).
  split_and!; [exact Hready|exact Hgone|reflexivity].
Defined.

(** ** The heap and the job objects *)

#[local] Instance keeps_queued_preorder : PreOrder keeps_queued.
Proof. split; [by intros s Hs|]. intros s1 s2 s3 H12 H23 Hs. by apply H23, H12. Qed.

Lemma keeps_queued_same_sched s s' : same_sched s s' → keeps_queued s s'.
Proof. intros (Hj & Hq & _) Hs job j. rewrite Hj, Hq. apply Hs. Qed.

Lemma steps_keeps_queued {A} (m : py BaseServer A) :
  steps same_sched m → steps keeps_queued m.
Proof. apply steps_weaken, keeps_queued_same_sched. Qed.

Ltac queued_solve :=
  steps_split;
  try first
    [ assumption
    | apply steps_keeps_queued; solve [auto with frame | apply emit_frame; done] ].

Section no_job_lost.
Context `{JobOrder}.

Lemma schedule_queued now delay func : steps keeps_queued (schedule now delay func).
Proof.
  intros s Hs job j. destruct (schedule_after now delay func s) as (Hj & Hq & _).
  unfold after in *. rewrite Hj, Hq. intros Hjob Hd.
  destruct (decide (job = length (jobs s))) as [->|Hne]; [by left|]. right.
  apply (Hs job j); [|done]. apply lookup_lt_Some in Hjob as Hlt.
  rewrite length_app in Hlt. simpl in Hlt.
  by rewrite lookup_app_l in Hjob by lia.
Qed.

Lemma unschedule_queued job : steps keeps_queued (unschedule job).
Proof.
  intros s Hs job' j'. rewrite unschedule_eq.
  destruct (jobs s !! job) as [j|] eqn:Hj; [|apply Hs].
  destruct (dispatched j || cancel j) eqn:Hflags; [apply Hs|]. simpl.
  apply orb_false_iff in Hflags as [Hd _].
  destruct (decide (job' = job)) as [->|Hne].
  - intros _ _. by apply (Hs job j).
  - rewrite list_lookup_insert_ne by done. apply Hs.
Qed.

Lemma send_queued client payload callback : steps keeps_queued (send client payload callback).
Proof. unfold send. queued_solve. Qed.

Lemma perform_queued c : steps keeps_queued (perform c).
Proof.
  destruct c; simpl; queued_solve;
    auto using schedule_queued, unschedule_queued, send_queued.
Qed.

Lemma call_queued f : steps keeps_queued (call f).
Proof.
  destruct f as [calls raised]. simpl.
  induction calls as [|c calls IH]; simpl.
  - destruct raised; simpl; queued_solve.
  - queued_solve. intros s. apply perform_queued.
Qed.

Lemma _clean_up_client_queued client finalize :
  steps keeps_queued (_clean_up_client client finalize).
Proof. unfold _clean_up_client. queued_solve. apply call_queued. Qed.

Lemma _accept_queued : steps keeps_queued _accept.
Proof. unfold _accept. queued_solve. apply call_queued. Qed.

Lemma _nonblock_read_queued client received :
  steps keeps_queued (_nonblock_read client received).
Proof.
  unfold _nonblock_read. queued_solve; auto using _clean_up_client_queued, call_queued.
Qed.

Lemma _nonblock_write_queued client sent :
  steps keeps_queued (_nonblock_write client sent).
Proof.
  unfold _nonblock_write. queued_solve; auto using _clean_up_client_queued, call_queued.
Qed.

Lemma run_tasks_queued t tasks : steps keeps_queued (run_tasks t tasks).
Proof.
  induction tasks as [|task tasks IH]; intros s; [by intros ?|].
  rewrite run_tasks_cons. destruct (jobs s !! task) as [j|]; [|by intros ?].
  set (s1 := set_trace _ s).
  pose proof (call_queued (func j) s1) as Hcall.
  assert (Hs1 : keeps_queued s s1) by by intros ?.
  destruct (call (func j) s1) as [[[]|e] s2]; cbn [fst snd] in *.
  - etrans; [exact Hs1|]. etrans; [exact Hcall|]. apply IH.
  - by etrans.
Qed.

Context (job_lt_returns : ∀ a b, ∃ c, job_lt a b = Returns c).

Lemma drain_queued fuel t tasks : steps keeps_queued (drain fuel t tasks).
Proof.
  revert tasks. induction fuel as [|fuel IH]; intros tasks s; [by intros ?|].
  rewrite drain_S.
  destruct (_job_queue s) as [|top rest] eqn:Hq; [by intros ?|].
  destruct (jobs s !! top) as [jt|] eqn:Hjt; [|by intros ?].
  destruct (Qgt_dec (time jt - t) 0); [by intros ?|].
  destruct (heappop_cons job_lt top rest) as [Hperm _]. cbv zeta in Hperm.
  destruct (heappop_returns job_lt job_lt_returns top rest) as [queue Hpop].
  rewrite Hpop in Hperm |- *. cbv zeta. cbn [fst snd] in *.
  set (s1 := set_jobs _ _).
  assert (Hs1 : keeps_queued s s1).
  { intros Hs job j. subst s1. state_simpl. rewrite Hperm, list_lookup_alter.
    case_decide as Hjob.
    - subst job. rewrite Hjt. by intros [= <-].
    - intros Hj Hd. pose proof (Hs job j Hj Hd) as Hin. rewrite Hq in Hin.
      by apply elem_of_cons in Hin as [->|Hin]. }
  destruct (jobs s1 !! top); [|done]. etrans; [exact Hs1|apply IH].
Qed.

Lemma _dispatch_event_queued t : steps keeps_queued (_dispatch_event t).
Proof.
  intros s. rewrite _dispatch_event_eq.
  pose proof (drain_queued (S (length (_job_queue s))) t [] s) as Hdrain.
  destruct (drain _ _ _ _) as [[[dt tasks]|e] s1]; [|done]. cbn [fst snd] in *.
  pose proof (run_tasks_queued t tasks s1) as Hrun.
  destruct (run_tasks _ _ _) as [[[]|e] s2]; cbn [fst snd] in *; by etrans.
Qed.

Lemma step_queued o s : keeps_queued s (step o s).
Proof.
  destruct o; simpl; unfold after;
    first [ apply schedule_queued | apply unschedule_queued | apply send_queued
          | apply _accept_queued | apply _nonblock_read_queued
          | apply _nonblock_write_queued | apply _clean_up_client_queued
          | apply _dispatch_event_queued ].
Qed.

Lemma run_queued ops s : keeps_queued s (run ops s).
Proof.
  revert s. induction ops as [|o ops IH]; intros s; simpl; [reflexivity|].
  etrans; [apply (step_queued o)|apply IH].
Qed.
End no_job_lost.

(** X12.  In every state the server can reach, the heap holds no job twice
    and only jobs that are not yet marked dispatched: a job that a tick has
    popped never enters the heap again. *)
Theorem heap_holds_undispatched `{JobOrder} (factory : Z → Client) (waiting : list Z)
    (ops : list op) :
  let s := run ops (__init__ factory waiting) in
  NoDup (_job_queue s)
  ∧ ∀ job, job ∈ _job_queue s → ∃ j, jobs s !! job = Some j ∧ dispatched j = false.
Proof.
  intros s. assert (Hinv : sched_inv s) by apply run_inv, init_inv.
  split; [apply Hinv|]. apply (inv_queue_fresh _ Hinv).
Qed.

(** X13.  When comparing jobs does not raise, no job is lost: in every state
    the server can reach, a job is in the heap exactly as long as it is not
    marked dispatched. *)
Theorem no_job_lost `{JobOrder} (factory : Z → Client) (waiting : list Z)
    (ops : list op) (job : nat) (j : ScheduledJob) :
  (∀ a b, ∃ c, job_lt a b = Returns c) →
  let s := run ops (__init__ factory waiting) in
  jobs s !! job = Some j →
  job ∈ _job_queue s ↔ dispatched j = false.
Proof.
  intros Hlt s Hj. split.
  - intros Hin. assert (Hinv : sched_inv s) by apply run_inv, init_inv.
    destruct (inv_queue_fresh _ Hinv _ Hin) as (j' & Hj' & Hd). congruence.
  - apply (run_queued Hlt ops (__init__ factory waiting)); [|done].
    by intros job' j' ?.
Qed.

Lemma no_job_lost_witness :
  let H := python2 descending in
  let s := run [Schedule 0 1 noop; Schedule 0 3 noop; Tick 5; Schedule 5 1 noop] idle in
  2 ∈ _job_queue s ∧ ¬ (0 ∈ _job_queue s).
Proof.
  intros H s.
  assert (Hlt : ∀ a b, ∃ c, job_lt a b = Returns c) by (intros a b; by eexists).
  split.
  - apply (no_job_lost plain_client []
             [Schedule 0 1 noop; Schedule 0 3 noop; Tick 5; Schedule 5 1 noop] 2
             (Build_ScheduledJob (5 + 1) noop false false) Hlt); reflexivity.
  - intros Hin.
    apply (no_job_lost plain_client []
             [Schedule 0 1 noop; Schedule 0 3 noop; Tick 5; Schedule 5 1 noop] 0
             (Build_ScheduledJob (0 + 1) noop false true) Hlt) in Hin; [done|reflexivity].
Defined.

Section more_connections.
Context `{JobOrder}.

(** X14.  When the constructor of the client class raises, [_accept] lets
    the exception out: the connection has been taken from the listening
    socket and made non-blocking, its socket stays open, and no client for
    it is in the active set. *)
Theorem accept_constructor_raises (conn : Z) (waiting : list Z) (calls : list api_call)
    (e : exn) (s : BaseServer) :
  _server s = conn :: waiting →
  construction (_ClientClass s conn) = Callable calls (Some e) →
  let r := _accept s in
  r.1 = Raises e
  ∧ _server r.2 = waiting
  ∧ sockets r.2 = <[conn := false]> (sockets s)
  ∧ _clients r.2 = _clients s.
Proof.
  intros Hs Hinit. unfold _accept, socket_accept, socket_setblocking, clients_add, getattr,
    modify. py_unfold. rewrite Hs. cbv beta iota zeta. state_simpl. rewrite Hinit.
  set (s1 := set_sockets _ _).
  assert (Hsock : sockets s1 = <[conn := false]> (sockets s)).
  { subst s1. simpl. apply map_eq. intros fd. rewrite lookup_alter, !lookup_insert.
    by repeat case_decide. }
  pose proof (call_result calls (Some e) s1) as Hr.
  destruct (call_conn (Callable calls (Some e)) s1) as (Hc & Hso & _).
  destruct (call_registers_no_read (Callable calls (Some e)) s1) as [Hl _].
  destruct (call (Callable calls (Some e)) s1) as [[[]|e'] s2]; cbn [fst snd] in *; [done|].
  injection Hr as ->. split_and!; [done|by rewrite Hl|by rewrite Hso|by rewrite Hc].
Qed.

(** X15.  Sends without callback and write-readiness events on one
    connection, in any order and number: what the transport has taken so far
    followed by what is still queued is what was there before followed by
    the payloads of the sends, in the order of the calls. *)
Theorem interleaved_fifo (client : Client) (ops : list op) (s : BaseServer) :
  Forall (plain_traffic client) ops →
  Forall (λ m, callback m = None) (pending (fileno client) s) →
  let fd := fileno client in
  let s' := run ops s in
  transmitted fd (trace s') ++ stream (pending fd s')
  = transmitted fd (trace s) ++ stream (pending fd s) ++ offered ops.
Proof.
  intros Hops. revert s. cbv zeta.
  induction Hops as [|o ops Ho Hops IH]; intros s Hplain.
  { simpl. by rewrite app_nil_r. }
  assert (Hoffered : ∀ payload cb,
    offered (Send client payload cb :: ops) = payload ++ offered ops) by done.
  destruct o as [| |c payload [f|]| | |c [cb|e]| |]; try done; simpl in Ho; subst c.
  - (* a send *)
    destruct (send_pending client payload None s) as [Hp Ht].
    cbn [run foldl step]. fold (run ops (after (send client payload None) s)).
    rewrite IH.
    + rewrite Ht, Hp, Hoffered. unfold stream. rewrite bind_app. simpl.
      by rewrite app_nil_r, <-!app_assoc.
    + rewrite Hp. apply Forall_app. split; [done|]. by repeat constructor.
  - (* a write event *)
    cbn [run foldl step]. fold (run ops (after (_nonblock_write client (Returns cb)) s)).
    pose proof (write_events_stream client [cb] s Hplain) as Hstep. cbv zeta in Hstep.
    simpl in Hstep.
    assert (Hplain' : Forall (λ m, callback m = None)
              (pending (fileno client) (after (_nonblock_write client (Returns cb)) s))).
    { destruct (pending (fileno client) s) as [|m rest] eqn:Hp.
      - destruct (write_idle client cb s Hp) as [_ ->]. constructor.
      - apply Forall_cons in Hplain as [Hm Hrest].
        destruct (write_plain client cb m rest s Hp Hm) as (_ & _ & ->).
        destruct (drop cb (data m)); [done|]. by constructor. }
    rewrite IH by done.
    assert (Hskip : offered (Write client (Returns cb) :: ops) = offered ops) by done.
    by rewrite Hskip, !app_assoc, Hstep.
Qed.
End more_connections.

Lemma accept_constructor_raises_witness :
  let H := python3 in
  let factory := λ fd, Build_Client fd (failing (ApplicationError 4)) noop (λ _, noop) in
  let s := __init__ factory [7%Z] in
  let r := _accept s in
  r.1 = Raises (ApplicationError 4)
  ∧ sockets r.2 = <[7%Z := false]> (sockets s)
  ∧ _clients r.2 = _clients s.
Proof.
  intros H factory s r.
  destruct (accept_constructor_raises 7 [] [] (ApplicationError 4) s eq_refl eq_refl)
    as (Hr & _ & Hs & Hc).
  by split_and!.
Defined.

Lemma interleaved_fifo_witness :
  let H := python3 in
  let client := plain_client 5 in
  let ops := [Send client [Byte.x61; Byte.x62] None; Write client (Returns 1);
              Send client [Byte.x63] None; Write client (Returns 1)] in
  let s' := run ops idle in
  transmitted 5 (trace s') ++ stream (pending 5 s') = [Byte.x61; Byte.x62; Byte.x63].
Proof.
  intros H client ops s'.
  assert (Hops : Forall (plain_traffic client) ops).
  { repeat constructor. }
  assert (Hplain : Forall (λ m, callback m = None) (pending (fileno client) idle)).
  { constructor. }
  exact (interleaved_fifo client ops idle Hops Hplain).
Defined.

(** ** Scheduler and connections keep apart *)

Section apart.
Context `{JobOrder}.

(** X16.  A read-readiness event whose handler returns leaves the
    connection as it is: the handler gets the bytes once, no teardown runs,
    the active set and the sockets are untouched, and what the handler sent
    on this connection is queued behind the output already pending. *)
Theorem read_handler_returns (client : Client) (chunk : bytes) (calls : list api_call)
    (s : BaseServer) :
  chunk ≠ [] →
  _recv_data client chunk = Callable calls None →
  let fd := fileno client in
  let r := _nonblock_read client (Returns chunk) s in
  r.1 = Returns tt
  ∧ trace r.2 = trace s ++ [SocketRecv fd (Returns chunk); RecvData fd chunk]
  ∧ _clients r.2 = _clients s
  ∧ sockets r.2 = sockets s
  ∧ pending fd r.2 = pending fd s ++ queued fd calls.
Proof.
  intros Hne Hhandler. cbv zeta.
  unfold _nonblock_read, socket_recv, emit, logger_exception, emit, modify.
  py_unfold. cbv beta iota. destruct chunk as [|b chunk]; [done|].
  cbv beta iota. state_simpl. rewrite Hhandler.
  set (s1 := set_trace _ _).
  pose proof (call_result calls None s1) as Hr.
  pose proof (call_same_trace (Callable calls None) s1) as Ht. unfold same_trace in Ht.
  destruct (call_conn (Callable calls None) s1) as (Hc & Hs & _).
  destruct (call_send_queue (fileno client) calls None s1) as (Hp & _).
  destruct (call _ s1) as [[[]|e] s2]; cbn [fst snd] in *; [|done].
  split_and!; try done. rewrite Ht. subst s1. simpl. by rewrite <-app_assoc.
Qed.

(** X17.  A tick that finds the heap empty, or the job at its front not yet
    due, changes nothing, compares no jobs and returns: 1 for an empty heap,
    else the delay to that job's fire time, at most 1. *)
Theorem tick_nothing_due (t : Q) (s : BaseServer) :
  match _job_queue s with
  | [] => _dispatch_event t s = (Returns 1%Q, s)
  | top :: _ =>
      ∀ j, jobs s !! top = Some j → (t < time j)%Q →
           _dispatch_event t s
           = (Returns (if Qgt_dec (time j - t) 1 then 1%Q else (time j - t)%Q), s)
  end.
Proof.
  rewrite _dispatch_event_eq, drain_S.
  destruct (_job_queue s) as [|top rest] eqn:Hq; simpl.
  { by rewrite Hq. }
  intros j Hj Ht. rewrite Hj.
  assert (Qgt_dec (time j - t) 0 = true) as ->.
  { apply Qgt_dec_true. lra. }
  simpl. by rewrite Hq.
Qed.

Lemma drain_conn fuel t tasks : steps conn_grows (drain fuel t tasks).
Proof.
  revert tasks. induction fuel as [|fuel IH]; intros tasks s; [simpl; reflexivity|].
  rewrite drain_S.
  destruct (_job_queue s) as [|top rest]; [simpl; reflexivity|].
  destruct (jobs s !! top) as [j|]; [|simpl; reflexivity].
  destruct (Qgt_dec (time j - t) 0); [simpl; reflexivity|].
  destruct (heappop job_lt (top :: rest)) as [[task|e] queue];
    [|by apply conn_grows_same].
  cbv zeta. set (s1 := set_jobs _ _).
  assert (Hs1 : conn_grows s s1) by by apply conn_grows_same.
  destruct (jobs s1 !! task); [|done]. etrans; [exact Hs1|apply IH].
Qed.

Lemma run_tasks_conn t tasks : steps conn_grows (run_tasks t tasks).
Proof.
  induction tasks as [|task tasks IH]; intros s; [simpl; reflexivity|].
  rewrite run_tasks_cons. destruct (jobs s !! task) as [j|]; [|simpl; reflexivity].
  set (s1 := set_trace _ s).
  assert (Hs1 : conn_grows s s1) by by apply conn_grows_same.
  pose proof (call_conn (func j) s1) as Hcall.
  destruct (call (func j) s1) as [[[]|e] s2]; cbn [fst snd] in *.
  - etrans; [exact Hs1|]. etrans; [exact Hcall|]. apply IH.
  - by etrans.
Qed.

(** X18.  The scheduler never closes or drops a connection: [schedule],
    [unschedule], [send] and a tick, whatever the job functions it calls do,
    leave the active set and the sockets as they are and take nothing from
    any output queue; they can only append to queues. *)
Theorem scheduler_leaves_connections (o : op) (s : BaseServer) :
  match o with
  | Schedule _ _ _ | Unschedule _ | Send _ _ _ | Tick _ => True
  | _ => False
  end →
  _clients (step o s) = _clients s
  ∧ sockets (step o s) = sockets s
  ∧ ∀ fd, pending fd s `prefix_of` pending fd (step o s).
Proof.
  intros Ho. change (conn_grows s (step o s)).
  destruct o as [now delay f|job|client payload cb| | | | |t]; try done; simpl; unfold after.
  - apply schedule_conn.
  - apply unschedule_conn.
  - apply send_conn.
  - rewrite _dispatch_event_eq.
    pose proof (drain_conn (S (length (_job_queue s))) t [] s) as Hdrain.
    destruct (drain _ _ _ _) as [[[dt tasks]|e] s1]; [|done]. cbn [fst snd] in *.
    pose proof (run_tasks_conn t tasks s1) as Hrun.
    destruct (run_tasks _ _ _) as [[[]|e] s2]; cbn [fst snd] in *; by etrans.
Qed.

(** X19.  Outside ticks no job function is ever called and no job leaves the
    heap: [schedule], [unschedule], [send] and the accept, read, write and
    teardown events, with all the user code they run, leave the record of
    job calls as it is and keep every job of the heap in the heap. *)
Theorem events_leave_scheduler (o : op) (s : BaseServer) :
  (∀ t, o ≠ Tick t) →
  invocations (trace (step o s)) = invocations (trace s)
  ∧ _job_queue s ⊆ _job_queue (step o s).
Proof.
  intros Ho.
  assert (Hcalm : calm s (step o s)).
  { destruct o as [now delay f|job|client payload cb| |client received|client sent
                  |client finalize|t]; simpl; unfold after.
    - apply schedule_calm.
    - apply unschedule_calm.
    - apply send_calm.
    - apply _accept_calm.
    - apply _nonblock_read_calm.
    - apply _nonblock_write_calm.
    - apply _clean_up_client_calm.
    - by destruct (Ho t). }
  split; [apply Hcalm|apply (calm_queue _ _ Hcalm)].
Qed.
End apart.

Lemma read_handler_returns_witness :
  let H := python3 in
  let reply := CallSend (plain_client 5) [Byte.x6f; Byte.x6b] None in
  let client := Build_Client 5 noop noop (λ _, Callable [reply] None) in
  let s := set_clients {[5%Z]} idle in
  let r := _nonblock_read client (Returns [Byte.x61]) s in
  r.1 = Returns tt
  ∧ _clients r.2 = _clients s
  ∧ pending 5 r.2 = [Build_SendMessage [Byte.x6f; Byte.x6b] None].
Proof.
  intros H reply client s r.
  assert (Hne : [Byte.x61] ≠ []) by done.
  destruct (read_handler_returns client [Byte.x61] [reply] s Hne eq_refl)
    as (Hr & _ & Hc & _ & Hp).
  split_and!; [exact Hr|exact Hc|exact Hp].
Defined.

Lemma scheduler_leaves_connections_witness :
  let H := python3 in
  let hello := CallSend (plain_client 5) [Byte.x68] None in
  let s := set_clients {[5%Z]} (step (Schedule 0 0 (Callable [hello] None)) idle) in
  _clients (step (Tick 0) s) = _clients s
  ∧ pending 5 s `prefix_of` pending 5 (step (Tick 0) s).
Proof.
  intros H hello s.
  destruct (scheduler_leaves_connections (Tick 0) s I) as (Hc & _ & Hp).
  split; [exact Hc|apply Hp].
Defined.

Lemma events_leave_scheduler_witness :
  let H := python3 in
  let s := step (Schedule 0 0 noop) idle in
  let o := Read (plain_client 5) (Returns []) in
  invocations (trace (step o s)) = invocations (trace s)
  ∧ _job_queue s ⊆ _job_queue (step o s).
Proof.
  intros H s o. apply (events_leave_scheduler o s). intros t. discriminate.
Defined.

Lemma tick_nothing_due_witness :
  let H := python3 in
  let s := step (Schedule 0 (1 # 2) noop) idle in
  _dispatch_event (1 # 4) s
  = (Returns (if Qgt_dec (0 + (1 # 2) - (1 # 4)) 1 then 1%Q else (0 + (1 # 2) - (1 # 4))%Q), s).
Proof.
  intros H s.
  apply (tick_nothing_due (1 # 4) s (Build_ScheduledJob (0 + (1 # 2)) noop false false)).
  - reflexivity.
  - reflexivity.
Defined.

(** * Events, exceptions and cancelled jobs *)

(** ** Connection events and the exceptions of user code *)

Section event_exceptions.
Context `{JobOrder}.

(** What a teardown leaves of the connection's queue, however the close
    hook ends. *)
Lemma _clean_up_client_pending client finalize calls raised s :
  on_close client = Callable calls raised →
  let r := _clean_up_client client finalize s in
  pending (fileno client) r.2 = queued (fileno client) calls
  ∧ (queued (fileno client) calls = [] → _send_queue r.2 !! fileno client = None).
Proof.
  intros Hclose. cbv zeta. rewrite _clean_up_client_eq. cbv zeta. rewrite Hclose.
  set (s1 := set_trace _ _).
  destruct (call_send_queue (fileno client) calls raised s1) as (Hp & Hnone & _).
  assert (Hgone : _send_queue s1 !! fileno client = None).
  { subst s1. simpl. apply lookup_delete_eq. }
  assert (Hp1 : pending (fileno client) s1 = []).
  { unfold pending. by rewrite Hgone. }
  rewrite Hp1, app_nil_l in Hp. rewrite Hgone in Hnone. unfold pending in *.
  destruct (call _ s1) as [[[]|e] s2]; cbn [fst snd] in *; [|done].
  destruct finalize; [|case_decide]; by simpl.
Qed.

(** The teardown of an event, its close hook returning. *)
Lemma _clean_up_client_effects client calls s :
  on_close client = Callable calls None →
  let fd := fileno client in
  let r := _clean_up_client client false s in
  trace r.2 = trace s ++ [OnClose fd; SocketClose fd]
  ∧ (fd ∉ _clients r.2)
  ∧ sockets r.2 !! fd = None
  ∧ pending fd r.2 = queued fd calls
  ∧ (queued fd calls = [] → _send_queue r.2 !! fd = None)
  ∧ (fd ∈ _clients s → r.1 = Returns tt).
Proof.
  intros Hclose. cbv zeta.
  destruct (_clean_up_client_trace client calls None s Hclose) as (Ht & Hnot & Hsock & _ & Hin).
  destruct (_clean_up_client_pending client false calls None s Hclose) as [Hp Hnone].
  by split_and!.
Qed.

(** The read event after [recv] returned data. *)
Lemma _nonblock_read_data client chunk s :
  chunk ≠ [] →
  let fd := fileno client in
  _nonblock_read client (Returns chunk) s =
  match call (_recv_data client chunk)
          (set_trace (trace s ++ [SocketRecv fd (Returns chunk); RecvData fd chunk]) s) with
  | (Returns _, s1) => (Returns tt, s1)
  | (Raises e, s1) =>
      if Exception e then
        _clean_up_client client false
          (set_trace (trace s1 ++ [LogException "Client recv_data failure"]) s1)
      else (Raises e, s1)
  end.
Proof.
  intros Hne. cbv zeta.
  unfold _nonblock_read, socket_recv, emit, logger_exception, emit, modify.
  py_unfold. cbv beta iota. destruct chunk as [|b chunk]; [done|].
  cbv beta iota. state_simpl. rewrite <-app_assoc. simpl.
  destruct (call _ _) as [[[]|e] s2]; [done|]. by destruct (Exception e).
Qed.

Lemma _nonblock_read_closed client received s :
  received = Raises SocketError ∨ received = Returns [] →
  _nonblock_read client received s
  = _clean_up_client client false
      (set_trace (trace s ++ [SocketRecv (fileno client) received]) s).
Proof. by intros [-> | ->]. Qed.

(** C6, as amended.  A read-readiness event.  A [socket.error] from [recv]
    or an empty read tears the connection down: its close hook runs, its
    socket is closed, it leaves the active set and its queued output is
    dropped.  Otherwise the bytes go to the client's handler.  If the handler
    returns, no teardown runs.  If it raises an exception of class
    [Exception], that is logged and the connection torn down in the same
    way, and the event returns normally when the teardown does (the client
    is in the active set and its close hook returns).  If it raises an
    exception outside [Exception], that exception comes out of the event:
    nothing is logged and the connection stays as it is.  In every case no
    other connection loses its place in the active set, its socket or any
    pending output. *)
Theorem read_event_isolated (client : Client) (received : outcome bytes) (s : BaseServer) :
  let fd := fileno client in
  let r := _nonblock_read client received s in
  ((received = Raises SocketError ∨ received = Returns []) →
     r = _clean_up_client client false (set_trace (trace s ++ [SocketRecv fd received]) s))
  ∧ (∀ chunk, received = Returns chunk → chunk ≠ [] →
       r = match call (_recv_data client chunk)
                   (set_trace (trace s ++ [SocketRecv fd received; RecvData fd chunk]) s) with
           | (Returns _, s1) => (Returns tt, s1)
           | (Raises e, s1) =>
               if Exception e then
                 _clean_up_client client false
                   (set_trace (trace s1 ++ [LogException "Client recv_data failure"]) s1)
               else (Raises e, s1)
           end)
  ∧ (∀ calls, (received = Raises SocketError ∨ received = Returns []) →
     on_close client = Callable calls None →
     trace r.2 = trace s ++ [SocketRecv fd received; OnClose fd; SocketClose fd]
     ∧ (fd ∉ _clients r.2)
     ∧ sockets r.2 !! fd = None
     ∧ pending fd r.2 = queued fd calls
     ∧ (fd ∈ _clients s → r.1 = Returns tt))
  ∧ (∀ chunk sent raised, received = Returns chunk → chunk ≠ [] →
       _recv_data client chunk = Callable sent raised →
       let got := [SocketRecv fd received; RecvData fd chunk] in
       match raised with
       | None =>
           r.1 = Returns tt
           ∧ trace r.2 = trace s ++ got
           ∧ _clients r.2 = _clients s ∧ sockets r.2 = sockets s
           ∧ pending fd r.2 = pending fd s ++ queued fd sent
       | Some e =>
           if Exception e then
             ∀ calls, on_close client = Callable calls None →
               trace r.2 = trace s ++ got ++ [LogException "Client recv_data failure";
                                              OnClose fd; SocketClose fd]
               ∧ (fd ∉ _clients r.2)
               ∧ sockets r.2 !! fd = None
               ∧ pending fd r.2 = queued fd calls
               ∧ (fd ∈ _clients s → r.1 = Returns tt)
           else
             r.1 = Raises e
             ∧ trace r.2 = trace s ++ got
             ∧ _clients r.2 = _clients s ∧ sockets r.2 = sockets s
             ∧ pending fd r.2 = pending fd s ++ queued fd sent
       end)
  ∧ others_kept fd s r.2.
Proof.
  cbv zeta. split_and!; [| | | |apply _nonblock_read_others].
  - apply _nonblock_read_closed.
  - intros chunk -> Hne. by apply _nonblock_read_data.
  - intros calls Hrecv Hclose. rewrite _nonblock_read_closed by done.
    destruct (_clean_up_client_effects client calls
                (set_trace (trace s ++ [SocketRecv (fileno client) received]) s) Hclose)
      as (Ht & Hnot & Hsock & Hp & _ & Hin).
    split_and!; try done. rewrite Ht. simpl. by rewrite <-app_assoc.
  - intros chunk sent raised -> Hne Hhandler.
    rewrite _nonblock_read_data by done. cbv zeta. rewrite Hhandler.
    set (s1 := set_trace _ s).
    pose proof (call_result sent raised s1) as Hr.
    pose proof (call_same_trace (Callable sent raised) s1) as Ht. unfold same_trace in Ht.
    destruct (call_conn (Callable sent raised) s1) as (Hc & Hs & _).
    destruct (call_send_queue (fileno client) sent raised s1) as (Hp & _).
    destruct (call _ s1) as [[[]|e] s2]; destruct raised as [e'|]; cbn [fst snd] in *;
      try done.
    injection Hr as ->. destruct (Exception e') eqn:Hexc; [|done].
    intros calls Hclose.
    destruct (_clean_up_client_effects client calls
                (set_trace (trace s2 ++ [LogException "Client recv_data failure"]) s2) Hclose)
      as (Ht' & Hnot & Hsock & Hp' & _ & Hin).
    split_and!; try done.
    + rewrite Ht'. simpl. rewrite Ht. subst s1. simpl. by rewrite <-!app_assoc.
    + intros Hin'. apply Hin. simpl. by rewrite Hc.
Qed.
End event_exceptions.

Lemma read_event_isolated_witness :
  let H := python3 in
  let client := Build_Client 5 noop noop (λ _, failing (ApplicationError 1)) in
  let s := set_sockets {[5%Z := false; 6%Z := false]} (set_clients {[5%Z; 6%Z]} idle) in
  let r := _nonblock_read client (Returns [Byte.x61]) s in
  r.1 = Returns tt
  ∧ trace r.2 = [SocketRecv 5 (Returns [Byte.x61]); RecvData 5 [Byte.x61];
                 LogException "Client recv_data failure"; OnClose 5; SocketClose 5]
  ∧ (5%Z ∉ _clients r.2)
  ∧ sockets r.2 !! 5%Z = None
  ∧ others_kept 5 s r.2.
Proof.
  intros H client s r.
  destruct (read_event_isolated client (Returns [Byte.x61]) s)
    as (_ & _ & _ & Hdata & Hothers).
  assert (Hne : [Byte.x61] ≠ []) by done.
  pose proof (Hdata [Byte.x61] [] (Some (ApplicationError 1)) eq_refl Hne eq_refl [] eq_refl)
    as (Ht & Hnot & Hsock & _ & Hr).
  split_and!; [|exact Ht|exact Hnot|exact Hsock|exact Hothers].
  apply Hr. apply elem_of_union_l, elem_of_singleton. reflexivity.
Defined.

(** C6, counterexample.  A handler that raises [SystemExit] (it called
    [sys.exit()]): the exception comes out of [_nonblock_read], nothing is
    logged, and the connection is not torn down: it is still in the active
    set with its socket open. *)
Lemma read_handler_exits :
  let H := python3 in
  let client := Build_Client 5 noop noop (λ _, failing SystemExit) in
  let s := set_sockets {[5%Z := false]} (set_clients {[5%Z]} idle) in
  let r := _nonblock_read client (Returns [Byte.x61]) s in
  r.1 = Raises SystemExit
  ∧ trace r.2 = [SocketRecv 5 (Returns [Byte.x61]); RecvData 5 [Byte.x61]]
  ∧ 5%Z ∈ _clients r.2
  ∧ sockets r.2 !! 5%Z = Some false.
Proof. intros H client s r. split_and!; [done|done|set_solver|done]. Qed.

Section completing_write.
Context `{JobOrder}.

(** C4, as amended.  A write-readiness event in which the transport takes
    all that is left of the front message.  Without a callback the message
    is dequeued after the write.  With a callback that returns, the callback
    is called once, after the write and before the message is dequeued; the
    queue is then the rest followed by what the callback sent.  With a
    callback that raises an exception of class [Exception], it is called
    once after the write, the failure is logged and the connection torn
    down: the message is not dequeued and nothing more is written, the
    teardown deletes the queue (what is pending afterwards is what the close
    hook sent), and when the close hook returns the socket is closed and the
    connection taken out of the active set.  With a callback that raises an
    exception outside [Exception], that exception comes out of the event:
    nothing is logged, no teardown runs, and the finished message stays at
    the front of the queue. *)
Theorem write_completion (client : Client) (cb : nat) (m : SendMessage)
    (rest : list SendMessage) (s : BaseServer) :
  _send_queue s !! fileno client = Some (m :: rest) →
  length (data m) ≤ cb →
  let fd := fileno client in
  let r := _nonblock_write client (Returns cb) s in
  let wrote := SocketSend fd (data m) (Returns cb) in
  match callback m with
  | None =>
      r.1 = Returns tt
      ∧ trace r.2 = trace s ++ [wrote; Popleft fd]
      ∧ pending fd r.2 = rest
      ∧ (rest = [] → _send_queue r.2 !! fd = None)
  | Some (Callable calls None) =>
      r.1 = Returns tt
      ∧ trace r.2 = trace s ++ [wrote; WriteCallback fd; Popleft fd]
      ∧ pending fd r.2 = rest ++ queued fd calls
      ∧ (rest ++ queued fd calls = [] → _send_queue r.2 !! fd = None)
  | Some (Callable calls (Some e)) =>
      if Exception e then
        ∃ tail,
          trace r.2 = trace s ++ [wrote; WriteCallback fd;
                                  LogException "Client write callback failure";
                                  OnClose fd] ++ tail
          ∧ (tail = [] ∨ tail = [SocketClose fd] ∨ tail = [OnClose fd])
          ∧ match on_close client with
            | Callable closing _ =>
                pending fd r.2 = queued fd closing
                ∧ (queued fd closing = [] → _send_queue r.2 !! fd = None)
            end
          ∧ ((∃ closing, on_close client = Callable closing None) →
             tail = [SocketClose fd] ∧ (fd ∉ _clients r.2) ∧ sockets r.2 !! fd = None
             ∧ (fd ∈ _clients s → r.1 = Returns tt))
      else
        r.1 = Raises e
        ∧ trace r.2 = trace s ++ [wrote; WriteCallback fd]
        ∧ _clients r.2 = _clients s ∧ sockets r.2 = sockets s
        ∧ pending fd r.2 = stripped cb m :: rest ++ queued fd calls
  end.
Proof.
  intros Hq Hcb. cbv zeta.
  rewrite (_nonblock_write_sent client cb m rest s Hq), drop_ge by done.
  pose proof (after_write_front client cb m rest s Hq) as Hfront.
  assert (Htrace : trace (after_write client cb m s)
                   = trace s ++ [SocketSend (fileno client) (data m) (Returns cb)]) by done.
  assert (Hclients : _clients (after_write client cb m s) = _clients s) by done.
  assert (Hsockets : sockets (after_write client cb m s) = sockets s) by done.
  set (s1 := after_write client cb m s) in *. clearbody s1.
  unfold try_except. rewrite bind_eq.
  destruct (callback m) as [[calls raised]|] eqn:Hcallback.
  2: { rewrite ret_eq.
    destruct (finish_front_spec client _ _ s1 Hfront) as (Hr & Ht & Hp & _).
    pose proof (finish_front_state client _ _ s1 Hfront) as Hstate. cbv zeta in Hstate.
    destruct (finish_front client s1) as [[[]|e] s2]; cbn [fst snd] in *; [|done].
    split_and!; [done| |done|].
    - by rewrite Ht, Htrace, <-app_assoc.
    - intros Hnil. rewrite Hnil in Hstate. apply Hstate. }
  rewrite completion_eq.
  set (s2 := set_trace (trace s1 ++ [WriteCallback (fileno client)]) s1).
  pose proof (call_result calls raised s2) as Hr.
  pose proof (call_same_trace (Callable calls raised) s2) as Ht2.
  destruct (call_conn (Callable calls raised) s2) as (Hc2 & Hs2 & _).
  destruct (call_send_queue (fileno client) calls raised s2) as (Hp2 & Hnone2 & Hsome2).
  assert (Hpending2 : pending (fileno client) s2 = stripped cb m :: rest).
  { unfold pending. subst s2. simpl. by rewrite Hfront. }
  rewrite Hpending2 in Hp2. unfold same_trace in *.
  destruct (call (Callable calls raised) s2) as [[[]|e] s3];
    destruct raised as [e'|]; cbn [fst snd] in *; simplify_eq.
  - (* the callback returned *)
    assert (Hq3 : _send_queue s3 !! fileno client
                  = Some (stripped cb m :: rest ++ queued (fileno client) calls)).
    { unfold pending in Hp2.
      destruct (_send_queue s3 !! fileno client) as [queue|]; simpl in *; by simplify_eq. }
    destruct (finish_front_spec client _ _ s3 Hq3) as (Hr3 & Ht3 & Hp3 & _).
    pose proof (finish_front_state client _ _ s3 Hq3) as Hstate. cbv zeta in Hstate.
    destruct (finish_front client s3) as [[[]|e] s4]; cbn [fst snd] in *; simplify_eq.
    split_and!; [done| |done|].
    + subst s2. state_simpl. by rewrite Ht3, Ht2, Htrace, <-!app_assoc.
    + intros Hnil. rewrite Hnil in Hstate. apply Hstate.
  - (* the callback raised *)
    destruct (Exception e') eqn:Hexc; cbn [fst snd].
    2: { assert (is_socket_error e' = false) as -> by by destruct e'.
         cbn [fst snd]. split_and!; try done.
         - subst s2. state_simpl. by rewrite Ht2, Htrace, <-app_assoc.
         - by rewrite Hc2.
         - by rewrite Hs2. }
    set (s4 := set_trace (trace s3 ++ [LogException _]) s3).
    assert (Ht4 : trace s4 = trace s ++ [SocketSend (fileno client) (data m) (Returns cb);
      WriteCallback (fileno client); LogException "Client write callback failure"]).
    { subst s4 s2. state_simpl. by rewrite Ht2, Htrace, <-!app_assoc. }
    assert (Hc4 : _clients s4 = _clients s).
    { subst s4 s2. state_simpl. by rewrite Hc2. }
    clearbody s4.
    destruct (on_close client) as [closing raised'] eqn:Hclose.
    pose proof (_clean_up_client_trace client closing raised' s4 Hclose) as Hclean.
    pose proof (_clean_up_client_pending client false closing raised' s4 Hclose) as Hgone.
    cbv zeta in Hclean, Hgone.
    destruct (_clean_up_client client false s4) as [[[]|e2] s5] eqn:Hrun;
      destruct raised' as [e3|]; cbn [fst snd] in *; cbv beta iota;
      rewrite ?ret_eq; cbn [fst snd].
    + by destruct Hclean as [_ [=]].
    + destruct Hclean as (Ht5 & Hnot & Hsock & _ & Hin).
      exists [SocketClose (fileno client)]. rewrite Ht5, Ht4, <-!app_assoc.
      split_and!; [done|by auto|apply Hgone|apply Hgone|]. intros _. split_and!; try done.
    + destruct Hclean as [Ht5 [= ->]].
      destruct (is_socket_error e3) eqn:Hse.
      * pose proof (_clean_up_client_trace client closing (Some e3) s5 Hclose) as Hclean'.
        pose proof (_clean_up_client_pending client false closing (Some e3) s5 Hclose)
          as Hgone'.
        cbv zeta in Hclean', Hgone'. destruct Hclean' as [Ht6 Hr6].
        exists [OnClose (fileno client)]. rewrite Ht6, Ht5, Ht4, <-!app_assoc.
        split_and!; [done|by auto|apply Hgone'|apply Hgone'|]. by intros [? [=]].
      * exists []. cbn [fst snd]. rewrite Ht5, Ht4, <-!app_assoc.
        split_and!; [done|by auto|apply Hgone|apply Hgone|]. by intros [? [=]].
    + destruct Hclean as (Ht5 & Hnot & Hsock & [[=]|[= ->]] & Hin). cbn [is_socket_error fst snd].
      exists [SocketClose (fileno client)]. rewrite Ht5, Ht4, <-!app_assoc.
      split_and!; [done|by auto|apply Hgone|apply Hgone|]. intros _. split_and!; try done.
      intros Hin'. rewrite Hc4 in Hin. by specialize (Hin Hin').
Qed.
End completing_write.

Lemma write_completion_witness :
  let H := python3 in
  let client := plain_client 5 in
  let m := Build_SendMessage [Byte.x61] (Some (failing (ApplicationError 2))) in
  let s := set_send_queue {[5%Z := [m]]} (set_clients {[5%Z]} idle) in
  let r := _nonblock_write client (Returns 1) s in
  _send_queue s !! 5%Z = Some [m]
  ∧ length (data m) ≤ 1
  ∧ ∃ tail,
      trace r.2 = trace s ++ [SocketSend 5 [Byte.x61] (Returns 1); WriteCallback 5;
                              LogException "Client write callback failure";
                              OnClose 5] ++ tail
      ∧ (tail = [] ∨ tail = [SocketClose 5] ∨ tail = [OnClose 5])
      ∧ (pending 5 r.2 = [] ∧ (queued 5 [] = [] → _send_queue r.2 !! 5%Z = None))
      ∧ ((∃ closing, on_close client = Callable closing None) →
         tail = [SocketClose 5] ∧ (5%Z ∉ _clients r.2) ∧ sockets r.2 !! 5%Z = None
         ∧ (5%Z ∈ _clients s → r.1 = Returns tt)).
Proof.
  intros H client m s r.
  assert (Hq : _send_queue s !! fileno client = Some [m]) by reflexivity.
  assert (Hcb : length (data m) ≤ 1) by (simpl; lia).
  split; [exact Hq|]. split; [exact Hcb|].
  exact (write_completion client 1 m [] s Hq Hcb).
Defined.

(** C4, counterexample.  A callback that raises [KeyboardInterrupt]: the
    exception comes out of [_nonblock_write], nothing is logged and the
    connection is not torn down: it stays in the active set with its socket
    open, and the finished message stays at the front of its queue.  The
    next write-readiness event calls the callback again. *)
Lemma write_callback_interrupted :
  let H := python3 in
  let client := plain_client 5 in
  let m := Build_SendMessage [Byte.x61] (Some (failing KeyboardInterrupt)) in
  let s := set_send_queue {[5%Z := [m]]}
             (set_sockets {[5%Z := false]} (set_clients {[5%Z]} idle)) in
  let r := _nonblock_write client (Returns 1) s in
  let r' := _nonblock_write client (Returns 0) r.2 in
  r.1 = Raises KeyboardInterrupt
  ∧ trace r.2 = [SocketSend 5 [Byte.x61] (Returns 1); WriteCallback 5]
  ∧ 5%Z ∈ _clients r.2
  ∧ sockets r.2 !! 5%Z = Some false
  ∧ pending 5 r.2 = [Build_SendMessage [] (Some (failing KeyboardInterrupt))]
  ∧ trace r'.2 = [SocketSend 5 [Byte.x61] (Returns 1); WriteCallback 5;
                  SocketSend 5 [] (Returns 0); WriteCallback 5].
Proof. intros H client m s r r'. split_and!; [done|done|set_solver|done..]. Qed.

Section accepting.
Context `{JobOrder}.

End accepting.


(** ** Cancelled jobs and the tick *)

Section cancelled_jobs.
Context `{JobOrder}.
Context (job_lt_returns : ∀ a b, ∃ c, job_lt a b = Returns c).

(** A tick, wherever the job sits in the heap: either the loop takes the job
    out, marked dispatched, or it stopped at a front job that is not due. *)
Lemma tick_pops_or_stops t s job j :
  sched_inv s → all_queued s →
  jobs s !! job = Some j →
  let s' := after (_dispatch_event t) s in
  ((job ∉ _job_queue s') ∧ ∃ j', jobs s' !! job = Some j' ∧ dispatched j' = true)
  ∨ (∃ top rest jt, _job_queue (drained t s) = top :: rest
       ∧ jobs (drained t s) !! top = Some jt ∧ (t < time jt)%Q).
Proof.
  intros Hinv Hall Hj s'.
  assert (Hinv' : sched_inv s') by by apply _dispatch_event_inv.
  assert (Hbound : ∀ job, job ∈ _job_queue s → is_Some (jobs s !! job)).
  { intros job' Hin. destruct (inv_queue_fresh _ Hinv _ Hin) as (j' & -> & _). by eexists. }
  revert s' Hinv'. unfold after, drained, after. rewrite _dispatch_event_eq.
  pose proof (drain_queued job_lt_returns (S (length (_job_queue s))) t [] s Hall) as Hall1.
  pose proof (drain_evolves (S (length (_job_queue s))) t [] s) as Hev1.
  pose proof (drain_exit (S (length (_job_queue s))) t [] s) as Hexit.
  destruct (drain_returns job_lt_returns (S (length (_job_queue s))) t [] s Hbound)
    as (dt & tasks & s1 & Hdrain).
  rewrite Hdrain in *. cbn [fst snd] in *.
  destruct (Hexit _ _ _ ltac:(lia) eq_refl) as [Hpos Hfront]. clear Hexit.
  destruct (Hev1 _ _ Hj) as (j1 & Hj1 & _ & _ & _ & _).
  assert (Hgoal : ∀ s2, evolves s1 s2 → sched_inv s2 →
    ((job ∉ _job_queue s2) ∧ ∃ j', jobs s2 !! job = Some j' ∧ dispatched j' = true)
    ∨ (∃ top rest jt, _job_queue s1 = top :: rest
         ∧ jobs s1 !! top = Some jt ∧ (t < time jt)%Q)).
  { intros s2 Hev2 Hinv2.
    destruct (decide (job ∈ _job_queue s1)) as [Hin|Hout].
    - right. destruct (_job_queue s1) as [|top rest]; [by apply elem_of_nil in Hin|].
      destruct Hfront as (jt & Hjt & ->). exists top, rest, jt. split_and!; [done..|]. lra.
    - left.
      assert (Hd1 : dispatched j1 = true).
      { destruct (dispatched j1) eqn:Hd; [done|]. by destruct (Hout (Hall1 _ _ Hj1 Hd)). }
      destruct (Hev2 _ _ Hj1) as (j' & Hj' & _ & _ & _ & Hd').
      destruct (Hd' Hd1) as [Hd'' _]. split; [|by eauto].
      intros Hin. destruct (inv_queue_fresh _ Hinv2 _ Hin) as (j0 & Hj0 & ?). congruence. }
  pose proof (run_tasks_evolves t tasks s1) as Hev2.
  destruct (run_tasks t tasks s1) as [[[]|e] s2]; cbn [fst snd] in *;
    intros Hinv'; by apply Hgoal.
Qed.
End cancelled_jobs.

Section fires_once_runs.
Context `{JobOrder}.

(** C2.  The job created by a [schedule(d, action)] with [d >= 0], in any
    run of the server: a tick that calls its function read a clock at or
    past its fire time; its function is called at most once; if it is
    marked cancelled, which [unschedule] only does to a job not yet
    dispatched, its function has not been called and never will be; once it
    is marked dispatched its function is not called again; the tick that
    finds it cancelled and due at the front of the heap pops it without
    calling it; and, comparisons of jobs not raising, a tick at or after its
    fire time pops it (marks it dispatched and takes it out of the heap for
    good) without calling it wherever it sits in the heap, unless the loop
    stopped before reaching it, at a front job that is not due. *)
Theorem job_fires_once (factory : Z → Client) (waiting : list Z)
    (before later : list op) (now d : Q) (f : callable) :
  (0 <= d)%Q →
  let s0 := run before (__init__ factory waiting) in
  let job := length (jobs s0) in
  let s := run later (step (Schedule now d f) s0) in
  (∀ t, (job, t) ∈ invocations (trace s) → (now + d <= t)%Q)
  ∧ length (filter (λ c, c.1 = job) (invocations (trace s))) ≤ 1
  ∧ (∀ j, jobs s !! job = Some j → cancel j = true →
       ∀ more, job ∉ (invocations (trace (run more s))).*1)
  ∧ (∀ j, jobs s !! job = Some j → dispatched j = true →
       ∀ more t, (job, t) ∈ invocations (trace (run more s)) →
                 (job, t) ∈ invocations (trace s))
  ∧ (∀ j t rest, _job_queue s = job :: rest → jobs s !! job = Some j →
       cancel j = true → (time j <= t)%Q →
       (job ∉ _job_queue (step (Tick t) s))
       ∧ (job ∉ (invocations (trace (step (Tick t) s))).*1))
  ∧ ((∀ a b, ∃ c, job_lt a b = Returns c) →
     ∀ j t, jobs s !! job = Some j → cancel j = true → (time j <= t)%Q →
       ((job ∉ _job_queue (step (Tick t) s))
        ∧ (∃ j', jobs (step (Tick t) s) !! job = Some j' ∧ dispatched j' = true)
        ∧ ∀ more, job ∉ (invocations (trace (run more (step (Tick t) s)))).*1)
       ∨ (∃ top rest jt, _job_queue (drained t s) = top :: rest
            ∧ jobs (drained t s) !! top = Some jt ∧ (t < time jt)%Q)).
Proof.
  intros _ s0 job s.
  assert (Hinv0 : sched_inv s0) by apply run_inv, init_inv.
  assert (Hinv : sched_inv s) by by apply run_inv, step_inv.
  assert (Hcancelled : ∀ j, jobs s !! job = Some j → cancel j = true →
    ∀ more, job ∉ (invocations (trace (run more s))).*1).
  { intros j Hj Hc more.
    destruct (run_evolves more s _ _ Hj) as (j' & Hj' & _ & _ & Hc' & _).
    eapply called_not_cancelled; [by apply run_inv|done|auto]. }
  split_and!.
  - intros t Hin.
    destruct (inv_called _ Hinv _ _ Hin) as (j & Hj & _ & _ & Ht).
    destruct (schedule_after now d f s0) as (Hjobs & _).
    assert (Hnew : jobs (step (Schedule now d f) s0) !! job
                   = Some (Build_ScheduledJob (now + d) f false false)).
    { simpl. rewrite Hjobs. by apply list_lookup_middle. }
    destruct (run_evolves later _ _ _ Hnew) as (j' & Hj' & Ht' & _).
    fold s in Hj'. rewrite Hj in Hj'. injection Hj' as <-.
    simpl in Ht'. by rewrite <-Ht'.
  - apply count_NoDup_fst, Hinv.
  - done.
  - intros j Hj Hd more t. by apply (dispatched_not_called more s job j).
  - intros j t rest Hq Hj Hc Ht. split.
    + by eapply cancelled_front_popped.
    + apply (Hcancelled j Hj Hc [Tick t]).
  - intros Hlt j t Hj Hc Ht.
    assert (Hall : all_queued s).
    { apply (run_queued Hlt later), (step_queued Hlt), (run_queued Hlt before).
      by intros job' j' ?. }
    destruct (tick_pops_or_stops Hlt t s job j Hinv Hall Hj) as [[Hout Hd]|Hstop].
    + left. split_and!; [done..|]. intros more. apply (Hcancelled j Hj Hc (Tick t :: more)).
    + by right.
Qed.
End fires_once_runs.

Lemma job_fires_once_witness :
  let H := python2 descending in
  let fired := run [Tick (1 # 4); Tick 1; Tick 2] (step (Schedule 0 (1 # 2) noop) (run [] idle)) in
  let s := run [Schedule 0 0 noop; Unschedule 0]
             (step (Schedule 0 0 noop) (run [] idle)) in
  (invocations (trace fired) = [(0, 1%Q)]
   ∧ (∀ t, (0, t) ∈ invocations (trace fired) → (0 + (1 # 2) <= t)%Q)
   ∧ length (filter (λ c, c.1 = 0) (invocations (trace fired))) ≤ 1)
  ∧ (_job_queue s = [1; 0]
     ∧ invocations (trace (step (Tick 0) s)) = [(1, 0%Q)]
     ∧ (0 ∉ _job_queue (step (Tick 0) s))
     ∧ (∃ j', jobs (step (Tick 0) s) !! 0 = Some j' ∧ dispatched j' = true)
     ∧ ∀ more, 0 ∉ (invocations (trace (run more (step (Tick 0) s)))).*1).
Proof.
  intros H fired s.
  assert (Hhalf : (0 <= 1 # 2)%Q) by done.
  assert (Hzero : (0 <= 0)%Q) by done.
  assert (Hlt : ∀ a b, ∃ c, job_lt a b = Returns c) by (intros a b; by eexists).
  split.
  - destruct (job_fires_once plain_client [] [] [Tick (1 # 4); Tick 1; Tick 2] 0 (1 # 2) noop
                Hhalf) as (Htime & Honce & _).
    split_and!; [reflexivity|exact Htime|exact Honce].
  - destruct (job_fires_once plain_client [] [] [Schedule 0 0 noop; Unschedule 0] 0 0 noop
                Hzero) as (_ & _ & _ & _ & _ & Hpopped).
    assert (Hdue : (0 + 0 <= 0)%Q) by done.
    destruct (Hpopped Hlt (Build_ScheduledJob (0 + 0) noop true false) 0%Q eq_refl eq_refl Hdue)
      as [(Hout & Hd & Hnever)|(top & rest & jt & Hstop & _)]; [|discriminate Hstop].
    by split_and!.
Defined.
